(** * Graph traversal and topological ordering (code/graph_algorithms)

    A shallow embedding of the five Python modules
    [01_bfs_undirected.py] .. [05_topological_sort.py] together with the
    properties of the traversal engine, of the graph construction in their
    [__main__] blocks, and of the exercises [4.py], [6.py] and [10.py] of
    code/algs_train.

    Conventions of the embedding.
    - Python [int] is [Z]; a Python [list] is a Rocq [list]; list indexing
      follows Python: an index [i] with [0 <= i < len] selects position [i],
      an index with [-len <= i < 0] selects position [len + i], anything else
      raises [IndexError].
    - A call returns [Ok r], [IndexError] (the only exception these modules
      can raise on integer inputs), or [OutOfFuel].  [while] loops and
      recursive calls consume one unit of fuel per iteration / call frame;
      [for] loops over a list are structural.  The interpreter's recursion
      limit is not modelled.
    - Mutable locals ([visited], [order], [queue], [color], [in_degree],
      ...) are threaded explicitly through the loops. *)

From Stdlib Require Import ZArith Lia List Permutation Sorted Ascii.
From stdpp Require Import base list numbers relations.

Local Open Scope Z_scope.

(** ** Results of a call *)

Inductive res (A : Type) : Type :=
| Ok (a : A)
| IndexError
| OutOfFuel.
Arguments Ok {A} a.
Arguments IndexError {A}.
Arguments OutOfFuel {A}.

Definition bind {A B} (m : res A) (k : A → res B) : res B :=
  match m with
  | Ok a => k a
  | IndexError => IndexError
  | OutOfFuel => OutOfFuel
  end.

Notation "'let*' x := m 'in' k" := (bind m (λ x, k))
  (at level 10, x name, m at level 100, k at level 200, only parsing).
Notation "'let*' ' p := m 'in' k" := (bind m (λ x, match x with p => k end))
  (at level 10, p pattern, m at level 100, k at level 200, only parsing).

(** ** Python list indexing *)

(** The position selected by index [i] in a list of length [len]. *)
Definition py_index (len : nat) (i : Z) : option nat :=
  if bool_decide (0 ≤ i < Z.of_nat len) then Some (Z.to_nat i)
  else if bool_decide (- Z.of_nat len ≤ i < 0) then Some (Z.to_nat (Z.of_nat len + i))
  else None.

(** [l[i]] *)
Definition py_get {A} (l : list A) (i : Z) : res A :=
  match py_index (length l) i with
  | Some k => match l !! k with Some x => Ok x | None => IndexError end
  | None => IndexError
  end.

(** [l[i] = x] *)
Definition py_set {A} (l : list A) (i : Z) (x : A) : res (list A) :=
  match py_index (length l) i with
  | Some k => Ok (<[k := x]> l)
  | None => IndexError
  end.

(** [range(n)] *)
Definition py_range (n : Z) : list Z := Z.of_nat <$> seq 0 (Z.to_nat n).

(** [[x] * n] *)
Definition py_repeat {A} (x : A) (n : Z) : list A := replicate (Z.to_nat n) x.

(** [len(l)] *)
Definition py_len {A} (l : list A) : Z := Z.of_nat (length l).

Abbreviation graph := (list (list Z)).

(** ** 01_bfs_undirected.py *)

Record bfs_state := BfsState {
  bfs_order : list Z;
  bfs_visited : list bool;
  bfs_queue : list Z
}.

Module BfsUndirected.

(** [for u in graph[v]: if not visited[u]: visited[u] = True; queue.append(u)] *)
Fixpoint scan (us : list Z) (visited : list bool) (queue : list Z)
  : res (list bool * list Z) :=
  match us with
  | [] => Ok (visited, queue)
  | u :: us' =>
      let* b := py_get visited u in
      if negb b then
        let* visited' := py_set visited u true in
        scan us' visited' (queue ++ [u])
      else scan us' visited queue
  end.

(** One iteration of [while queue:] (the queue is not empty). *)
Definition step (g : graph) (st : bfs_state) : res bfs_state :=
  match bfs_queue st with
  | [] => Ok st
  | v :: queue =>
      let order := bfs_order st ++ [v] in
      let* us := py_get g v in
      let* '(visited, queue') := scan us (bfs_visited st) queue in
      Ok (BfsState order visited queue')
  end.

(** [while queue: ...] *)
Fixpoint while (fuel : nat) (g : graph) (st : bfs_state) : res bfs_state :=
  match bfs_queue st with
  | [] => Ok st
  | _ :: _ =>
      match fuel with
      | O => OutOfFuel
      | S fuel' => let* st' := step g st in while fuel' g st'
      end
  end.

Definition bfs_undirected (fuel : nat) (g : graph) (start n : Z) : res (list Z) :=
  let order := [] in
  let visited := py_repeat false n in
  let queue := [start] in
  let* visited := py_set visited start true in
  let* st := while fuel g (BfsState order visited queue) in
  Ok (bfs_order st).

(** Body of [for start in range(n)] *)
Definition component (fuel : nat) (g : graph) (start : Z)
    (order : list Z) (visited : list bool) : res (list Z * list bool) :=
  let* b := py_get visited start in
  if b then Ok (order, visited)
  else
    let queue := [start] in
    let* visited := py_set visited start true in
    let* st := while fuel g (BfsState order visited queue) in
    Ok (bfs_order st, bfs_visited st).

Fixpoint components (fuel : nat) (g : graph) (starts : list Z)
    (order : list Z) (visited : list bool) : res (list Z * list bool) :=
  match starts with
  | [] => Ok (order, visited)
  | start :: starts' =>
      let* '(order', visited') := component fuel g start order visited in
      components fuel g starts' order' visited'
  end.

Definition bfs_undirected_all_components (fuel : nat) (g : graph) (n : Z)
  : res (list Z) :=
  let order := [] in
  let visited := py_repeat false n in
  let* '(order, _) := components fuel g (py_range n) order visited in
  Ok order.

End BfsUndirected.

(** ** 02_dfs_undirected.py *)

(** The Python list [stack] is kept with its top (the last element of the
    Python list) at the head: [stack.pop()] removes the head and
    [stack.append(u)] conses [u]. *)
Record dfs_state := DfsState {
  dfs_order : list Z;
  dfs_visited : list bool;
  dfs_stack : list Z
}.

Module DfsUndirected.

(** [for u in graph[start]: if not visited[u]: rec(graph, u, visited, order)] *)
Fixpoint visit_each (rec : Z → list bool → list Z → res (list bool * list Z))
    (us : list Z) (visited : list bool) (order : list Z)
  : res (list bool * list Z) :=
  match us with
  | [] => Ok (visited, order)
  | u :: us' =>
      let* b := py_get visited u in
      if negb b then
        let* '(visited', order') := rec u visited order in
        visit_each rec us' visited' order'
      else visit_each rec us' visited order
  end.

(** The arguments [visited] and [order] are mutated in place; the call
    returns their final contents. *)
Fixpoint dfs_undirected_recursive (fuel : nat) (g : graph) (start : Z)
    (visited : list bool) (order : list Z) : res (list bool * list Z) :=
  match fuel with
  | O => OutOfFuel
  | S fuel' =>
      let* visited := py_set visited start true in
      let order := order ++ [start] in
      let* us := py_get g start in
      visit_each (dfs_undirected_recursive fuel' g) us visited order
  end.

(** [for u in reversed(graph[v]): if not visited[u]: stack.append(u)],
    called on the reversed list. *)
Fixpoint push_unvisited (us : list Z) (visited : list bool) (stack : list Z)
  : res (list Z) :=
  match us with
  | [] => Ok stack
  | u :: us' =>
      let* b := py_get visited u in
      if negb b then push_unvisited us' visited (u :: stack)
      else push_unvisited us' visited stack
  end.

(** One iteration of [while stack:] (the stack is not empty). *)
Definition step (g : graph) (st : dfs_state) : res dfs_state :=
  match dfs_stack st with
  | [] => Ok st
  | v :: stack =>
      let* b := py_get (dfs_visited st) v in
      if b then Ok (DfsState (dfs_order st) (dfs_visited st) stack)
      else
        let* visited := py_set (dfs_visited st) v true in
        let order := dfs_order st ++ [v] in
        let* us := py_get g v in
        let* stack' := push_unvisited (reverse us) visited stack in
        Ok (DfsState order visited stack')
  end.

Fixpoint while (fuel : nat) (g : graph) (st : dfs_state) : res dfs_state :=
  match dfs_stack st with
  | [] => Ok st
  | _ :: _ =>
      match fuel with
      | O => OutOfFuel
      | S fuel' => let* st' := step g st in while fuel' g st'
      end
  end.

Definition dfs_undirected_iterative (fuel : nat) (g : graph) (start n : Z)
  : res (list Z) :=
  let order := [] in
  let visited := py_repeat false n in
  let stack := [start] in
  let* st := while fuel g (DfsState order visited stack) in
  Ok (dfs_order st).

(** The local closure [dfs] of [dfs_undirected_all_components]; the
    captured [visited] and [order] are threaded through. *)
Fixpoint dfs (fuel : nat) (g : graph) (v : Z)
    (visited : list bool) (order : list Z) : res (list bool * list Z) :=
  match fuel with
  | O => OutOfFuel
  | S fuel' =>
      let* visited := py_set visited v true in
      let order := order ++ [v] in
      let* us := py_get g v in
      visit_each (dfs fuel' g) us visited order
  end.

(** [for start in range(n): if not visited[start]: dfs(start)] *)
Definition dfs_undirected_all_components (fuel : nat) (g : graph) (n : Z)
  : res (list Z) :=
  let order := [] in
  let visited := py_repeat false n in
  let* '(_, order) := visit_each (dfs fuel g) (py_range n) visited order in
  Ok order.

End DfsUndirected.

(** ** 03_bfs_directed.py *)

Module BfsDirected.

(** [for u in graph[v]: if not visited[u]: visited[u] = True; queue.append(u)] *)
Fixpoint scan (us : list Z) (visited : list bool) (queue : list Z)
  : res (list bool * list Z) :=
  match us with
  | [] => Ok (visited, queue)
  | u :: us' =>
      let* b := py_get visited u in
      if negb b then
        let* visited' := py_set visited u true in
        scan us' visited' (queue ++ [u])
      else scan us' visited queue
  end.

(** One iteration of [while queue:] (the queue is not empty). *)
Definition step (g : graph) (st : bfs_state) : res bfs_state :=
  match bfs_queue st with
  | [] => Ok st
  | v :: queue =>
      let order := bfs_order st ++ [v] in
      let* us := py_get g v in
      let* '(visited, queue') := scan us (bfs_visited st) queue in
      Ok (BfsState order visited queue')
  end.

(** [while queue: ...] *)
Fixpoint while (fuel : nat) (g : graph) (st : bfs_state) : res bfs_state :=
  match bfs_queue st with
  | [] => Ok st
  | _ :: _ =>
      match fuel with
      | O => OutOfFuel
      | S fuel' => let* st' := step g st in while fuel' g st'
      end
  end.

Definition bfs_directed (fuel : nat) (g : graph) (start n : Z) : res (list Z) :=
  let order := [] in
  let visited := py_repeat false n in
  let queue := [start] in
  let* visited := py_set visited start true in
  let* st := while fuel g (BfsState order visited queue) in
  Ok (bfs_order st).

(** Body of [for start in range(n)] *)
Definition component (fuel : nat) (g : graph) (start : Z)
    (order : list Z) (visited : list bool) : res (list Z * list bool) :=
  let* b := py_get visited start in
  if b then Ok (order, visited)
  else
    let queue := [start] in
    let* visited := py_set visited start true in
    let* st := while fuel g (BfsState order visited queue) in
    Ok (bfs_order st, bfs_visited st).

Fixpoint components (fuel : nat) (g : graph) (starts : list Z)
    (order : list Z) (visited : list bool) : res (list Z * list bool) :=
  match starts with
  | [] => Ok (order, visited)
  | start :: starts' =>
      let* '(order', visited') := component fuel g start order visited in
      components fuel g starts' order' visited'
  end.

Definition bfs_directed_all_reachable (fuel : nat) (g : graph) (n : Z)
  : res (list Z) :=
  let order := [] in
  let visited := py_repeat false n in
  let* '(order, _) := components fuel g (py_range n) order visited in
  Ok order.

End BfsDirected.

(** ** 04_dfs_directed.py *)

Module DfsDirected.

(** [for u in graph[start]: if not visited[u]: rec(graph, u, visited, order)] *)
Fixpoint visit_each (rec : Z → list bool → list Z → res (list bool * list Z))
    (us : list Z) (visited : list bool) (order : list Z)
  : res (list bool * list Z) :=
  match us with
  | [] => Ok (visited, order)
  | u :: us' =>
      let* b := py_get visited u in
      if negb b then
        let* '(visited', order') := rec u visited order in
        visit_each rec us' visited' order'
      else visit_each rec us' visited order
  end.

(** The arguments [visited] and [order] are mutated in place; the call
    returns their final contents. *)
Fixpoint dfs_directed_recursive (fuel : nat) (g : graph) (start : Z)
    (visited : list bool) (order : list Z) : res (list bool * list Z) :=
  match fuel with
  | O => OutOfFuel
  | S fuel' =>
      let* visited := py_set visited start true in
      let order := order ++ [start] in
      let* us := py_get g start in
      visit_each (dfs_directed_recursive fuel' g) us visited order
  end.

(** [for u in reversed(graph[v]): if not visited[u]: stack.append(u)],
    called on the reversed list. *)
Fixpoint push_unvisited (us : list Z) (visited : list bool) (stack : list Z)
  : res (list Z) :=
  match us with
  | [] => Ok stack
  | u :: us' =>
      let* b := py_get visited u in
      if negb b then push_unvisited us' visited (u :: stack)
      else push_unvisited us' visited stack
  end.

(** One iteration of [while stack:] (the stack is not empty). *)
Definition step (g : graph) (st : dfs_state) : res dfs_state :=
  match dfs_stack st with
  | [] => Ok st
  | v :: stack =>
      let* b := py_get (dfs_visited st) v in
      if b then Ok (DfsState (dfs_order st) (dfs_visited st) stack)
      else
        let* visited := py_set (dfs_visited st) v true in
        let order := dfs_order st ++ [v] in
        let* us := py_get g v in
        let* stack' := push_unvisited (reverse us) visited stack in
        Ok (DfsState order visited stack')
  end.

Fixpoint while (fuel : nat) (g : graph) (st : dfs_state) : res dfs_state :=
  match dfs_stack st with
  | [] => Ok st
  | _ :: _ =>
      match fuel with
      | O => OutOfFuel
      | S fuel' => let* st' := step g st in while fuel' g st'
      end
  end.

Definition dfs_directed_iterative (fuel : nat) (g : graph) (start n : Z)
  : res (list Z) :=
  let order := [] in
  let visited := py_repeat false n in
  let stack := [start] in
  let* st := while fuel g (DfsState order visited stack) in
  Ok (dfs_order st).

(** The local closure [dfs] of [dfs_directed_all_components]; the
    captured [visited] and [order] are threaded through. *)
Fixpoint dfs (fuel : nat) (g : graph) (v : Z)
    (visited : list bool) (order : list Z) : res (list bool * list Z) :=
  match fuel with
  | O => OutOfFuel
  | S fuel' =>
      let* visited := py_set visited v true in
      let order := order ++ [v] in
      let* us := py_get g v in
      visit_each (dfs fuel' g) us visited order
  end.

(** [for start in range(n): if not visited[start]: dfs(start)] *)
Definition dfs_directed_all_components (fuel : nat) (g : graph) (n : Z)
  : res (list Z) :=
  let order := [] in
  let visited := py_repeat false n in
  let* '(_, order) := visit_each (dfs fuel g) (py_range n) visited order in
  Ok order.

End DfsDirected.

(** ** 05_topological_sort.py *)

(** [WHITE, GRAY, BLACK = 0, 1, 2] *)
Inductive Color := WHITE | GRAY | BLACK.

Global Instance Color_eq_dec : EqDecision Color.
Proof. solve_decision. Defined.

Module TopologicalSort.

(** The loop of the local closure [dfs]:
    [for u in graph[v]:
       if color[u] == GRAY: return False
       if color[u] == WHITE and not dfs(u): return False].
    The boolean is [false] when the loop was left by [return False]. *)
Fixpoint dfs_each (rec : Z → list Color → list Z → res (bool * (list Color * list Z)))
    (us : list Z) (color : list Color) (result : list Z)
  : res (bool * (list Color * list Z)) :=
  match us with
  | [] => Ok (true, (color, result))
  | u :: us' =>
      let* c := py_get color u in
      if bool_decide (c = GRAY) then Ok (false, (color, result))
      else
        let* c' := py_get color u in
        if bool_decide (c' = WHITE) then
          let* '(ok, (color', result')) := rec u color result in
          if negb ok then Ok (false, (color', result'))
          else dfs_each rec us' color' result'
        else dfs_each rec us' color result
  end.

(** The local closure [dfs]; the captured [color] and [result] are
    threaded through. *)
Fixpoint dfs (fuel : nat) (g : graph) (v : Z)
    (color : list Color) (result : list Z)
  : res (bool * (list Color * list Z)) :=
  match fuel with
  | O => OutOfFuel
  | S fuel' =>
      let* color := py_set color v GRAY in
      let* us := py_get g v in
      let* '(ok, (color, result)) := dfs_each (dfs fuel' g) us color result in
      if negb ok then Ok (false, (color, result))
      else
        let* color := py_set color v BLACK in
        Ok (true, (color, result ++ [v]))
  end.

(** [for start in range(n):
       if color[start] == WHITE and not dfs(start): return None] *)
Fixpoint starts_each (fuel : nat) (g : graph) (starts : list Z)
    (color : list Color) (result : list Z)
  : res (bool * (list Color * list Z)) :=
  match starts with
  | [] => Ok (true, (color, result))
  | start :: starts' =>
      let* c := py_get color start in
      if bool_decide (c = WHITE) then
        let* '(ok, (color', result')) := dfs fuel g start color result in
        if negb ok then Ok (false, (color', result'))
        else starts_each fuel g starts' color' result'
      else starts_each fuel g starts' color result
  end.

Definition topological_sort_dfs (fuel : nat) (g : graph) (n : Z)
  : res (option (list Z)) :=
  let color := py_repeat WHITE n in
  let result := [] in
  let* '(ok, (_, result)) := starts_each fuel g (py_range n) color result in
  if negb ok then Ok None
  else Ok (Some (reverse result)).

(** [for u in graph[v]: in_degree[u] += 1] *)
Fixpoint count_each (us : list Z) (in_degree : list Z) : res (list Z) :=
  match us with
  | [] => Ok in_degree
  | u :: us' =>
      let* d := py_get in_degree u in
      let* in_degree' := py_set in_degree u (d + 1) in
      count_each us' in_degree'
  end.

(** [for v in range(n): for u in graph[v]: in_degree[u] += 1] *)
Fixpoint count_all (g : graph) (vs : list Z) (in_degree : list Z)
  : res (list Z) :=
  match vs with
  | [] => Ok in_degree
  | v :: vs' =>
      let* us := py_get g v in
      let* in_degree' := count_each us in_degree in
      count_all g vs' in_degree'
  end.

(** [[v for v in range(n) if in_degree[v] == 0]] *)
Fixpoint sources (vs : list Z) (in_degree : list Z) : res (list Z) :=
  match vs with
  | [] => Ok []
  | v :: vs' =>
      let* d := py_get in_degree v in
      let* rest := sources vs' in_degree in
      if bool_decide (d = 0) then Ok (v :: rest) else Ok rest
  end.

Record kahn_state := KahnState {
  kahn_in_degree : list Z;
  kahn_queue : list Z;
  kahn_result : list Z;
  kahn_idx : Z
}.

(** [for u in graph[v]:
       in_degree[u] -= 1
       if in_degree[u] == 0: queue.append(u)] *)
Fixpoint release_each (us : list Z) (in_degree : list Z) (queue : list Z)
  : res (list Z * list Z) :=
  match us with
  | [] => Ok (in_degree, queue)
  | u :: us' =>
      let* d := py_get in_degree u in
      let* in_degree' := py_set in_degree u (d - 1) in
      let* d' := py_get in_degree' u in
      if bool_decide (d' = 0) then release_each us' in_degree' (queue ++ [u])
      else release_each us' in_degree' queue
  end.

(** One iteration of [while idx < len(queue):]. *)
Definition step (g : graph) (st : kahn_state) : res kahn_state :=
  let* v := py_get (kahn_queue st) (kahn_idx st) in
  let idx := kahn_idx st + 1 in
  let result := kahn_result st ++ [v] in
  let* us := py_get g v in
  let* '(in_degree, queue) :=
    release_each us (kahn_in_degree st) (kahn_queue st) in
  Ok (KahnState in_degree queue result idx).

Fixpoint while (fuel : nat) (g : graph) (st : kahn_state) : res kahn_state :=
  if bool_decide (kahn_idx st < py_len (kahn_queue st)) then
    match fuel with
    | O => OutOfFuel
    | S fuel' => let* st' := step g st in while fuel' g st'
    end
  else Ok st.

Definition topological_sort_kahn (fuel : nat) (g : graph) (n : Z)
  : res (option (list Z)) :=
  let in_degree := py_repeat 0 n in
  let* in_degree := count_all g (py_range n) in_degree in
  let* queue := sources (py_range n) in_degree in
  let result := [] in
  let idx := 0 in
  let* st := while fuel g (KahnState in_degree queue result idx) in
  if bool_decide (py_len (kahn_result st) = n) then Ok (Some (kahn_result st))
  else Ok None.

End TopologicalSort.

(** ** Graphs, paths and orders *)

(** [v] is a vertex of a graph with [n] vertices. *)
Definition vertex (n v : Z) : Prop := 0 ≤ v < n.

(** The adjacency list [graph[v]] of a vertex. *)
Definition adj (g : graph) (v : Z) : list Z := default [] (g !! Z.to_nat v).

(** The documented preconditions on the caller-supplied graph: [n] is a
    vertex count, there is an adjacency list for every vertex, and every
    neighbour index is in [[0, n)]. *)
Definition wf_graph (g : graph) (n : Z) : Prop :=
  0 ≤ n ∧ n ≤ py_len g ∧ Forall (Forall (vertex n)) g.

Global Instance vertex_dec (n v : Z) : Decision (vertex n v).
Proof. unfold vertex. apply _. Defined.

Global Instance wf_graph_dec (g : graph) (n : Z) : Decision (wf_graph g n).
Proof. unfold wf_graph. apply _. Defined.

(** [(a, b)] is an edge: [b] occurs in the adjacency list of vertex [a]. *)
Definition edge (g : graph) (n : Z) (a b : Z) : Prop :=
  vertex n a ∧ b ∈ adj g a.

Definition reachable (g : graph) (n : Z) : Z → Z → Prop := rtc (edge g n).

Definition has_cycle (g : graph) (n : Z) : Prop := ∃ v, tc (edge g n) v v.

(** [a] appears before [b] in [l]. *)
Definition before (l : list Z) (a b : Z) : Prop :=
  ∃ i j : nat, l !! i = Some a ∧ l !! j = Some b ∧ (i < j)%nat.

(** [l] lists every vertex once and every edge points forward in it. *)
Definition topological_order (g : graph) (n : Z) (l : list Z) : Prop :=
  l ≡ₚ py_range n ∧ ∀ a b, edge g n a b → before l a b.

(** [k] is the length of a shortest path from [s] to [v]. *)
Definition distance (g : graph) (n : Z) (s v : Z) (k : nat) : Prop :=
  nsteps (edge g n) k s v ∧ ∀ k', nsteps (edge g n) k' s v → (k ≤ k')%nat.

(** [visited[v]] is [True], for a vertex [v]. *)
Definition marked (visited : list bool) (v : Z) : Prop :=
  visited !! Z.to_nat v = Some true.

(** Total weight of the positions of [l] that satisfy [P]; position [i]
    weighs [w !! i]. *)
Fixpoint mass {A} (P : A → bool) (w : list nat) (l : list A) : nat :=
  match w, l with
  | x :: w', a :: l' => ((if P a then x else 0) + mass P w' l')%nat
  | _, _ => 0%nat
  end.

(** Number of [False] entries of [visited]. *)
Definition unvisited (visited : list bool) : nat :=
  mass negb (replicate (length visited) 1%nat) visited.

(** ** Loop invariants *)

(** Invariant of [while queue:] in the breadth-first traversals: the
    visited vertices are exactly those of [order ++ queue], each once. *)
Definition bfs_inv (n : Z) (st : bfs_state) : Prop :=
  length (bfs_visited st) = Z.to_nat n ∧
  Forall (vertex n) (bfs_order st ++ bfs_queue st) ∧
  NoDup (bfs_order st ++ bfs_queue st) ∧
  ∀ w, vertex n w → (marked (bfs_visited st) w ↔ w ∈ bfs_order st ++ bfs_queue st).

(** One iteration of the breadth-first [while] loop, as a relation. *)
Definition bfs_iter (g : graph) (st st' : bfs_state) : Prop :=
  bfs_queue st ≠ [] ∧ BfsUndirected.step g st = Ok st'.

(** The states of the [while] loop of [bfs_undirected(g, start, n)]. *)
Definition bfs_states (g : graph) (start n : Z) (st : bfs_state) : Prop :=
  ∃ visited,
    py_set (py_repeat false n) start true = Ok visited ∧
    rtc (bfs_iter g) (BfsState [] visited [start]) st.

(** [u] is discovered from [v]: the iteration that dequeues [v] marks [u]. *)
Definition discovered_from (g : graph) (start n : Z) (u v : Z) : Prop :=
  ∃ st st',
    bfs_states g start n st ∧ head (bfs_queue st) = Some v ∧
    BfsUndirected.step g st = Ok st' ∧
    py_get (bfs_visited st) u = Ok false ∧
    py_get (bfs_visited st') u = Ok true.

(** What has been dequeued or enqueued so far is reachable from [start], and
    the neighbours of every dequeued vertex have been enqueued. *)
Definition bfs_closed (g : graph) (n start : Z) (st : bfs_state) : Prop :=
  start ∈ bfs_order st ++ bfs_queue st ∧
  (∀ w, w ∈ bfs_order st ++ bfs_queue st → reachable g n start w) ∧
  (∀ a b, a ∈ bfs_order st → edge g n a b → b ∈ bfs_order st ++ bfs_queue st).

(** Layering invariant of the breadth-first loop for a level assignment
    [d]: levels are path lengths, they never decrease along
    [order ++ queue], exceed the level of a queued vertex by at most one,
    and grow by at most one along the edges of a dequeued vertex. *)
Definition bfs_layered (g : graph) (n start : Z) (d : Z → nat) (st : bfs_state) : Prop :=
  d start = 0%nat ∧
  start ∈ bfs_order st ++ bfs_queue st ∧
  (∀ w, w ∈ bfs_order st ++ bfs_queue st → nsteps (edge g n) (d w) start w) ∧
  (∀ a b, a ∈ bfs_order st → edge g n a b →
     b ∈ bfs_order st ++ bfs_queue st ∧ (d b ≤ d a + 1)%nat) ∧
  (∀ (i j : nat) x y,
     (bfs_order st ++ bfs_queue st) !! i = Some x →
     (bfs_order st ++ bfs_queue st) !! j = Some y →
     (i ≤ j)%nat → (d x ≤ d y)%nat) ∧
  (∀ x y, x ∈ bfs_queue st → y ∈ bfs_order st ++ bfs_queue st →
     (d y ≤ d x + 1)%nat).

(** Effect of a recursive depth-first call (or of a loop of such calls)
    started on [roots] with flags [visited]: it appends the vertices [new]
    and leaves the flags [visited']. *)
Definition dfs_post (g : graph) (n : Z) (visited : list bool) (roots new : list Z)
    (visited' : list bool) : Prop :=
  length visited' = Z.to_nat n ∧
  NoDup new ∧
  (∀ w, w ∈ new →
     vertex n w ∧ ¬ marked visited w ∧ ∃ u, u ∈ roots ∧ reachable g n u w) ∧
  (∀ w, vertex n w → (marked visited' w ↔ marked visited w ∨ w ∈ new)) ∧
  (∀ a b, a ∈ new → edge g n a b → marked visited' b) ∧
  (unvisited visited' ≤ unvisited visited)%nat.

(** Invariant of [while stack:] in the iterative depth-first traversals. *)
Definition dfs_inv (g : graph) (n start : Z) (st : dfs_state) : Prop :=
  length (dfs_visited st) = Z.to_nat n ∧
  Forall (vertex n) (dfs_order st) ∧
  Forall (vertex n) (dfs_stack st) ∧
  NoDup (dfs_order st) ∧
  (∀ w, vertex n w → (marked (dfs_visited st) w ↔ w ∈ dfs_order st)) ∧
  (start ∈ dfs_order st ∨ start ∈ dfs_stack st) ∧
  (∀ w, w ∈ dfs_order st ∨ w ∈ dfs_stack st → reachable g n start w) ∧
  (∀ a b, a ∈ dfs_order st → edge g n a b → b ∈ dfs_order st ∨ b ∈ dfs_stack st).

(** What is left to do in the iterative traversal: the stack entries, plus
    the pushes that the unvisited vertices may still cause. *)
Definition dfs_work (g : graph) (st : dfs_state) : nat :=
  (length (dfs_stack st) + mass negb (length <$> g) (dfs_visited st))%nat.

(** [color[v]] is [c], for a vertex [v]. *)
Definition colored (color : list Color) (c : Color) (v : Z) : Prop :=
  color !! Z.to_nat v = Some c.

(** Number of [WHITE] entries of [color]. *)
Definition whites (color : list Color) : nat :=
  mass (λ c, bool_decide (c = WHITE)) (replicate (length color) 1%nat) color.

(** Invariant of the three-colour search: [result] lists the [BLACK]
    vertices, each once, and every edge leaving a listed vertex leads to a
    vertex listed earlier. *)
Definition topo_inv (g : graph) (n : Z) (color : list Color) (result : list Z) : Prop :=
  length color = Z.to_nat n ∧
  NoDup result ∧
  Forall (vertex n) result ∧
  (∀ w, vertex n w → (colored color BLACK w ↔ w ∈ result)) ∧
  (∀ a b, a ∈ result → edge g n a b → before result b a).

(** Outcome of a three-colour search over [roots] started in
    [(color, result)]: a failure exhibits a cycle; a success blackens the
    roots and keeps the [GRAY] vertices. *)
Definition topo_dfs_post (g : graph) (n : Z) (color : list Color) (result : list Z)
    (roots : list Z) (ok : bool) (color' : list Color) (result' : list Z) : Prop :=
  if ok then
    topo_inv g n color' result' ∧
    (∀ w, vertex n w → (colored color' GRAY w ↔ colored color GRAY w)) ∧
    (whites color' ≤ whites color)%nat ∧
    result ⊆ result' ∧
    (∀ u, u ∈ roots → colored color' BLACK u)
  else has_cycle g n.

(** Number of occurrences of [u] in an adjacency list. *)
Fixpoint occurrences (u : Z) (us : list Z) : Z :=
  match us with
  | [] => 0
  | x :: us' => (if bool_decide (x = u) then 1 else 0) + occurrences u us'
  end.

(** Number of edges into [u] that leave a vertex of [ws]. *)
Fixpoint inflow (g : graph) (ws : list Z) (u : Z) : Z :=
  match ws with
  | [] => 0
  | w :: ws' => occurrences u (adj g w) + inflow g ws' u
  end.

(** [in_degree[u]], for a vertex [u]. *)
Definition deg (in_degree : list Z) (u : Z) : Z :=
  default 0 (in_degree !! Z.to_nat u).

(** What the loop [for u in us] of Kahn's algorithm maintains while the
    edges of the vertices [processed] are being consumed: the counters hold
    the in-degree minus the consumed edges, the queue holds the vertices
    whose counter is zero, each behind all its predecessors. *)
Definition kahn_scan_inv (g : graph) (n : Z) (processed us : list Z)
    (in_degree queue : list Z) : Prop :=
  length in_degree = Z.to_nat n ∧
  NoDup queue ∧ Forall (vertex n) queue ∧
  NoDup processed ∧ processed ⊆ queue ∧
  (∀ u, vertex n u →
     deg in_degree u + inflow g processed u
     = inflow g (py_range n) u + occurrences u us) ∧
  (∀ u, vertex n u → (u ∈ queue ↔ deg in_degree u = 0)) ∧
  (∀ a b, b ∈ queue → edge g n a b → before queue a b).

(** Invariant of [while idx < len(queue):]. *)
Definition kahn_inv (g : graph) (n : Z) (st : TopologicalSort.kahn_state) : Prop :=
  0 ≤ TopologicalSort.kahn_idx st ≤ py_len (TopologicalSort.kahn_queue st) ∧
  TopologicalSort.kahn_result st
    = take (Z.to_nat (TopologicalSort.kahn_idx st)) (TopologicalSort.kahn_queue st) ∧
  kahn_scan_inv g n (TopologicalSort.kahn_result st) []
    (TopologicalSort.kahn_in_degree st) (TopologicalSort.kahn_queue st).

(** The flags [visited'] keep every [True] of [visited]. *)
Definition flags_le (visited visited' : list bool) : Prop :=
  length visited' = length visited ∧
  ∀ i : nat, visited !! i = Some true → visited' !! i = Some true.

(** [order] lists exactly the vertices reachable from [start], each once. *)
Definition visits_reachable (g : graph) (n start : Z) (order : list Z) : Prop :=
  NoDup order ∧ ∀ v, v ∈ order ↔ reachable g n start v.

(** Fuel that suffices for every traversal of a graph with [n] vertices. *)
Definition traversal_fuel (g : graph) (n : Z) : nat :=
  S (Z.to_nat n + sum_list (length <$> g)).

Global Instance marked_dec (visited : list bool) (v : Z) : Decision (marked visited v).
Proof. unfold marked. apply _. Defined.

(** [l] contains the targets of the edges that leave its members. *)
Definition edge_closed (g : graph) (n : Z) (l : list Z) : Prop :=
  ∀ a b, a ∈ l → edge g n a b → b ∈ l.

(** [b] is the group of vertices that a whole-graph traversal appends after
    [seen]: it starts with the least vertex [s] outside [seen] and lists,
    each once, the vertices outside [seen] that are reachable from [s]. *)
Definition is_block (g : graph) (n : Z) (seen b : list Z) : Prop :=
  ∃ s rest,
    b = s :: rest ∧ vertex n s ∧
    (∀ v, vertex n v → v ∉ seen → s ≤ v) ∧
    NoDup b ∧
    ∀ v, v ∈ b ↔ reachable g n s v ∧ v ∉ seen.

(** [blocks] are the successive groups appended after [seen]. *)
Fixpoint grouped (g : graph) (n : Z) (seen : list Z) (blocks : list (list Z)) : Prop :=
  match blocks with
  | [] => True
  | b :: blocks' => is_block g n seen b ∧ grouped g n (seen ++ b) blocks'
  end.

(** Invariant of the loop [for start in range(n)] of the whole-graph
    traversals, before the iteration of [start = k]. *)
Definition blocks_inv (g : graph) (n k : Z) (order : list Z) : Prop :=
  edge_closed g n order ∧
  (∀ v, vertex n v → v < k → v ∈ order) ∧
  ∃ blocks, order = concat blocks ∧ grouped g n [] blocks.

(** Invariant of the inner breadth-first loop started at [k] after
    [order0]. *)
Definition bfs_block_inv (g : graph) (n : Z) (order0 : list Z) (k : Z)
    (st : bfs_state) : Prop :=
  (order0 ++ [k]) `prefix_of` (bfs_order st ++ bfs_queue st) ∧
  (∀ w, w ∈ bfs_order st ++ bfs_queue st → w ∈ order0 ∨ reachable g n k w) ∧
  (∀ a b, a ∈ bfs_order st → edge g n a b → b ∈ bfs_order st ++ bfs_queue st).

(** Every edge has its reverse, as in a graph built from undirected
    edges. *)
Definition symmetric (g : graph) (n : Z) : Prop :=
  ∀ a b, edge g n a b → edge g n b a.

(** [b] is a connected component, listed once, starting with [s]. *)
Definition is_component (g : graph) (n : Z) (b : list Z) : Prop :=
  ∃ s, head b = Some s ∧ visits_reachable g n s b.

(** ** Graph construction in the [__main__] blocks

    [graph = [[] for _ in range(n)]] followed by the loop over [edges]; the
    literals [n] and [edges] of the blocks are parameters here. *)

Module Main.

(** [graph[a].append(b)] *)
Definition append_neighbor (g : graph) (a b : Z) : res graph :=
  let* us := py_get g a in
  py_set g a (us ++ [b]).

(** [for a, b in edges: graph[a].append(b); graph[b].append(a)] *)
Fixpoint add_undirected (edges : list (Z * Z)) (g : graph) : res graph :=
  match edges with
  | [] => Ok g
  | (a, b) :: edges' =>
      let* g := append_neighbor g a b in
      let* g := append_neighbor g b a in
      add_undirected edges' g
  end.

(** [for a, b in edges: graph[a].append(b)] *)
Fixpoint add_directed (edges : list (Z * Z)) (g : graph) : res graph :=
  match edges with
  | [] => Ok g
  | (a, b) :: edges' =>
      let* g := append_neighbor g a b in
      add_directed edges' g
  end.

(** The graph of [01_bfs_undirected.py] and [02_dfs_undirected.py]. *)
Definition undirected_graph (n : Z) (edges : list (Z * Z)) : res graph :=
  add_undirected edges (py_repeat [] n).

(** The graph of [03_bfs_directed.py], [04_dfs_directed.py] and
    [05_topological_sort.py]. *)
Definition directed_graph (n : Z) (edges : list (Z * Z)) : res graph :=
  add_directed edges (py_repeat [] n).

End Main.

(** The targets of the edges of [edges] that leave [v], in list order. *)
Fixpoint out_neighbors (edges : list (Z * Z)) (v : Z) : list Z :=
  match edges with
  | [] => []
  | (a, b) :: edges' =>
      (if bool_decide (a = v) then [b] else []) ++ out_neighbors edges' v
  end.

(** The other ends of the edges of [edges] at [v], in list order. *)
Fixpoint all_neighbors (edges : list (Z * Z)) (v : Z) : list Z :=
  match edges with
  | [] => []
  | (a, b) :: edges' =>
      (if bool_decide (a = v) then [b] else []) ++
      (if bool_decide (b = v) then [a] else []) ++ all_neighbors edges' v
  end.

(** Both ends of every edge are vertices. *)
Definition edges_in_range (n : Z) (edges : list (Z * Z)) : Prop :=
  Forall (λ e, vertex n e.1 ∧ vertex n e.2) edges.

Global Instance edges_in_range_dec (n : Z) (edges : list (Z * Z)) :
  Decision (edges_in_range n edges).
Proof. unfold edges_in_range. apply _. Defined.

(** [i] is accepted as an index of a list of length [n]. *)
Definition in_range (n i : Z) : Prop := - n ≤ i < n.

Global Instance symmetric_dec (g : graph) (n : Z) : Decision (symmetric g n).
Proof.
  refine (cast_if (decide (Forall (λ a, Forall (λ b, vertex n b ∧ a ∈ adj g b) (adj g a))
                                  (py_range n)))).
  - intros a b [Ha Hb]. rewrite Forall_forall in f.
    assert (a ∈ py_range n) as Hin.
    { unfold py_range, vertex in *. apply list_elem_of_fmap.
      exists (Z.to_nat a). split; [lia|]. apply elem_of_seq. lia. }
    specialize (f a Hin). rewrite Forall_forall in f. exact (f b Hb).
  - intros Hsym. apply n0. apply Forall_forall. intros a Ha.
    apply Forall_forall. intros b Hb.
    assert (vertex n a) as Hva.
    { unfold py_range, vertex in *. apply list_elem_of_fmap in Ha as (k & -> & Hk).
      apply elem_of_seq in Hk. lia. }
    exact (Hsym a b (conj Hva Hb)).
Defined.

(** ** algs_train/4.py

    The script reads one line and prints one boolean on every path; [main]
    maps the line to the printed value. *)

Module Brackets.

(** [letter in s], for a one-character string [letter] *)
Definition char_in (letter : ascii) (s : list ascii) : bool :=
  existsb (Ascii.eqb letter) s.

(** The dict [pairs]. *)
Definition pairs : list (ascii * ascii) :=
  [("]", "["); ("}", "{"); (")", "(")]%char.

(** [d[k]]; [None] stands for [KeyError]. *)
Fixpoint dict_get (d : list (ascii * ascii)) (k : ascii) : option ascii :=
  match d with
  | [] => None
  | (k', v) :: d' => if Ascii.eqb k' k then Some v else dict_get d' k
  end.

(** The [for letter in string] loop with its [else] branch.  The top of
    [stack] (the last element of the Python list) is at the head.  The
    result is the printed value, [None] when [pairs[letter]] raises. *)
Fixpoint loop (string : list ascii) (stack : list ascii) : option bool :=
  match string with
  | [] => Some (match stack with [] => true | _ :: _ => false end)
  | letter :: string' =>
      if char_in letter ["["; "{"; "("]%char then loop string' (letter :: stack)
      else if char_in letter ["]"; "}"; ")"]%char then
        match stack with
        | [] => Some false
        | top :: stack' =>
            match dict_get pairs letter with
            | None => None
            | Some opening =>
                if Ascii.eqb top opening then loop string' stack'
                else Some false
            end
        end
      else loop string' stack
  end.

Definition main (string : list ascii) : option bool := loop string [].

End Brackets.

(** [o] and [c] are an opening bracket and its closing bracket. *)
Inductive matching : ascii → ascii → Prop :=
  | matching_round : matching "(" ")"
  | matching_square : matching "[" "]"
  | matching_curly : matching "{" "}".

(** [c] is one of the six brackets. *)
Definition bracket (c : ascii) : Prop :=
  c ∈ ["("; ")"; "["; "]"; "{"; "}"]%char.

(** Correctly nested strings; characters that are no brackets may stand
    anywhere. *)
Inductive balanced : list ascii → Prop :=
  | balanced_nil : balanced []
  | balanced_other c : ¬ bracket c → balanced [c]
  | balanced_wrap o c l : matching o c → balanced l → balanced (o :: l ++ [c])
  | balanced_app l1 l2 : balanced l1 → balanced l2 → balanced (l1 ++ l2).

(** ** algs_train/10.py

    The rows of [net] are list objects that [path] updates in place, and two
    entries of [net] may be the same object.  A row is therefore an address,
    and a store maps the addresses to the contents of the rows. *)

Module Path.

Definition store := nat → list Z.

Definition store_set (s : store) (a : nat) (row : list Z) : store :=
  λ b, if bool_decide (b = a) then row else s b.

(** [range(a, b)] *)
Definition py_range_from (a b : Z) : list Z :=
  (λ k, a + Z.of_nat k) <$> seq 0 (Z.to_nat (b - a)).

(** [net[i][j]] *)
Definition get_cell (net : list nat) (s : store) (i j : Z) : res Z :=
  let* a := py_get net i in
  py_get (s a) j.

(** [net[i][j] += e]: the row object and its old entry are read, then [e]
    is evaluated, then the sum is stored in that row object. *)
Definition add_cell (net : list nat) (s : store) (i j : Z) (e : res Z) : res store :=
  let* a := py_get net i in
  let* old := py_get (s a) j in
  let* x := e in
  let* row := py_set (s a) j (old + x) in
  Ok (store_set s a row).

(** [for i in range(1, h): net[i][0] += net[i - 1][0]] *)
Fixpoint first_column (rows : list Z) (net : list nat) (s : store) : res store :=
  match rows with
  | [] => Ok s
  | i :: rows' =>
      let* s := add_cell net s i 0 (get_cell net s (i - 1) 0) in
      first_column rows' net s
  end.

(** [for j in range(1, w): net[0][j] += net[0][j - 1]] *)
Fixpoint first_row (cols : list Z) (net : list nat) (s : store) : res store :=
  match cols with
  | [] => Ok s
  | j :: cols' =>
      let* s := add_cell net s 0 j (get_cell net s 0 (j - 1)) in
      first_row cols' net s
  end.

(** [for j in range(1, w): net[i][j] += min(net[i - 1][j], net[i][j - 1])] *)
Fixpoint inner (i : Z) (cols : list Z) (net : list nat) (s : store) : res store :=
  match cols with
  | [] => Ok s
  | j :: cols' =>
      let* s := add_cell net s i j
                  (let* up := get_cell net s (i - 1) j in
                   let* left := get_cell net s i (j - 1) in
                   Ok (Z.min up left)) in
      inner i cols' net s
  end.

(** [for i in range(1, h): for j in range(1, w): ...] *)
Fixpoint outer (rows cols : list Z) (net : list nat) (s : store) : res store :=
  match rows with
  | [] => Ok s
  | i :: rows' =>
      let* s := inner i cols net s in
      outer rows' cols net s
  end.

(** The result is the returned number and the store the call leaves. *)
Definition path (net : list nat) (s : store) : res (Z * store) :=
  let h := py_len net in
  let* a0 := py_get net 0 in
  let w := py_len (s a0) in
  let* s := first_column (py_range_from 1 h) net s in
  let* s := first_row (py_range_from 1 w) net s in
  let* s := outer (py_range_from 1 h) (py_range_from 1 w) net s in
  let* x := get_cell net s (h - 1) (w - 1) in
  Ok (x, s).

End Path.

(** The number in row [i], column [j] of [net]. *)
Definition cell (net : list nat) (s : Path.store) (i j : nat) : Z :=
  default 0 (s (default 0%nat (net !! i)) !! j).

(** [x] is the sum of the numbers on a path from the top left corner to
    [(i, j)] that only steps down or right. *)
Inductive path_sum (c : nat → nat → Z) : nat → nat → Z → Prop :=
  | path_start : path_sum c 0 0 (c 0%nat 0%nat)
  | path_down i j x : path_sum c i j x → path_sum c (S i) j (x + c (S i) j)
  | path_right i j x : path_sum c i j x → path_sum c i (S j) (x + c i (S j)).

(** [m] is the least such sum. *)
Definition min_path_sum (c : nat → nat → Z) (i j : nat) (m : Z) : Prop :=
  path_sum c i j m ∧ ∀ x, path_sum c i j x → m ≤ x.

(** The table that [path] fills in. *)
Fixpoint best_first (row : nat → Z) (j : nat) : Z :=
  match j with
  | O => row 0%nat
  | S j' => best_first row j' + row j
  end.

Fixpoint best_next (prev row : nat → Z) (j : nat) : Z :=
  match j with
  | O => prev 0%nat + row 0%nat
  | S j' => Z.min (prev j) (best_next prev row j') + row j
  end.

Fixpoint best (c : nat → nat → Z) (i : nat) : nat → Z :=
  match i with
  | O => best_first (c 0%nat)
  | S i' => best_next (best c i') (c i)
  end.

(** [net] has [h] distinct rows with at least [w] entries each. *)
Definition grid (net : list nat) (s : Path.store) (h w : nat) : Prop :=
  NoDup net ∧ length net = h ∧ ∀ a, a ∈ net → (w ≤ length (s a))%nat.

(** The cells in [filled] hold their table entry, the others their original
    number [c]. *)
Definition table_inv (c : nat → nat → Z) (net : list nat) (s : Path.store)
    (h w : nat) (filled : nat → nat → Prop) : Prop :=
  grid net s h w ∧
  ∀ i j, (i < h)%nat → (j < w)%nat →
         (filled i j → cell net s i j = best c i j) ∧
         (¬ filled i j → cell net s i j = c i j).

(** A grid of two distinct rows of three numbers, and one whose first row is
    empty. *)
Definition example_net : list nat := [0%nat; 1%nat].

Definition example_rows : Path.store :=
  λ a, match a with O => [1; 3; 1] | _ => [1; 5; 1] end.

Definition example_rows_empty : Path.store :=
  λ a, match a with O => [] | _ => [1; 2] end.

(** ** algs_train/6.py

    [Node] objects live in a heap: an address is a natural number, [None] is
    [None], and [Node()] takes the next unused address.  [unite_lists]
    relinks the nodes it is given, so the heap is threaded through. *)

Module Merge.

Record node := Node { val : Z; next : option nat }.

Record heap := Heap { cells : nat → node; fresh : nat }.

(** [p.next = q] *)
Definition set_next (h : heap) (p : nat) (q : option nat) : heap :=
  Heap (λ x, if bool_decide (x = p) then Node (val (cells h p)) q else cells h x)
       (fresh h).

(** [Node()], with the defaults [val = 0] and [next = None] *)
Definition alloc (h : heap) : nat * heap :=
  (fresh h,
   Heap (λ x, if bool_decide (x = fresh h) then Node 0 None else cells h x)
        (S (fresh h))).

Record state := State {
  st_heap : heap;
  st_tail : nat;
  st_a : option nat;
  st_b : option nat
}.

(** [while a and b: ...]; after [tail.next = a] the assignment
    [tail = tail.next] makes [tail] the node that [a] was. *)
Fixpoint while (fuel : nat) (st : state) : res state :=
  match st_a st, st_b st with
  | Some a, Some b =>
      match fuel with
      | O => OutOfFuel
      | S fuel' =>
          let h := st_heap st in
          if bool_decide (val (cells h a) ≤ val (cells h b)) then
            let h := set_next h (st_tail st) (Some a) in
            while fuel' (State h a (next (cells h a)) (Some b))
          else
            let h := set_next h (st_tail st) (Some b) in
            while fuel' (State h b (Some a) (next (cells h b)))
      end
  | _, _ => Ok st
  end.

(** [tail.next = a if a else b] *)
Definition link_rest (st : state) : heap :=
  set_next (st_heap st) (st_tail st)
    (match st_a st with Some _ => st_a st | None => st_b st end).

(** The result is the returned head and the heap the call leaves. *)
Definition unite_lists (fuel : nat) (h : heap) (head1 head2 : option nat)
  : res (option nat * heap) :=
  match head1 with
  | None => Ok (head2, h)
  | Some _ =>
      match head2 with
      | None => Ok (head1, h)
      | Some _ =>
          let '(dummy, h) := alloc h in
          let* st := while fuel (State h dummy head1 head2) in
          let h := link_rest st in
          Ok (next (cells h dummy), h)
      end
  end.

End Merge.

(** [p] is the head of the list whose nodes are, in order, [l]. *)
Fixpoint is_list (h : Merge.heap) (p : option nat) (l : list nat) : Prop :=
  match l with
  | [] => p = None
  | x :: l' => p = Some x ∧ is_list h (Merge.next (Merge.cells h x)) l'
  end.

(** The numbers in the nodes [l]. *)
Definition vals (h : Merge.heap) (l : list nat) : list Z :=
  (λ x, Merge.val (Merge.cells h x)) <$> l.

(** The order in which the loop takes the nodes of two lists; [v] gives
    the number in a node. *)
Fixpoint merge_nodes (v : nat → Z) (l1 : list nat) : list nat → list nat :=
  fix merge_rest (l2 : list nat) : list nat :=
    match l1, l2 with
    | [], _ => l2
    | _, [] => l1
    | x :: l1', y :: l2' =>
        if bool_decide (v x ≤ v y) then x :: merge_nodes v l1' l2
        else y :: merge_rest l2'
    end.

(** The lists 1 → 3 and 2 in a heap of three nodes. *)
Definition example_heap : Merge.heap :=
  Merge.Heap (λ x, match x with
                   | 0%nat => Merge.Node 1 (Some 1%nat)
                   | 1%nat => Merge.Node 3 None
                   | _ => Merge.Node 2 None
                   end) 3.

(** ** Examples from the modules' [__main__] blocks *)

Definition example_undirected : graph :=
  [[1; 2]; [0; 3]; [0; 4]; [1]; [2]].

Definition example_directed : graph :=
  [[1; 2]; [3]; [4]; []; [1]].

Definition example_dag : graph :=
  [[]; []; [3]; [1]; [0; 1]; [2; 0]].

Definition example_cycle : graph := [[1]; [2]; [0]].

(** * Properties *)

(** ** The result monad *)

Lemma bind_Ok {A B} (m : res A) (k : A → res B) (b : B) :
  bind m k = Ok b ↔ ∃ a, m = Ok a ∧ k a = Ok b.
Proof.
  destruct m; simpl; split; try (intros (? & ? & ?)); try discriminate; eauto.
  by simplify_eq.
Qed.

(** ** Python indexing *)

Lemma py_index_vertex (len : nat) (i : Z) :
  0 ≤ i < Z.of_nat len → py_index len i = Some (Z.to_nat i).
Proof. intros H. unfold py_index. by rewrite bool_decide_eq_true_2. Qed.

Lemma py_index_lt (len : nat) (i : Z) (k : nat) :
  py_index len i = Some k → (k < len)%nat.
Proof.
  unfold py_index. repeat case_bool_decide; intros; simplify_eq; lia.
Qed.

Lemma py_get_vertex {A} (l : list A) (i : Z) (x : A) :
  0 ≤ i → l !! Z.to_nat i = Some x → py_get l i = Ok x.
Proof.
  intros Hi Hx. unfold py_get.
  rewrite py_index_vertex; [by rewrite Hx|].
  apply lookup_lt_Some in Hx. lia.
Qed.

Lemma py_get_total {A} (l : list A) (i : Z) :
  0 ≤ i < py_len l → ∃ x, l !! Z.to_nat i = Some x ∧ py_get l i = Ok x.
Proof.
  intros Hi. unfold py_len in Hi.
  destruct (lookup_lt_is_Some_2 l (Z.to_nat i)) as [x Hx]; [lia|].
  exists x. split; [done|]. apply py_get_vertex; [lia|done].
Qed.

Lemma py_set_vertex {A} (l : list A) (i : Z) (x : A) :
  0 ≤ i < py_len l → py_set l i x = Ok (<[Z.to_nat i := x]> l).
Proof. intros Hi. unfold py_set. by rewrite py_index_vertex. Qed.

Lemma py_set_Ok {A} (l l' : list A) (i : Z) (x : A) :
  py_set l i x = Ok l' → ∃ k, (k < length l)%nat ∧ l' = <[k := x]> l.
Proof.
  unfold py_set. destruct (py_index _ _) as [k|] eqn:Hk; [|done].
  intros [= <-]. exists k. split; [by eapply py_index_lt|done].
Qed.

Lemma py_get_adj (g : graph) (n v : Z) :
  wf_graph g n → vertex n v → py_get g v = Ok (adj g v).
Proof.
  intros (_ & Hlen & _) Hv. unfold vertex in Hv.
  destruct (py_get_total g v) as (us & Hus & ->); [lia|].
  unfold adj. by rewrite Hus.
Qed.

Lemma adj_vertex (g : graph) (n v : Z) :
  wf_graph g n → Forall (vertex n) (adj g v).
Proof.
  intros (_ & _ & Hall). unfold adj.
  destruct (g !! Z.to_nat v) as [us|] eqn:Hus; simpl; [|constructor].
  by eapply Forall_lookup_1 in Hall.
Qed.

Lemma edge_vertex (g : graph) (n a b : Z) :
  wf_graph g n → edge g n a b → vertex n a ∧ vertex n b.
Proof.
  intros Hwf [Ha Hb]. split; [done|].
  pose proof (adj_vertex g n a Hwf) as Hall.
  rewrite Forall_forall in Hall. by apply Hall.
Qed.

Lemma py_range_elem (n v : Z) : v ∈ py_range n ↔ vertex n v.
Proof.
  unfold py_range, vertex. rewrite list_elem_of_fmap. split.
  - intros (k & -> & Hk). apply elem_of_seq in Hk. lia.
  - intros Hv. exists (Z.to_nat v). split; [lia|]. apply elem_of_seq. lia.
Qed.

Lemma py_range_NoDup (n : Z) : NoDup (py_range n).
Proof. unfold py_range. apply NoDup_fmap_2; [apply _|apply NoDup_seq]. Qed.

Lemma py_range_length (n : Z) : length (py_range n) = Z.to_nat n.
Proof. unfold py_range. by rewrite length_fmap, length_seq. Qed.

Lemma py_repeat_length {A} (x : A) (n : Z) : length (py_repeat x n) = Z.to_nat n.
Proof. apply length_replicate. Qed.

Lemma py_repeat_lookup {A} (x : A) (n v : Z) :
  vertex n v → py_repeat x n !! Z.to_nat v = Some x.
Proof. intros Hv. apply lookup_replicate_2. unfold vertex in Hv. lia. Qed.

(** A duplicate-free list of vertices has at most [n] elements, and lists
    every vertex once it has [n] of them. *)
Lemma vertices_submseteq (n : Z) (l : list Z) :
  NoDup l → Forall (vertex n) l → l ⊆+ py_range n.
Proof.
  intros Hnd Hall. apply NoDup_submseteq; [done|].
  intros x Hx. apply py_range_elem. rewrite Forall_forall in Hall. auto.
Qed.

Lemma vertices_length (n : Z) (l : list Z) :
  NoDup l → Forall (vertex n) l → (length l ≤ Z.to_nat n)%nat.
Proof.
  intros Hnd Hall. rewrite <- py_range_length.
  by apply submseteq_length, vertices_submseteq.
Qed.

Lemma vertices_all_Permutation (n : Z) (l : list Z) :
  NoDup l → (∀ v, v ∈ l ↔ vertex n v) → l ≡ₚ py_range n.
Proof.
  intros Hnd Hall. apply NoDup_Permutation; [done|apply py_range_NoDup|].
  intros x. by rewrite Hall, py_range_elem.
Qed.

(** ** Visited flags *)

Lemma mass_insert {A} (P : A → bool) (w : list nat) (l : list A) (k : nat) (a b : A) (x : nat) :
  l !! k = Some a → w !! k = Some x →
  (mass P w (<[k := b]> l) + (if P a then x else 0) =
   mass P w l + (if P b then x else 0))%nat.
Proof.
  revert w k. induction l as [|c l IH]; intros [|y w] [|k] Hl Hw;
    simplify_eq/=; try lia.
  specialize (IH w k Hl Hw). lia.
Qed.

Lemma unvisited_mark (visited : list bool) (k : nat) :
  visited !! k = Some false →
  (unvisited (<[k := true]> visited) + 1 = unvisited visited)%nat.
Proof.
  intros Hk. unfold unvisited. rewrite length_insert.
  pose proof (mass_insert negb (replicate (length visited) 1%nat) visited k false true 1%nat Hk) as H.
  simpl in H. specialize (H (lookup_replicate_2 _ _ _ (lookup_lt_Some _ _ _ Hk))).
  lia.
Qed.

Lemma marked_get (n : Z) (visited : list bool) (v : Z) :
  length visited = Z.to_nat n → vertex n v →
  ∃ b, visited !! Z.to_nat v = Some b ∧ py_get visited v = Ok b ∧
       (b = true ↔ marked visited v).
Proof.
  intros Hlen Hv. unfold vertex in Hv.
  destruct (py_get_total visited v) as (b & Hb & Hget); [unfold py_len; lia|].
  exists b. split_and!; [done..|]. unfold marked. rewrite Hb. naive_solver.
Qed.

Lemma marked_set (n : Z) (visited : list bool) (v : Z) :
  length visited = Z.to_nat n → vertex n v →
  py_set visited v true = Ok (<[Z.to_nat v := true]> visited).
Proof. intros Hlen Hv. apply py_set_vertex. unfold vertex, py_len in *. lia. Qed.

Lemma marked_insert (n : Z) (visited : list bool) (v w : Z) :
  length visited = Z.to_nat n → vertex n v → vertex n w →
  marked (<[Z.to_nat v := true]> visited) w ↔ w = v ∨ marked visited w.
Proof.
  intros Hlen Hv Hw. unfold marked, vertex in *.
  destruct (decide (v = w)) as [->|Hne].
  - rewrite list_lookup_insert_eq by lia. naive_solver.
  - rewrite list_lookup_insert_ne by lia. naive_solver.
Qed.

Lemma marked_repeat (n w : Z) : ¬ marked (py_repeat false n) w.
Proof.
  unfold marked, py_repeat. intros H.
  apply lookup_replicate_1 in H. naive_solver.
Qed.

(** ** Paths *)

(** A set of vertices closed under the edges contains whatever is
    reachable from one of its members. *)
Lemma closed_reachable (g : graph) (n : Z) (l : list Z) (a v : Z) :
  (∀ a b, a ∈ l → edge g n a b → b ∈ l) →
  reachable g n a v → a ∈ l → v ∈ l.
Proof. intros Hclosed Hav. induction Hav; eauto. Qed.

(** ** Breadth-first search *)

Section bfs.
Context (g : graph) (n : Z) (Hwf : wf_graph g n).

Lemma bfs_scan_spec (us : list Z) (visited : list bool) (queue : list Z) :
  length visited = Z.to_nat n → Forall (vertex n) us →
  ∃ visited' new,
    BfsUndirected.scan us visited queue = Ok (visited', queue ++ new) ∧
    length visited' = Z.to_nat n ∧
    NoDup new ∧
    (∀ w, w ∈ new ↔ w ∈ us ∧ ¬ marked visited w) ∧
    (∀ w, vertex n w → (marked visited' w ↔ marked visited w ∨ w ∈ new)).
Proof.
  intros Hlen Hus. revert visited queue Hlen.
  induction Hus as [|u us Hu Hus IH]; intros visited queue Hlen.
  { exists visited, []. rewrite app_nil_r. split_and!; [done..|constructor| |].
    - intros w. rewrite !elem_of_nil. naive_solver.
    - intros w _. rewrite elem_of_nil. naive_solver. }
  simpl. destruct (marked_get n visited u Hlen Hu) as (b & Hb & -> & Hbm).
  simpl. destruct b; simpl.
  - destruct (IH visited queue Hlen) as (visited' & new & -> & ? & ? & Hnew & Hvis).
    exists visited', new. split_and!; [done..| |done].
    intros w. rewrite Hnew, elem_of_cons.
    split; [naive_solver|]. intros [[->|?] ?]; [|done].
    exfalso. naive_solver.
  - rewrite (marked_set n) by done. simpl.
    assert (¬ marked visited u) as Hnu by (intros ?%Hbm; done).
    destruct (IH (<[Z.to_nat u := true]> visited) (queue ++ [u]))
      as (visited' & new & -> & ? & ? & Hnew & Hvis);
      [by rewrite length_insert|].
    exists visited', (u :: new). split_and!.
    + by rewrite <- app_assoc.
    + done.
    + constructor; [|done]. rewrite Hnew. intros [_ []].
      by apply (marked_insert n); auto.
    + intros w. rewrite !elem_of_cons, Hnew.
      split.
      * intros [->|[Hw Hm]]; [auto|]. split; [auto|].
        intros Hm'. apply Hm. rewrite Forall_forall in Hus.
        apply (marked_insert n); auto.
      * intros [[->|Hw] Hm]; [auto|].
        destruct (decide (w = u)) as [->|Hne]; [auto|]. right. split; [done|].
        rewrite Forall_forall in Hus.
        rewrite (marked_insert n) by auto. naive_solver.
    + intros w Hw. rewrite Hvis by done.
      rewrite (marked_insert n) by done. rewrite elem_of_cons. naive_solver.
Qed.

Lemma bfs_step_spec (order : list Z) (visited : list bool) (v : Z) (queue : list Z) :
  bfs_inv n (BfsState order visited (v :: queue)) →
  ∃ visited' new,
    BfsUndirected.step g (BfsState order visited (v :: queue))
      = Ok (BfsState (order ++ [v]) visited' (queue ++ new)) ∧
    NoDup new ∧
    (∀ w, w ∈ new ↔ w ∈ adj g v ∧ ¬ marked visited w) ∧
    (∀ w, vertex n w → (marked visited' w ↔ marked visited w ∨ w ∈ new)) ∧
    bfs_inv n (BfsState (order ++ [v]) visited' (queue ++ new)).
Proof.
  intros (Hlen & Hall & Hnd & Hvis). simpl in *.
  assert (vertex n v) as Hv.
  { rewrite Forall_forall in Hall. apply Hall. set_solver. }
  pose proof (adj_vertex g n v Hwf) as Hadj.
  destruct (bfs_scan_spec (adj g v) visited queue Hlen Hadj)
    as (visited' & new & Hscan & Hlen' & Hndnew & Hnew & Hvis').
  exists visited', new. unfold BfsUndirected.step. simpl.
  rewrite (py_get_adj g n v Hwf Hv). simpl. rewrite Hscan. simpl.
  split_and!; [done..|]. unfold bfs_inv. simpl.
  replace ((order ++ [v]) ++ queue ++ new) with ((order ++ v :: queue) ++ new)
    by (by rewrite <- !app_assoc).
  split_and!.
  - done.
  - apply Forall_app. split; [done|]. rewrite Forall_forall in Hadj |- *.
    intros w Hw%Hnew. naive_solver.
  - apply NoDup_app. split_and!; [done| |done].
    intros w Hw Hw'. apply Hnew in Hw' as [_ Hw']. apply Hw', Hvis; [|done].
    rewrite Forall_forall in Hall. auto.
  - intros w Hw. rewrite Hvis', Hvis by done. rewrite (elem_of_app _ new).
    done.
Qed.

(** The loop runs to completion and preserves every property [P] that
    one iteration preserves. *)
Lemma bfs_while_spec (P : bfs_state → Prop) :
  (∀ st st', bfs_inv n st → P st → bfs_iter g st st' → P st') →
  ∀ (fuel : nat) (st : bfs_state),
    bfs_inv n st → P st →
    (Z.to_nat n ≤ fuel + length (bfs_order st))%nat →
    ∃ st', BfsUndirected.while fuel g st = Ok st' ∧ bfs_queue st' = [] ∧
           bfs_inv n st' ∧ P st'.
Proof.
  intros HP fuel. induction fuel as [|fuel IH]; intros [order visited queue] Hinv HPst Hfuel.
  - destruct queue as [|v queue]; [by exists (BfsState order visited [])|].
    exfalso. destruct Hinv as (_ & Hall & Hnd & _). simpl in *.
    pose proof (vertices_length n _ Hnd Hall) as Hle.
    rewrite length_app in Hle. simpl in Hle. lia.
  - destruct queue as [|v queue]; [by exists (BfsState order visited [])|].
    destruct (bfs_step_spec order visited v queue Hinv)
      as (visited' & new & Hstep & _ & _ & _ & Hinv').
    simpl. rewrite Hstep. simpl. apply IH; [done| |].
    + eapply HP; [exact Hinv|exact HPst|]. split; [done|exact Hstep].
    + simpl in *. rewrite length_app. simpl. lia.
Qed.

Lemma bfs_iter_spec (st st' : bfs_state) :
  bfs_inv n st → bfs_iter g st st' →
  ∃ order visited v queue visited' new,
    st = BfsState order visited (v :: queue) ∧
    st' = BfsState (order ++ [v]) visited' (queue ++ new) ∧
    vertex n v ∧
    NoDup new ∧
    (∀ w, w ∈ new ↔ w ∈ adj g v ∧ ¬ marked visited w) ∧
    (∀ w, vertex n w → (marked visited' w ↔ marked visited w ∨ w ∈ new)) ∧
    bfs_inv n st'.
Proof.
  destruct st as [order visited [|v queue]]; intros Hinv [Hne Hstep]; [done|].
  destruct (bfs_step_spec order visited v queue Hinv)
    as (visited' & new & Hstep' & ? & ? & ? & ?).
  rewrite Hstep' in Hstep. injection Hstep as <-.
  exists order, visited, v, queue, visited', new. split_and!; try done.
  destruct Hinv as (_ & Hall & _). simpl in Hall.
  rewrite Forall_forall in Hall. apply Hall. set_solver.
Qed.

Lemma bfs_closed_iter (start : Z) (st st' : bfs_state) :
  bfs_inv n st → bfs_closed g n start st → bfs_iter g st st' →
  bfs_closed g n start st'.
Proof.
  intros Hinv (Hstart & Hreach & Hclosed) Hiter.
  destruct (bfs_iter_spec st st' Hinv Hiter)
    as (order & visited & v & queue & visited' & new & -> & -> & Hv & _ & Hnew & _ & _).
  destruct Hinv as (Hlen & Hall & _ & Hvis). simpl in *.
  rewrite Forall_forall in Hall.
  split_and!; simpl.
  - set_solver.
  - intros w Hw.
    assert (w ∈ order ++ v :: queue ∨ w ∈ new) as [?|Hw'] by set_solver; [auto|].
    apply Hnew in Hw' as [Hw' _].
    eapply rtc_r; [apply (Hreach v); set_solver|]. by split.
  - intros a b Ha Hab.
    apply elem_of_app in Ha as [Ha|Ha%list_elem_of_singleton].
    + specialize (Hclosed a b Ha Hab). set_solver.
    + subst a. destruct (edge_vertex g n v b Hwf Hab) as [_ Hb].
      destruct Hab as [_ Hab].
      destruct (marked_get n visited b) as (m & _ & _ & Hm); [exact Hlen|done|].
      destruct m.
      * assert (b ∈ order ++ v :: queue) by (apply Hvis; naive_solver).
        set_solver.
      * assert (b ∈ new) by (apply Hnew; naive_solver). set_solver.
Qed.

Lemma bfs_init_inv (start : Z) :
  vertex n start →
  ∃ visited, py_set (py_repeat false n) start true = Ok visited ∧
             bfs_inv n (BfsState [] visited [start]).
Proof.
  intros Hstart. eexists. split.
  { apply (marked_set n); [apply py_repeat_length|done]. }
  unfold bfs_inv. simpl. split_and!.
  - by rewrite length_insert, py_repeat_length.
  - by constructor.
  - apply NoDup_singleton.
  - intros w Hw. rewrite (marked_insert n) by (done || apply py_repeat_length).
    rewrite list_elem_of_singleton. pose proof (marked_repeat n w). naive_solver.
Qed.

(** [bfs_undirected] returns the [order] of a final loop state that
    satisfies every property kept by the iterations. *)
Lemma bfs_run (P : bfs_state → Prop) (fuel : nat) (start : Z) :
  vertex n start → (Z.to_nat n ≤ fuel)%nat →
  (∀ st st', bfs_inv n st → P st → bfs_iter g st st' → P st') →
  (∀ visited, py_set (py_repeat false n) start true = Ok visited →
              P (BfsState [] visited [start])) →
  ∃ st, BfsUndirected.bfs_undirected fuel g start n = Ok (bfs_order st) ∧
        bfs_queue st = [] ∧ bfs_inv n st ∧ P st.
Proof.
  intros Hstart Hfuel Hiter Hinit.
  destruct (bfs_init_inv start Hstart) as (visited & Hset & Hinv).
  destruct (bfs_while_spec P Hiter fuel _ Hinv (Hinit _ Hset))
    as (st & Hwhile & ? & ? & ?); [simpl; lia|].
  exists st. unfold BfsUndirected.bfs_undirected. rewrite Hset. simpl.
  rewrite Hwhile. done.
Qed.

Lemma bfs_reaches (fuel : nat) (start : Z) :
  vertex n start → (Z.to_nat n ≤ fuel)%nat →
  ∃ order, BfsUndirected.bfs_undirected fuel g start n = Ok order ∧
           NoDup order ∧ ∀ v, v ∈ order ↔ reachable g n start v.
Proof.
  intros Hstart Hfuel.
  destruct (bfs_run (bfs_closed g n start) fuel start Hstart Hfuel)
    as ([order visited queue] & Hrun & Hq & Hinv & Hclosed).
  { intros st st'. apply bfs_closed_iter. }
  { intros visited _. split_and!; simpl.
    - set_solver.
    - intros w ->%list_elem_of_singleton. apply rtc_refl.
    - intros a b Ha. by apply elem_of_nil in Ha. }
  simpl in *. subst queue. exists order. split; [done|].
  destruct Hinv as (_ & _ & Hnd & _). destruct Hclosed as (Hin & Hreach & Hclosed).
  simpl in *. rewrite app_nil_r in *. split; [done|].
  intros v. split; [apply Hreach|].
  intros Hv. by eapply closed_reachable.
Qed.

Lemma bfs_layered_iter (start : Z) (st st' : bfs_state) :
  bfs_inv n st → (∃ d, bfs_layered g n start d st) → bfs_iter g st st' →
  ∃ d', bfs_layered g n start d' st'.
Proof.
  intros Hinv (d & Hd0 & Hstart & Hpath & Hedge & Hsorted & Hqueue) Hiter.
  destruct (bfs_iter_spec st st' Hinv Hiter)
    as (order & visited & v & queue & visited' & new & -> & -> & Hv & _ & Hnew & _ & _).
  destruct Hinv as (Hlen & Hall & _ & Hvis). simpl in *.
  rewrite Forall_forall in Hall.
  replace ((order ++ [v]) ++ queue ++ new) with ((order ++ v :: queue) ++ new)
    by (by rewrite <- !app_assoc).
  set (L := order ++ v :: queue) in *.
  assert (v ∈ L) as HvL by (unfold L; set_solver).
  assert (∀ w, w ∈ L → w ∉ new) as Hdisj.
  { intros w Hw Hw'. apply Hnew in Hw' as [_ Hw']. apply Hw', Hvis; auto. }
  assert (∀ y, y ∈ L → (d y ≤ d v + 1)%nat) as Hle.
  { intros y Hy. apply Hqueue; [set_solver|done]. }
  assert (∀ x, x ∈ queue → (d v ≤ d x)%nat) as Hge.
  { intros x [k Hk]%list_elem_of_lookup_1.
    apply (Hsorted (length order) (length order + S k)%nat); [| |lia].
    - by apply list_lookup_middle.
    - unfold L. rewrite lookup_app_r by lia.
      replace (length order + S k - length order)%nat with (S k) by lia. done. }
  set (d' := λ w, if decide (w ∈ new) then S (d v) else d w).
  assert (∀ w, w ∈ L → d' w = d w) as HdL.
  { intros w Hw. unfold d'. rewrite decide_False; [done|by apply Hdisj]. }
  assert (∀ w, w ∈ new → d' w = S (d v)) as Hdnew.
  { intros w Hw. unfold d'. by rewrite decide_True. }
  clearbody d'. exists d'. unfold bfs_layered. simpl.
  replace ((order ++ [v]) ++ queue ++ new) with (L ++ new)
    by (unfold L; by rewrite <- !app_assoc).
  split_and!.
  - by rewrite HdL.
  - set_solver.
  - intros w [Hw|Hw]%elem_of_app.
    + rewrite HdL by done. auto.
    + rewrite Hdnew by done. eapply nsteps_r; [by apply Hpath|].
      apply Hnew in Hw as [Hw _]. by split.
  - intros a b Ha Hab. rewrite (HdL a) by (unfold L; set_solver).
    apply elem_of_app in Ha as [Ha|Ha%list_elem_of_singleton].
    + destruct (Hedge a b Ha Hab) as [Hb Hdb].
      split; [set_solver|]. by rewrite HdL.
    + subst a. destruct (edge_vertex g n v b Hwf Hab) as [_ Hb].
      destruct Hab as [_ Hab].
      destruct (marked_get n visited b Hlen Hb) as (m & _ & _ & Hm).
      destruct m.
      * assert (b ∈ L) by (apply Hvis; naive_solver).
        split; [set_solver|]. rewrite HdL by done. by apply Hle.
      * assert (b ∈ new) by (apply Hnew; naive_solver).
        split; [set_solver|]. rewrite Hdnew by done. lia.
  - intros i j x y Hi Hj Hij.
    apply lookup_app_Some in Hi as [Hi|[Hi Hi']];
      apply lookup_app_Some in Hj as [Hj|[Hj Hj']].
    + rewrite !HdL by (by eapply list_elem_of_lookup_2). by eapply Hsorted.
    + rewrite (HdL x) by (by eapply list_elem_of_lookup_2).
      rewrite (Hdnew y) by (by eapply list_elem_of_lookup_2).
      specialize (Hle x (list_elem_of_lookup_2 _ _ _ Hi)). lia.
    + apply lookup_lt_Some in Hj. lia.
    + rewrite !Hdnew by (by eapply list_elem_of_lookup_2). done.
  - intros x y [Hx|Hx]%elem_of_app [Hy|Hy]%elem_of_app.
    + rewrite !HdL by (done || unfold L; set_solver).
      apply Hqueue; [set_solver|done].
    + rewrite (HdL x) by (unfold L; set_solver). rewrite Hdnew by done.
      specialize (Hge x Hx). lia.
    + rewrite (HdL y), (Hdnew x) by done. specialize (Hle y Hy). lia.
    + rewrite !Hdnew by done. lia.
Qed.

Lemma bfs_while_rtc (fuel : nat) (st fin : bfs_state) :
  BfsUndirected.while fuel g st = Ok fin →
  rtc (bfs_iter g) st fin ∧ bfs_queue fin = [].
Proof.
  revert st. induction fuel as [|fuel IH]; intros [order visited queue];
    (destruct queue as [|v queue]; simpl; [by intros [= <-]|]); [done|].
  intros (st' & Hstep & Hwhile)%bind_Ok.
  destruct (IH st' Hwhile) as [Hrtc Hfin]. split; [|done].
  eapply rtc_l; [|exact Hrtc]. split; [done|exact Hstep].
Qed.

Lemma bfs_iter_confluent (a b fin : bfs_state) :
  rtc (bfs_iter g) a b → rtc (bfs_iter g) a fin → bfs_queue fin = [] →
  rtc (bfs_iter g) b fin.
Proof.
  intros Hab. induction Hab as [|a a1 b [Hne Ha1] _ IH]; [done|].
  intros Hfin Hq. apply IH; [|done].
  apply rtc_inv in Hfin as [->|(a2 & [_ Ha2] & Hfin)]; [done|].
  rewrite Ha1 in Ha2. by injection Ha2 as ->.
Qed.

Lemma bfs_iter_rtc_inv (st st' : bfs_state) :
  bfs_inv n st → rtc (bfs_iter g) st st' →
  bfs_inv n st' ∧
  (bfs_order st ++ bfs_queue st) `prefix_of` (bfs_order st' ++ bfs_queue st').
Proof.
  intros Hinv Hrtc. induction Hrtc as [|st st1 st' Hiter _ IH]; [done|].
  destruct (bfs_iter_spec st st1 Hinv Hiter)
    as (order & visited & v & queue & visited' & new & -> & -> & _ & _ & _ & _ & Hinv1).
  destruct (IH Hinv1) as [Hinv' Hpre]. split; [done|].
  etrans; [|exact Hpre]. simpl. exists new. by rewrite <- !app_assoc.
Qed.

Lemma bfs_discovered (fuel : nat) (start : Z) (order : list Z) (u v : Z) :
  vertex n start →
  BfsUndirected.bfs_undirected fuel g start n = Ok order →
  vertex n u → discovered_from g start n u v → before order v u.
Proof.
  intros Hstart Hrun Hu (st & st' & (visited0 & Hset & Hst) & Hhd & Hstep & Hget & Hget').
  unfold BfsUndirected.bfs_undirected in Hrun. rewrite Hset in Hrun. simpl in Hrun.
  apply bind_Ok in Hrun as (fin & Hwhile & [= <-]).
  apply bfs_while_rtc in Hwhile as [Hfin Hq].
  destruct (bfs_init_inv start Hstart) as (visited0' & Hset' & Hinv0).
  rewrite Hset in Hset'. injection Hset' as <-.
  destruct (bfs_iter_rtc_inv _ _ Hinv0 Hst) as [Hinv _].
  assert (bfs_iter g st st') as Hiter.
  { split; [|done]. by destruct (bfs_queue st). }
  destruct (bfs_iter_spec st st' Hinv Hiter)
    as (o & visited & v' & q & visited' & new & -> & -> & _ & _ & _ & Hvis' & Hinv').
  simpl in *. injection Hhd as ->.
  assert (rtc (bfs_iter g) (BfsState (o ++ [v]) visited' (q ++ new)) fin) as Hrest.
  { eapply bfs_iter_confluent; [|exact Hfin|done]. by eapply rtc_r. }
  destruct (bfs_iter_rtc_inv _ _ Hinv' Hrest) as [_ Hpre].
  simpl in Hpre. rewrite Hq, app_nil_r in Hpre.
  assert (u ∈ new) as [k Hk]%list_elem_of_lookup_1.
  { destruct Hinv as (Hlen & _). destruct Hinv' as (Hlen' & _). simpl in *.
    destruct (marked_get n visited u Hlen Hu) as (b & _ & Hb & Hm).
    destruct (marked_get n visited' u Hlen' Hu) as (b' & _ & Hb' & Hm').
    rewrite Hget in Hb. rewrite Hget' in Hb'. simplify_eq.
    destruct (Hvis' u Hu) as [[Hold|?] _]; [naive_solver| |done].
    apply Hm in Hold. done. }
  exists (length o), (length o + 1 + length q + k)%nat. split_and!; [| |lia].
  - eapply prefix_lookup_Some; [|exact Hpre].
    rewrite <- app_assoc. by apply list_lookup_middle.
  - eapply prefix_lookup_Some; [|exact Hpre].
    rewrite !app_assoc. rewrite lookup_app_r by (rewrite !length_app; simpl; lia).
    rewrite !length_app. simpl.
    replace (length o + 1 + length q + k - (length o + 1 + length q))%nat with k by lia.
    done.
Qed.

(** The output is ordered by a level assignment [d] that gives every
    vertex of the output its distance from [start]. *)
Lemma bfs_layers (fuel : nat) (start : Z) :
  vertex n start → (Z.to_nat n ≤ fuel)%nat →
  ∃ order (d : Z → nat),
    BfsUndirected.bfs_undirected fuel g start n = Ok order ∧
    (∀ x, x ∈ order → distance g n start x (d x)) ∧
    (∀ (i j : nat) x y,
       order !! i = Some x → order !! j = Some y → (i ≤ j)%nat →
       (d x ≤ d y)%nat).
Proof.
  intros Hstart Hfuel.
  destruct (bfs_run (λ st, ∃ d, bfs_layered g n start d st) fuel start Hstart Hfuel)
    as ([order visited queue] & Hrun & Hq & Hinv & d & Hlay).
  { intros st st'. apply bfs_layered_iter. }
  { intros visited _. exists (λ _, 0%nat). unfold bfs_layered. simpl.
    split_and!; try done.
    - set_solver.
    - intros w ->%list_elem_of_singleton. constructor.
    - intros a b Ha. by apply elem_of_nil in Ha.
    - intros; lia. }
  simpl in *. subst queue. exists order, d. split; [done|].
  destruct Hlay as (Hd0 & Hin & Hpath & Hedge & Hsorted & _).
  simpl in *. rewrite app_nil_r in *.
  assert (∀ k w, nsteps (edge g n) k start w → w ∈ order ∧ (d w ≤ k)%nat) as Hmin.
  { induction k as [|k IH]; intros w Hw.
    - inversion Hw; subst. split; [done|lia].
    - apply nsteps_inv_r in Hw as (y & Hy & Hyw).
      destruct (IH y Hy) as [Hyin Hdy].
      destruct (Hedge y w Hyin Hyw) as [Hwin Hdw]. split; [done|lia]. }
  split; [|done].
  intros x Hx. split; [auto|]. intros k Hk. by destruct (Hmin k x Hk).
Qed.

Lemma bfs_component_spec (fuel : nat) (start : Z) (order : list Z) (visited : list bool) :
  (Z.to_nat n ≤ fuel)%nat → vertex n start →
  bfs_inv n (BfsState order visited []) →
  ∃ order' visited',
    BfsUndirected.component fuel g start order visited = Ok (order', visited') ∧
    bfs_inv n (BfsState order' visited' []) ∧
    start ∈ order' ∧ order ⊆ order'.
Proof.
  intros Hfuel Hstart Hinv. unfold BfsUndirected.component.
  pose proof Hinv as (Hlen & Hall & Hnd & Hvis). simpl in *.
  rewrite app_nil_r in *.
  destruct (marked_get n visited start Hlen Hstart) as (b & _ & -> & Hm).
  simpl. destruct b.
  { exists order, visited. split_and!; [done..| |done].
    apply Hvis; [done|]. by apply Hm. }
  rewrite (marked_set n) by done. simpl.
  assert (start ∉ order) as Hfresh.
  { intros Hin. apply Hvis in Hin; [|done]. apply Hm in Hin. done. }
  destruct (bfs_while_spec
              (λ st, (order ++ [start]) `prefix_of` (bfs_order st ++ bfs_queue st))
              ) with (fuel := fuel)
                     (st := BfsState order (<[Z.to_nat start := true]> visited) [start])
    as ([order' visited' queue'] & Hwhile & Hq & Hinv' & Hpre).
  - intros st st' Hinvst Hpre Hiter.
    destruct (bfs_iter_rtc_inv st st' Hinvst) as [_ Hpre'];
      [by apply rtc_once|]. by etrans.
  - unfold bfs_inv. simpl. split_and!.
    + by rewrite length_insert.
    + apply Forall_app. split; [done|by constructor].
    + apply NoDup_app. split_and!; [done| |apply NoDup_singleton].
      intros w Hw ->%list_elem_of_singleton. done.
    + intros w Hw. rewrite (marked_insert n) by done.
      rewrite Hvis by done. set_solver.
  - done.
  - simpl. lia.
  - simpl in *. subst queue'. rewrite Hwhile. simpl.
    exists order', visited'. split_and!; [done..| |].
    + rewrite app_nil_r in Hpre. destruct Hpre as [k ->]. set_solver.
    + rewrite app_nil_r in Hpre. destruct Hpre as [k ->]. set_solver.
Qed.

Lemma bfs_components_spec (fuel : nat) (starts : list Z) (order : list Z) (visited : list bool) :
  (Z.to_nat n ≤ fuel)%nat → Forall (vertex n) starts →
  bfs_inv n (BfsState order visited []) →
  ∃ order' visited',
    BfsUndirected.components fuel g starts order visited = Ok (order', visited') ∧
    bfs_inv n (BfsState order' visited' []) ∧
    starts ⊆ order' ∧ order ⊆ order'.
Proof.
  intros Hfuel Hstarts. revert order visited.
  induction Hstarts as [|start starts Hstart _ IH]; intros order visited Hinv.
  { exists order, visited. split_and!; [done..|set_solver|done]. }
  simpl.
  destruct (bfs_component_spec fuel start order visited Hfuel Hstart Hinv)
    as (order1 & visited1 & -> & Hinv1 & Hin1 & Hsub1).
  simpl. destruct (IH order1 visited1 Hinv1) as (order' & visited' & -> & ? & ? & ?).
  exists order', visited'. split_and!; [done..|set_solver|set_solver].
Qed.

Lemma bfs_all_components_permutation (fuel : nat) :
  (Z.to_nat n ≤ fuel)%nat →
  ∃ order, BfsUndirected.bfs_undirected_all_components fuel g n = Ok order ∧
           order ≡ₚ py_range n.
Proof.
  intros Hfuel. unfold BfsUndirected.bfs_undirected_all_components.
  destruct (bfs_components_spec fuel (py_range n) [] (py_repeat false n))
    as (order & visited & -> & Hinv & Hall & _).
  - done.
  - apply Forall_forall. intros v. apply py_range_elem.
  - unfold bfs_inv. simpl. split_and!.
    + apply py_repeat_length.
    + constructor.
    + constructor.
    + intros w _. pose proof (marked_repeat n w). set_solver.
  - simpl. exists order. split; [done|].
    destruct Hinv as (_ & Hvert & Hnd & _). simpl in *. rewrite app_nil_r in *.
    apply vertices_all_Permutation; [done|].
    intros v. split.
    + rewrite Forall_forall in Hvert. apply Hvert.
    + intros Hv. apply Hall. by apply py_range_elem.
Qed.

End bfs.

(** ** Recursive depth-first search *)

Lemma unvisited_length (visited : list bool) :
  (unvisited visited ≤ length visited)%nat.
Proof.
  unfold unvisited. induction visited as [|b visited IH]; simpl; [lia|].
  destruct b; simpl; lia.
Qed.

Lemma unvisited_pos (visited : list bool) (k : nat) :
  visited !! k = Some false → (0 < unvisited visited)%nat.
Proof. intros H%unvisited_mark. lia. Qed.

Section dfs_recursive.
Context (g : graph) (n : Z) (Hwf : wf_graph g n).

(** The loop over the neighbours, for any [rec] that behaves like a
    depth-first call whenever at most [f] vertices are unvisited. *)
Lemma dfs_visit_each_spec
    (rec : Z → list bool → list Z → res (list bool * list Z)) (f : nat) :
  (∀ u visited order,
     length visited = Z.to_nat n → vertex n u → ¬ marked visited u →
     (unvisited visited ≤ f)%nat →
     ∃ visited' rest,
       rec u visited order = Ok (visited', order ++ u :: rest) ∧
       dfs_post g n visited [u] (u :: rest) visited') →
  ∀ us visited order,
    length visited = Z.to_nat n → Forall (vertex n) us →
    (unvisited visited ≤ f)%nat →
    ∃ visited' new,
      DfsUndirected.visit_each rec us visited order = Ok (visited', order ++ new) ∧
      dfs_post g n visited us new visited' ∧
      ∀ u, u ∈ us → marked visited' u.
Proof.
  intros Hrec us visited order Hlen Hus. revert visited order Hlen.
  induction Hus as [|u us Hu Hus IH]; intros visited order Hlen Hf.
  { exists visited, []. rewrite app_nil_r. split_and!; [done| |set_solver].
    split_and!; [done|constructor|set_solver|set_solver|set_solver|done]. }
  simpl. destruct (marked_get n visited u Hlen Hu) as (b & _ & -> & Hm).
  simpl. destruct b; simpl.
  - destruct (IH visited order Hlen Hf)
      as (visited' & new & -> & (? & ? & Hnew & Hvis & ? & ?) & Hall).
    exists visited', new. split_and!; [done| |].
    + split_and!; [done..| |done|done|done].
      intros w Hw. destruct (Hnew w Hw) as (? & ? & u' & ? & ?).
      split_and!; [done..|]. exists u'. set_solver.
    + intros u' [->|?]%elem_of_cons; [|by apply Hall].
      apply Hvis; [done|]. left. by apply Hm.
  - assert (¬ marked visited u) as Hnu by (intros ?%Hm; done).
    destruct (Hrec u visited order Hlen Hu Hnu Hf)
      as (visited1 & rest & -> & (Hlen1 & Hnd1 & Hnew1 & Hvis1 & Hcl1 & Hle1)).
    simpl.
    destruct (IH visited1 (order ++ u :: rest) Hlen1)
      as (visited' & new & -> & (Hlen' & Hnd' & Hnew' & Hvis' & Hcl' & Hle') & Hall);
      [lia|].
    exists visited', ((u :: rest) ++ new). split_and!.
    + by rewrite <- app_assoc.
    + split_and!.
      * done.
      * apply NoDup_app. split_and!; [done| |done].
        intros w Hw Hw'. destruct (Hnew' w Hw') as (Hwv & Hnm & _).
        apply Hnm, Hvis1; auto.
      * intros w [Hw|Hw]%elem_of_app.
        -- destruct (Hnew1 w Hw) as (? & ? & u' & ->%list_elem_of_singleton & ?).
           split_and!; [done..|]. exists u. set_solver.
        -- destruct (Hnew' w Hw) as (? & Hnm & u' & ? & ?).
           split_and!; [done| |].
           ++ intros Hmw. apply Hnm, Hvis1; auto.
           ++ exists u'. set_solver.
      * intros w Hw. rewrite Hvis', Hvis1 by done. rewrite elem_of_app. tauto.
      * intros a b [Ha|Ha]%elem_of_app Hab.
        -- destruct (edge_vertex g n a b Hwf Hab) as [_ Hb].
           apply Hvis'; [done|]. left. by eapply Hcl1.
        -- by eapply Hcl'.
      * lia.
    + intros u' [->|?]%elem_of_cons; [|by apply Hall].
      apply Hvis'; [done|]. left. apply Hvis1; [done|]. right. set_solver.
Qed.

Lemma dfs_recursive_spec (fuel : nat) (v : Z) (visited : list bool) (order : list Z) :
  length visited = Z.to_nat n → vertex n v → ¬ marked visited v →
  (unvisited visited ≤ fuel)%nat →
  ∃ visited' rest,
    DfsUndirected.dfs_undirected_recursive fuel g v visited order
      = Ok (visited', order ++ v :: rest) ∧
    dfs_post g n visited [v] (v :: rest) visited'.
Proof.
  revert v visited order.
  induction fuel as [|fuel IH]; intros v visited order Hlen Hv Hnv Hfuel.
  { exfalso. destruct (marked_get n visited v Hlen Hv) as ([] & Hb & _ & Hm).
    - by apply Hnv, Hm.
    - apply unvisited_pos in Hb. lia. }
  simpl. rewrite (marked_set n) by done. simpl.
  rewrite (py_get_adj g n v Hwf Hv). simpl.
  set (visited1 := <[Z.to_nat v := true]> visited).
  assert (length visited1 = Z.to_nat n) as Hlen1 by (unfold visited1; by rewrite length_insert).
  assert (unvisited visited1 + 1 = unvisited visited)%nat as Hun1.
  { destruct (marked_get n visited v Hlen Hv) as ([] & Hb & _ & Hm).
    - exfalso. by apply Hnv, Hm.
    - by apply unvisited_mark. }
  assert (∀ w, vertex n w → (marked visited1 w ↔ w = v ∨ marked visited w)) as Hvis1.
  { intros w Hw. by apply (marked_insert n). }
  destruct (dfs_visit_each_spec (DfsUndirected.dfs_undirected_recursive fuel g) fuel)
    with (us := adj g v) (visited := visited1) (order := order ++ [v])
    as (visited' & rest & -> & (Hlen' & Hnd & Hnew & Hvis' & Hcl & Hle) & Hall).
  { intros u vis o ? ? ? ?. by apply IH. }
  { done. }
  { by apply adj_vertex. }
  { lia. }
  exists visited', rest. split; [by rewrite <- app_assoc|].
  split_and!.
  - done.
  - constructor; [|done]. intros Hin. destruct (Hnew v Hin) as (_ & Hnm & _).
    apply Hnm, Hvis1; auto.
  - intros w [->|Hw]%elem_of_cons.
    + split_and!; [done..|]. exists v. split; [set_solver|apply rtc_refl].
    + destruct (Hnew w Hw) as (? & Hnm & u & Hu & Hr).
      split_and!; [done| |].
      * intros Hmw. apply Hnm, Hvis1; auto.
      * exists v. split; [set_solver|]. eapply rtc_l; [|exact Hr]. by split.
  - intros w Hw. rewrite Hvis', Hvis1 by done. rewrite elem_of_cons. tauto.
  - intros a b [->|Ha]%elem_of_cons Hab.
    + apply Hall. by destruct Hab.
    + by eapply Hcl.
  - lia.
Qed.

Lemma dfs_recursive_reaches (fuel : nat) (start : Z) :
  vertex n start → (Z.to_nat n ≤ fuel)%nat →
  ∃ visited order,
    DfsUndirected.dfs_undirected_recursive fuel g start (py_repeat false n) []
      = Ok (visited, order) ∧
    NoDup order ∧ ∀ v, v ∈ order ↔ reachable g n start v.
Proof.
  intros Hstart Hfuel.
  destruct (dfs_recursive_spec fuel start (py_repeat false n) [])
    as (visited & rest & Hrun & (_ & Hnd & Hnew & Hvis & Hcl & _)).
  - apply py_repeat_length.
  - done.
  - apply marked_repeat.
  - pose proof (unvisited_length (py_repeat false n)) as Hle.
    rewrite py_repeat_length in Hle. lia.
  - exists visited, (start :: rest). split_and!; [done..|].
    intros v. split.
    + intros Hv. destruct (Hnew v Hv) as (_ & _ & u & ->%list_elem_of_singleton & ?).
      done.
    + intros Hv. eapply closed_reachable; [|exact Hv|set_solver].
      intros a b Ha Hab. destruct (edge_vertex g n a b Hwf Hab) as [_ Hb].
      destruct (Hvis b Hb) as [[Hold|?] _]; [by eapply Hcl| |done].
      by apply marked_repeat in Hold.
Qed.

(** A call on an arbitrary [visited] and [order], whether or not
    [visited[start]] is already set. *)
Lemma dfs_recursive_total (fuel : nat) (start : Z) (visited : list bool) (order : list Z) :
  length visited = Z.to_nat n → vertex n start →
  (unvisited visited < fuel)%nat →
  ∃ visited' rest,
    DfsUndirected.dfs_undirected_recursive fuel g start visited order
      = Ok (visited', order ++ start :: rest) ∧
    marked visited' start.
Proof.
  intros Hlen Hstart Hfuel. destruct fuel as [|fuel]; [lia|].
  simpl. rewrite (marked_set n) by done. simpl.
  rewrite (py_get_adj g n start Hwf Hstart). simpl.
  destruct (dfs_visit_each_spec (DfsUndirected.dfs_undirected_recursive fuel g) fuel)
    with (us := adj g start) (visited := <[Z.to_nat start := true]> visited)
         (order := order ++ [start])
    as (visited' & rest & -> & (_ & _ & _ & Hvis' & _) & _).
  - intros u vis o ? ? ? ?. by apply dfs_recursive_spec.
  - by rewrite length_insert.
  - by apply adj_vertex.
  - destruct (marked_get n visited start Hlen Hstart) as ([] & Hb & _ & _).
    + rewrite list_insert_id by done. lia.
    + apply unvisited_mark in Hb. lia.
  - exists visited', rest. split; [by rewrite <- app_assoc|].
    apply Hvis'; [done|]. left. apply (marked_insert n); auto.
Qed.

Lemma dfs_all_components_permutation (fuel : nat) :
  (Z.to_nat n ≤ fuel)%nat →
  ∃ order, DfsUndirected.dfs_undirected_all_components fuel g n = Ok order ∧
           order ≡ₚ py_range n.
Proof.
  intros Hfuel. unfold DfsUndirected.dfs_undirected_all_components.
  destruct (dfs_visit_each_spec (DfsUndirected.dfs fuel g) fuel)
    with (us := py_range n) (visited := py_repeat false n) (order := @nil Z)
    as (visited' & order & -> & (_ & Hnd & Hnew & Hvis & _) & Hall).
  - intros u vis o ? ? ? ?. by apply dfs_recursive_spec.
  - apply py_repeat_length.
  - apply Forall_forall. intros v. apply py_range_elem.
  - pose proof (unvisited_length (py_repeat false n)) as Hle.
    rewrite py_repeat_length in Hle. lia.
  - simpl. exists order. split; [done|].
    apply vertices_all_Permutation; [done|]. intros v. split.
    + intros Hv. by destruct (Hnew v Hv).
    + intros Hv. destruct (Hvis v Hv) as [[Hold|?] _]; [|by apply marked_repeat in Hold|done].
      apply Hall. by apply py_range_elem.
Qed.

End dfs_recursive.

(** The order accumulator only grows, by [start] first, on any input. *)
Lemma dfs_visit_each_extends
    (rec : Z → list bool → list Z → res (list bool * list Z)) :
  (∀ u visited order visited' order',
     rec u visited order = Ok (visited', order') → ∃ new, order' = order ++ new) →
  ∀ us visited order visited' order',
    DfsUndirected.visit_each rec us visited order = Ok (visited', order') →
    ∃ new, order' = order ++ new.
Proof.
  intros Hrec us. induction us as [|u us IH]; intros visited order visited' order'.
  { intros [= _ <-]. exists []. by rewrite app_nil_r. }
  simpl. intros (b & _ & Hrest)%bind_Ok. destruct b; simpl in Hrest; [by eapply IH|].
  apply bind_Ok in Hrest as ([visited1 order1] & Hcall & Hrest).
  destruct (Hrec _ _ _ _ _ Hcall) as [new1 ->].
  destruct (IH _ _ _ _ Hrest) as [new2 ->].
  exists (new1 ++ new2). by rewrite app_assoc.
Qed.

Lemma dfs_recursive_extends (fuel : nat) (g : graph) (start : Z)
    (visited : list bool) (order : list Z) (visited' : list bool) (order' : list Z) :
  DfsUndirected.dfs_undirected_recursive fuel g start visited order = Ok (visited', order') →
  ∃ rest, order' = order ++ start :: rest.
Proof.
  revert start visited order visited' order'.
  induction fuel as [|fuel IH]; intros start visited order visited' order'; [done|].
  simpl. intros (visited1 & _ & (us & _ & Hloop)%bind_Ok)%bind_Ok.
  apply dfs_visit_each_extends in Hloop as [new ->].
  - exists new. by rewrite <- app_assoc.
  - intros u vis o vis' o' [rest ->]%IH. by exists (u :: rest).
Qed.

(** ** Iterative depth-first search *)

Lemma mass_sum {A} (P : A → bool) (w : list nat) (l : list A) :
  (mass P w l ≤ sum_list w)%nat.
Proof.
  revert l. induction w as [|x w IH]; intros [|a l]; simpl; try lia.
  specialize (IH l). destruct (P a); lia.
Qed.

Section dfs_iterative.
Context (g : graph) (n : Z) (Hwf : wf_graph g n).

Lemma dfs_push_unvisited_spec (us : list Z) (visited : list bool) (stack : list Z) :
  length visited = Z.to_nat n → Forall (vertex n) us →
  ∃ pushed,
    DfsUndirected.push_unvisited us visited stack = Ok (pushed ++ stack) ∧
    (∀ w, w ∈ pushed ↔ w ∈ us ∧ ¬ marked visited w) ∧
    (length pushed ≤ length us)%nat.
Proof.
  intros Hlen Hus. revert stack.
  induction Hus as [|u us Hu _ IH]; intros stack.
  { exists []. split_and!; [done|set_solver|done]. }
  simpl. destruct (marked_get n visited u Hlen Hu) as (b & _ & -> & Hm).
  simpl. destruct b; simpl.
  - destruct (IH stack) as (pushed & -> & Hp & ?).
    exists pushed. split_and!; [done| |lia].
    intros w. rewrite Hp, elem_of_cons. split; [tauto|].
    intros [[->|?] Hnm]; [|done]. exfalso. by apply Hnm, Hm.
  - destruct (IH (u :: stack)) as (pushed & -> & Hp & ?).
    exists (pushed ++ [u]). split_and!.
    + by rewrite <- app_assoc.
    + intros w. rewrite elem_of_app, Hp, list_elem_of_singleton, elem_of_cons.
      split; [|tauto]. intros [?| ->]; [tauto|]. split; [by left|].
      intros ?%Hm. done.
    + rewrite length_app. simpl. lia.
Qed.

Lemma dfs_step_spec (start : Z) (order : list Z) (visited : list bool)
    (v : Z) (stack : list Z) :
  dfs_inv g n start (DfsState order visited (v :: stack)) →
  ∃ st', DfsUndirected.step g (DfsState order visited (v :: stack)) = Ok st' ∧
         dfs_inv g n start st' ∧
         (dfs_work g st' < dfs_work g (DfsState order visited (v :: stack)))%nat.
Proof.
  intros (Hlen & Hord & Hstk & Hnd & Hvis & Hstart & Hreach & Hcl). simpl in *.
  apply Forall_cons in Hstk as [Hv Hstk].
  unfold DfsUndirected.step. simpl.
  destruct (marked_get n visited v Hlen Hv) as (b & Hb & -> & Hm).
  simpl. destruct b.
  { eexists. split; [done|]. split; [|unfold dfs_work; simpl; lia].
    assert (v ∈ order) as Hvin by (apply Hvis; [done|by apply Hm]).
    unfold dfs_inv. simpl. split_and!; try done.
    - destruct Hstart as [?|[->|?]%elem_of_cons]; auto.
    - intros w [?|?]; apply Hreach; set_solver.
    - intros a b Ha Hab.
      destruct (Hcl a b Ha Hab) as [?|[->|?]%elem_of_cons]; auto. }
  rewrite (marked_set n) by done. simpl.
  rewrite (py_get_adj g n v Hwf Hv). simpl.
  set (visited1 := <[Z.to_nat v := true]> visited).
  assert (length visited1 = Z.to_nat n) as Hlen1
    by (unfold visited1; by rewrite length_insert).
  assert (∀ w, vertex n w → (marked visited1 w ↔ w = v ∨ marked visited w)) as Hvis1.
  { intros w Hw. by apply (marked_insert n). }
  assert (v ∉ order) as Hfresh.
  { intros Hin. apply Hvis in Hin; [|done]. by apply Hm in Hin. }
  pose proof (adj_vertex g n v Hwf) as Hadj.
  destruct (dfs_push_unvisited_spec (reverse (adj g v)) visited1 stack Hlen1)
    as (pushed & -> & Hp & Hplen).
  { by apply Forall_reverse. }
  simpl. eexists. split; [done|]. split.
  - unfold dfs_inv. simpl. rewrite Forall_forall in Hadj. split_and!.
    + done.
    + apply Forall_app. split; [done|by constructor].
    + apply Forall_app. split; [|done]. apply Forall_forall.
      intros w Hw. apply Hp in Hw as [Hw _]. rewrite elem_of_reverse in Hw. auto.
    + apply NoDup_app. split_and!; [done| |apply NoDup_singleton].
      intros w Hw ->%list_elem_of_singleton. done.
    + intros w Hw. rewrite Hvis1, Hvis by done. set_solver.
    + destruct Hstart as [?|[->|?]%elem_of_cons]; set_solver.
    + intros w [[Hw|Hw%list_elem_of_singleton]%elem_of_app|[Hw|Hw]%elem_of_app].
      * apply Hreach. auto.
      * subst w. apply Hreach. set_solver.
      * apply Hp in Hw as [Hw _]. rewrite elem_of_reverse in Hw.
        eapply rtc_r; [apply (Hreach v); set_solver|]. by split.
      * apply Hreach. set_solver.
    + intros a b [Ha|Ha%list_elem_of_singleton]%elem_of_app Hab.
      * destruct (Hcl a b Ha Hab) as [?|[->|?]%elem_of_cons]; set_solver.
      * subst a. destruct (edge_vertex g n v b Hwf Hab) as [_ Hbv].
        destruct Hab as [_ Hab].
        destruct (marked_get n visited1 b Hlen1 Hbv) as (m & _ & _ & Hm1).
        destruct m.
        -- left. assert (marked visited1 b) as Hmb by naive_solver.
           apply Hvis1 in Hmb; [|done]. destruct Hmb as [->|Hmb]; [set_solver|].
           apply Hvis in Hmb; [|done]. set_solver.
        -- right. apply elem_of_app. left. apply Hp. rewrite elem_of_reverse.
           split; [done|]. intros ?%Hm1. done.
  - unfold dfs_work. simpl. rewrite length_app.
    rewrite length_reverse in Hplen.
    assert ((length <$> g) !! Z.to_nat v = Some (length (adj g v))) as Hw.
    { rewrite list_lookup_fmap. unfold adj.
      destruct Hwf as (_ & Hglen & _). unfold vertex, py_len in *.
      destruct (lookup_lt_is_Some_2 g (Z.to_nat v)) as [us ->]; [lia|]. done. }
    pose proof (mass_insert negb _ visited (Z.to_nat v) false true _ Hb Hw) as Hmass.
    simpl in Hmass. fold visited1 in Hmass. lia.
Qed.

Lemma dfs_while_spec (start : Z) (fuel : nat) (st : dfs_state) :
  dfs_inv g n start st → (dfs_work g st ≤ fuel)%nat →
  ∃ st', DfsUndirected.while fuel g st = Ok st' ∧ dfs_stack st' = [] ∧
         dfs_inv g n start st'.
Proof.
  revert st. induction fuel as [|fuel IH]; intros [order visited stack] Hinv Hfuel.
  - destruct stack as [|v stack]; [by eexists|].
    unfold dfs_work in Hfuel. simpl in Hfuel. lia.
  - destruct stack as [|v stack]; [by eexists|].
    destruct (dfs_step_spec start order visited v stack Hinv) as (st' & Hstep & Hinv' & Hlt).
    simpl. rewrite Hstep. simpl. apply IH; [done|lia].
Qed.

Lemma dfs_iterative_reaches (fuel : nat) (start : Z) :
  vertex n start → (S (sum_list (length <$> g)) ≤ fuel)%nat →
  ∃ order, DfsUndirected.dfs_undirected_iterative fuel g start n = Ok order ∧
           NoDup order ∧ ∀ v, v ∈ order ↔ reachable g n start v.
Proof.
  intros Hstart Hfuel. unfold DfsUndirected.dfs_undirected_iterative.
  destruct (dfs_while_spec start fuel (DfsState [] (py_repeat false n) [start]))
    as ([order visited stack] & -> & Hstk & Hinv).
  - unfold dfs_inv. simpl. split_and!.
    + apply py_repeat_length.
    + constructor.
    + by apply Forall_singleton.
    + constructor.
    + intros w _. pose proof (marked_repeat n w). set_solver.
    + set_solver.
    + intros w [?|Hw%list_elem_of_singleton]; [set_solver|subst w; apply rtc_refl].
    + set_solver.
  - unfold dfs_work. simpl.
    pose proof (mass_sum negb (length <$> g) (py_repeat false n)). lia.
  - simpl in *. subst stack. exists order. split; [done|].
    destruct Hinv as (_ & _ & _ & Hnd & _ & Hin & Hreach & Hcl). simpl in *.
    split; [done|]. intros v. split; [auto|].
    intros Hv. eapply closed_reachable; [|exact Hv|set_solver].
    intros a b Ha Hab. destruct (Hcl a b Ha Hab); set_solver.
Qed.

End dfs_iterative.

(** ** Orders *)

Lemma before_app_l (l k : list Z) (a b : Z) : before l a b → before (l ++ k) a b.
Proof.
  intros (i & j & Hi & Hj & Hij). exists i, j.
  split_and!; [by apply lookup_app_l_Some..|done].
Qed.

Lemma before_snoc (l : list Z) (a b : Z) : a ∈ l → before (l ++ [b]) a b.
Proof.
  intros [i Hi]%list_elem_of_lookup_1. exists i, (length l).
  split_and!; [by apply lookup_app_l_Some|by apply list_lookup_middle|].
  by eapply lookup_lt_Some.
Qed.

Lemma before_reverse (l : list Z) (a b : Z) : before l a b → before (reverse l) b a.
Proof.
  intros (i & j & Hi & Hj & Hij).
  pose proof (lookup_lt_Some _ _ _ Hi). pose proof (lookup_lt_Some _ _ _ Hj).
  exists (length l - S j)%nat, (length l - S i)%nat. split_and!; [| |lia].
  - apply reverse_lookup_Some. split; [|lia].
    by replace (length l - S (length l - S j))%nat with j by lia.
  - apply reverse_lookup_Some. split; [|lia].
    by replace (length l - S (length l - S i))%nat with i by lia.
Qed.

Lemma before_trans (l : list Z) (a b c : Z) :
  NoDup l → before l a b → before l b c → before l a c.
Proof.
  intros Hnd (i & j & Hi & Hj & Hij) (j' & k & Hj' & Hk & Hjk).
  rewrite (NoDup_lookup l j j' b Hnd Hj Hj') in Hij.
  exists i, k. split_and!; [done..|lia].
Qed.

Lemma before_irrefl (l : list Z) (a : Z) : NoDup l → ¬ before l a a.
Proof.
  intros Hnd (i & j & Hi & Hj & Hij).
  pose proof (NoDup_lookup l i j a Hnd Hi Hj). lia.
Qed.

(** A graph that has a topological order has no cycle. *)
Lemma topological_order_acyclic (g : graph) (n : Z) (l : list Z) :
  topological_order g n l → ¬ has_cycle g n.
Proof.
  intros [Hperm Hedge] [v Hv].
  assert (NoDup l) as Hnd by (rewrite Hperm; apply py_range_NoDup).
  assert (∀ a b, tc (edge g n) a b → before l a b) as Htc.
  { intros a b Hab. induction Hab as [a b Hab|a b c Hab _ IH]; [auto|].
    eapply before_trans; eauto. }
  by eapply before_irrefl, Htc.
Qed.

(** ** Colours *)

Lemma colored_get (n : Z) (color : list Color) (v : Z) :
  length color = Z.to_nat n → vertex n v →
  ∃ c, colored color c v ∧ py_get color v = Ok c.
Proof.
  intros Hlen Hv. unfold vertex in Hv.
  destruct (py_get_total color v) as (c & Hc & Hget); [unfold py_len; lia|].
  by exists c.
Qed.

Lemma colored_set (n : Z) (color : list Color) (v : Z) (c : Color) :
  length color = Z.to_nat n → vertex n v →
  py_set color v c = Ok (<[Z.to_nat v := c]> color).
Proof. intros Hlen Hv. apply py_set_vertex. unfold vertex, py_len in *. lia. Qed.

Lemma colored_insert (n : Z) (color : list Color) (v w : Z) (c c' : Color) :
  length color = Z.to_nat n → vertex n v → vertex n w →
  colored (<[Z.to_nat v := c]> color) c' w ↔
  (w = v ∧ c' = c) ∨ (w ≠ v ∧ colored color c' w).
Proof.
  intros Hlen Hv Hw. unfold colored, vertex in *.
  destruct (decide (v = w)) as [->|Hne].
  - rewrite list_lookup_insert_eq by lia. naive_solver.
  - rewrite list_lookup_insert_ne by lia. naive_solver.
Qed.

Lemma colored_inj (color : list Color) (c c' : Color) (v : Z) :
  colored color c v → colored color c' v → c = c'.
Proof. unfold colored. congruence. Qed.

Lemma whites_insert (color : list Color) (k : nat) (c c' : Color) :
  color !! k = Some c →
  (whites (<[k := c']> color) + (if bool_decide (c = WHITE) then 1 else 0) =
   whites color + (if bool_decide (c' = WHITE) then 1 else 0))%nat.
Proof.
  intros Hk. unfold whites. rewrite length_insert.
  apply (mass_insert (λ c, bool_decide (c = WHITE))); [done|].
  apply lookup_replicate_2. by eapply lookup_lt_Some.
Qed.

Lemma whites_length (color : list Color) : (whites color ≤ length color)%nat.
Proof.
  unfold whites. induction color as [|c color IH]; simpl; [lia|].
  case_bool_decide; lia.
Qed.

(** ** Topological sort by three-colour depth-first search *)

Section topo_dfs.
Context (g : graph) (n : Z) (Hwf : wf_graph g n).

Lemma topo_inv_black_mono (color color' : list Color) (result result' : list Z) (w : Z) :
  topo_inv g n color result → topo_inv g n color' result' → result ⊆ result' →
  vertex n w → colored color BLACK w → colored color' BLACK w.
Proof.
  intros (_ & _ & _ & Hb & _) (_ & _ & _ & Hb' & _) Hsub Hw Hc.
  apply Hb'; [done|]. apply Hsub. by apply Hb.
Qed.

(** The loop over the neighbours [us] of the [GRAY] vertex [v], for any
    [rec] that behaves like the search whenever at most [f] vertices are
    [WHITE]. *)
Lemma topo_dfs_each_spec
    (rec : Z → list Color → list Z → res (bool * (list Color * list Z)))
    (f : nat) (v : Z) :
  (∀ u color result,
     topo_inv g n color result → vertex n u → colored color WHITE u →
     (whites color ≤ f)%nat →
     (∀ w, vertex n w → colored color GRAY w → reachable g n w u) →
     ∃ ok color' result',
       rec u color result = Ok (ok, (color', result')) ∧
       topo_dfs_post g n color result [u] ok color' result') →
  ∀ us color result,
    topo_inv g n color result → Forall (vertex n) us →
    (∀ u, u ∈ us → edge g n v u) →
    (whites color ≤ f)%nat →
    (∀ w, vertex n w → colored color GRAY w → reachable g n w v) →
    ∃ ok color' result',
      TopologicalSort.dfs_each rec us color result = Ok (ok, (color', result')) ∧
      topo_dfs_post g n color result us ok color' result'.
Proof.
  intros Hrec us color result Hinv Hus. revert color result Hinv.
  induction Hus as [|u us Hu Hus IH]; intros color result Hinv Hedge Hf Hgray.
  { exists true, color, result. split; [done|]. simpl.
    split_and!; [done..|set_solver]. }
  pose proof Hinv as (Hlen & _). simpl.
  destruct (colored_get n color u Hlen Hu) as (c & Hc & ->). simpl.
  destruct c; simpl.
  - (* WHITE *)
    destruct (Hrec u color result Hinv Hu Hc Hf) as (ok1 & color1 & result1 & -> & Hpost1).
    { intros w Hw Hcw. eapply rtc_r; [by apply Hgray|]. apply Hedge. set_solver. }
    simpl. destruct ok1; simpl in *; [|by exists false, color1, result1].
    destruct Hpost1 as (Hinv1 & Hgray1 & Hwh1 & Hsub1 & Hroot1).
    destruct (IH color1 result1 Hinv1) as (ok & color' & result' & -> & Hpost).
    + intros u' Hu'. apply Hedge. set_solver.
    + lia.
    + intros w Hw Hcw. apply Hgray; [done|]. by apply Hgray1.
    + exists ok, color', result'. split; [done|].
      destruct ok; simpl in *; [|done].
      destruct Hpost as (Hinv' & Hgray' & Hwh' & Hsub' & Hroot').
      split_and!; [done| |lia|set_solver|].
      * intros w Hw. by rewrite Hgray', Hgray1.
      * intros u' [->|?]%elem_of_cons; [|auto].
        eapply topo_inv_black_mono; [exact Hinv1|done..|]. apply Hroot1. set_solver.
  - (* GRAY *)
    exists false, color, result. split; [done|]. simpl. exists v.
    apply (tc_rtc_r v u v); [apply tc_once, Hedge; set_solver|].
    by apply Hgray.
  - (* BLACK *)
    destruct (IH color result Hinv) as (ok & color' & result' & -> & Hpost).
    + intros u' Hu'. apply Hedge. set_solver.
    + done.
    + done.
    + exists ok, color', result'. split; [done|].
      destruct ok; simpl in *; [|done].
      destruct Hpost as (Hinv' & Hgray' & Hwh' & Hsub' & Hroot').
      split_and!; [done..|].
      intros u' [->|?]%elem_of_cons; [|auto].
      by apply (topo_inv_black_mono color color' result result').
Qed.

Lemma topo_dfs_spec (fuel : nat) (v : Z) (color : list Color) (result : list Z) :
  topo_inv g n color result → vertex n v → colored color WHITE v →
  (whites color ≤ fuel)%nat →
  (∀ w, vertex n w → colored color GRAY w → reachable g n w v) →
  ∃ ok color' result',
    TopologicalSort.dfs fuel g v color result = Ok (ok, (color', result')) ∧
    topo_dfs_post g n color result [v] ok color' result'.
Proof.
  revert v color result.
  induction fuel as [|fuel IH]; intros v color result Hinv Hv Hc Hfuel Hgray.
  { exfalso. pose proof (whites_insert color _ WHITE GRAY Hc) as H.
    simpl in H. lia. }
  pose proof Hinv as (Hlen & Hnd & Hvert & Hblack & Hord).
  simpl. rewrite (colored_set n) by done. simpl.
  rewrite (py_get_adj g n v Hwf Hv). simpl.
  set (color1 := <[Z.to_nat v := GRAY]> color).
  assert (length color1 = Z.to_nat n) as Hlen1
    by (unfold color1; by rewrite length_insert).
  assert (∀ w c, vertex n w →
            (colored color1 c w ↔ (w = v ∧ c = GRAY) ∨ (w ≠ v ∧ colored color c w)))
    as Hcol1.
  { intros w c Hw. by apply (colored_insert n). }
  assert (whites color1 + 1 = whites color)%nat as Hwh1.
  { pose proof (whites_insert color _ WHITE GRAY Hc) as H. simpl in H.
    fold color1 in H. lia. }
  assert (topo_inv g n color1 result) as Hinv1.
  { split_and!; [done..| |done]. intros w Hw. rewrite Hcol1 by done.
    rewrite <- Hblack by done. split; [naive_solver|].
    intros Hb. right. split; [|done]. intros ->.
    by pose proof (colored_inj _ _ _ _ Hb Hc). }
  destruct (topo_dfs_each_spec (TopologicalSort.dfs fuel g) fuel v)
    with (us := adj g v) (color := color1) (result := result)
    as (ok & color2 & result2 & -> & Hpost).
  { intros u col res ? ? ? ? ?. by apply IH. }
  { done. }
  { by apply adj_vertex. }
  { intros u Hu. by split. }
  { lia. }
  { intros w Hw [[-> _]|[_ Hcw]]%Hcol1; [apply rtc_refl|by apply Hgray|done]. }
  simpl. destruct ok; simpl in *; [|by exists false, color2, result2].
  destruct Hpost as (Hinv2 & Hgray2 & Hwh2 & Hsub2 & Hroot2).
  pose proof Hinv2 as (Hlen2 & Hnd2 & Hvert2 & Hblack2 & Hord2).
  rewrite (colored_set n) by done. simpl.
  exists true, (<[Z.to_nat v := BLACK]> color2), (result2 ++ [v]). split; [done|].
  assert (colored color2 GRAY v) as Hv2.
  { apply Hgray2; [done|]. apply Hcol1; auto. }
  assert (v ∉ result2) as Hfresh.
  { intros Hin. apply Hblack2 in Hin; [|done].
    by pose proof (colored_inj _ _ _ _ Hin Hv2). }
  simpl. split_and!.
  - split_and!.
    + by rewrite length_insert.
    + apply NoDup_app. split_and!; [done| |apply NoDup_singleton].
      intros w Hw ->%list_elem_of_singleton. done.
    + apply Forall_app. split; [done|by apply Forall_singleton].
    + intros w Hw. rewrite (colored_insert n) by done.
      rewrite elem_of_app, list_elem_of_singleton, <- Hblack2 by done.
      destruct (decide (w = v)); naive_solver.
    + intros a b [Ha|Ha%list_elem_of_singleton]%elem_of_app Hab.
      * by apply before_app_l, Hord2.
      * subst a. apply before_snoc. destruct Hab as [_ Hab].
        apply Hblack2; [|by apply Hroot2].
        pose proof (adj_vertex g n v Hwf) as Hadj.
        rewrite Forall_forall in Hadj. auto.
  - intros w Hw. rewrite (colored_insert n) by done.
    rewrite Hgray2, Hcol1 by done. split.
    + intros [[_ ?]|[? [[? _]|[_ ?]]]]; done.
    + intros Hcw. right. split.
      * intros ->. by pose proof (colored_inj _ _ _ _ Hcw Hc).
      * right. split; [|done]. intros ->. by pose proof (colored_inj _ _ _ _ Hcw Hc).
  - pose proof (whites_insert color2 _ GRAY BLACK Hv2) as H. simpl in H. lia.
  - set_solver.
  - intros u ->%list_elem_of_singleton. apply (colored_insert n); auto.
Qed.

Lemma topo_starts_each_spec (fuel : nat) (starts : list Z)
    (color : list Color) (result : list Z) :
  topo_inv g n color result → Forall (vertex n) starts →
  (whites color ≤ fuel)%nat →
  (∀ w, vertex n w → ¬ colored color GRAY w) →
  ∃ ok color' result',
    TopologicalSort.starts_each fuel g starts color result
      = Ok (ok, (color', result')) ∧
    topo_dfs_post g n color result starts ok color' result'.
Proof.
  intros Hinv Hstarts. revert color result Hinv.
  induction Hstarts as [|u us Hu Hus IH]; intros color result Hinv Hf Hgray.
  { exists true, color, result. split; [done|]. simpl.
    split_and!; [done..|set_solver]. }
  pose proof Hinv as (Hlen & _). simpl.
  destruct (colored_get n color u Hlen Hu) as (c & Hc & ->). simpl.
  destruct c; simpl.
  - destruct (topo_dfs_spec fuel u color result Hinv Hu Hc Hf)
      as (ok1 & color1 & result1 & -> & Hpost1).
    { intros w Hw Hcw. by apply Hgray in Hcw. }
    simpl. destruct ok1; simpl in *; [|by exists false, color1, result1].
    destruct Hpost1 as (Hinv1 & Hgray1 & Hwh1 & Hsub1 & Hroot1).
    destruct (IH color1 result1 Hinv1) as (ok & color' & result' & -> & Hpost).
    + lia.
    + intros w Hw Hcw%Hgray1; [|done]. by apply Hgray in Hcw.
    + exists ok, color', result'. split; [done|].
      destruct ok; simpl in *; [|done].
      destruct Hpost as (Hinv' & Hgray' & Hwh' & Hsub' & Hroot').
      split_and!; [done| |lia|set_solver|].
      * intros w Hw. by rewrite Hgray', Hgray1.
      * intros u' [->|?]%elem_of_cons; [|auto].
        apply (topo_inv_black_mono color1 color' result1 result'); [done..|].
        apply Hroot1. set_solver.
  - by apply Hgray in Hc.
  - destruct (IH color result Hinv Hf Hgray) as (ok & color' & result' & -> & Hpost).
    exists ok, color', result'. split; [done|].
    destruct ok; simpl in *; [|done].
    destruct Hpost as (Hinv' & Hgray' & Hwh' & Hsub' & Hroot').
    split_and!; [done..|].
    intros u' [->|?]%elem_of_cons; [|auto].
    by apply (topo_inv_black_mono color color' result result').
Qed.

Lemma topological_sort_dfs_spec (fuel : nat) :
  (Z.to_nat n ≤ fuel)%nat →
  ∃ r, TopologicalSort.topological_sort_dfs fuel g n = Ok r ∧
       match r with
       | Some l => topological_order g n l
       | None => has_cycle g n
       end.
Proof.
  intros Hfuel. unfold TopologicalSort.topological_sort_dfs.
  destruct (topo_starts_each_spec fuel (py_range n) (py_repeat WHITE n) [])
    as (ok & color & result & -> & Hpost).
  - split_and!.
    + apply py_repeat_length.
    + constructor.
    + constructor.
    + intros w Hw. unfold colored. rewrite py_repeat_lookup by done. set_solver.
    + set_solver.
  - apply Forall_forall. intros v. apply py_range_elem.
  - pose proof (whites_length (py_repeat WHITE n)) as Hle.
    rewrite py_repeat_length in Hle. lia.
  - intros w Hw. unfold colored. by rewrite py_repeat_lookup.
  - simpl. destruct ok; simpl in *; [|by exists None].
    exists (Some (reverse result)). split; [done|].
    destruct Hpost as ((_ & Hnd & Hvert & Hblack & Hord) & _ & _ & _ & Hroot).
    assert (∀ v, v ∈ result ↔ vertex n v) as Hall.
    { intros v. split.
      - rewrite Forall_forall in Hvert. apply Hvert.
      - intros Hv. apply Hblack; [done|]. by apply Hroot, py_range_elem. }
    split.
    + rewrite reverse_Permutation. by apply vertices_all_Permutation.
    + intros a b Hab. apply before_reverse, Hord; [|done].
      apply Hall. by destruct Hab.
Qed.

End topo_dfs.

(** ** Counting edges *)

Lemma occurrences_nonneg (u : Z) (us : list Z) : 0 ≤ occurrences u us.
Proof. induction us as [|x us IH]; simpl; [lia|]. case_bool_decide; lia. Qed.

Lemma occurrences_pos (u : Z) (us : list Z) : 0 < occurrences u us ↔ u ∈ us.
Proof.
  induction us as [|x us IH]; simpl.
  - rewrite elem_of_nil. lia.
  - pose proof (occurrences_nonneg u us). rewrite elem_of_cons.
    case_bool_decide; [subst; split; [auto|lia]|]. rewrite <- IH.
    split; [intros; right; lia|]. intros [->|?]; [done|lia].
Qed.

Lemma inflow_nonneg (g : graph) (ws : list Z) (u : Z) : 0 ≤ inflow g ws u.
Proof.
  induction ws as [|w ws IH]; simpl; [lia|].
  pose proof (occurrences_nonneg u (adj g w)). lia.
Qed.

Lemma inflow_app (g : graph) (ws ws' : list Z) (u : Z) :
  inflow g (ws ++ ws') u = inflow g ws u + inflow g ws' u.
Proof. induction ws as [|w ws IH]; simpl; lia. Qed.

Lemma inflow_Permutation (g : graph) (ws ws' : list Z) (u : Z) :
  ws ≡ₚ ws' → inflow g ws u = inflow g ws' u.
Proof. induction 1; simpl; lia. Qed.

Lemma inflow_pos (g : graph) (ws : list Z) (u : Z) :
  0 < inflow g ws u → ∃ w, w ∈ ws ∧ u ∈ adj g w.
Proof.
  induction ws as [|w ws IH]; simpl; [lia|]. intros Hpos.
  destruct (decide (0 < occurrences u (adj g w))) as [Hw|Hw].
  - exists w. split; [set_solver|]. by apply occurrences_pos.
  - destruct IH as (w' & ? & ?); [lia|]. exists w'. set_solver.
Qed.

Lemma inflow_zero (g : graph) (ws : list Z) (u w : Z) :
  inflow g ws u = 0 → w ∈ ws → u ∉ adj g w.
Proof.
  induction ws as [|w' ws IH]; simpl; [set_solver|]. intros Hz Hw.
  pose proof (occurrences_nonneg u (adj g w')). pose proof (inflow_nonneg g ws u).
  apply elem_of_cons in Hw as [->|Hw].
  - intros Hin%occurrences_pos. lia.
  - apply IH; [lia|done].
Qed.

(** The vertices outside a duplicate-free list of vertices. *)
Lemma vertices_complement (n : Z) (l : list Z) :
  NoDup l → Forall (vertex n) l →
  ∃ rest, py_range n ≡ₚ l ++ rest ∧ ∀ v, v ∈ rest ↔ vertex n v ∧ v ∉ l.
Proof.
  intros Hnd Hall.
  destruct (submseteq_Permutation l (py_range n)) as [rest Hrest];
    [by apply vertices_submseteq|].
  exists rest. split; [done|]. intros v.
  pose proof (py_range_NoDup n) as Hnd'. rewrite Hrest in Hnd'.
  apply NoDup_app in Hnd' as (_ & Hdisj & _).
  rewrite <- py_range_elem, Hrest, elem_of_app. split.
  - intros Hv. split; [auto|]. intros Hl. by apply (Hdisj v).
  - intros [[?|?] ?]; done.
Qed.

Section inflow.
Context (g : graph) (n : Z) (l : list Z).
Context (Hnd : NoDup l) (Hall : Forall (vertex n) l).

Lemma inflow_le (u : Z) : inflow g l u ≤ inflow g (py_range n) u.
Proof.
  destruct (vertices_complement n l Hnd Hall) as (rest & Hperm & _).
  rewrite (inflow_Permutation g _ _ u Hperm), inflow_app.
  pose proof (inflow_nonneg g rest u). lia.
Qed.

(** When all the edges into [u] leave [l], so do all its predecessors. *)
Lemma inflow_full (u a : Z) :
  inflow g l u = inflow g (py_range n) u → edge g n a u → a ∈ l.
Proof.
  destruct (vertices_complement n l Hnd Hall) as (rest & Hperm & Hrest).
  rewrite (inflow_Permutation g _ _ u Hperm), inflow_app.
  intros Heq [Ha Hau]. destruct (decide (a ∈ l)) as [|Hnin]; [done|].
  exfalso. eapply (inflow_zero g rest u a); [lia| |done]. by apply Hrest.
Qed.

(** When some edge into [u] does not leave [l], [u] has a predecessor
    outside [l]. *)
Lemma inflow_missing (u : Z) :
  inflow g l u < inflow g (py_range n) u → ∃ a, edge g n a u ∧ a ∉ l.
Proof.
  destruct (vertices_complement n l Hnd Hall) as (rest & Hperm & Hrest).
  rewrite (inflow_Permutation g _ _ u Hperm), inflow_app.
  intros Hlt. destruct (inflow_pos g rest u) as (a & Ha & Hau); [lia|].
  apply Hrest in Ha as [Ha Hnin]. exists a. by split.
Qed.

End inflow.

(** If every vertex of a non-empty set has a predecessor in the set, the
    graph has a cycle. *)
Lemma predecessor_cycle (g : graph) (n : Z) (stuck : Z → Prop) :
  (∀ u, stuck u → vertex n u ∧ ∃ a, stuck a ∧ edge g n a u) →
  ∀ u, stuck u → has_cycle g n.
Proof.
  intros Hpred.
  assert (∀ (k : nat) (l : list Z) (h : Z),
            stuck h → NoDup l → Forall (vertex n) l →
            (∀ x, x ∈ l → reachable g n h x) →
            (Z.to_nat n < length l + k)%nat → has_cycle g n) as Hgrow.
  { induction k as [|k IH]; intros l h Hh Hnd Hall Hreach Hlen.
    - pose proof (vertices_length n l Hnd Hall). lia.
    - destruct (Hpred h Hh) as (_ & a & Ha & Hah).
      destruct (decide (a ∈ l)) as [Hin|Hnin].
      + exists a. apply (tc_rtc_r a h a); [by apply tc_once|by apply Hreach].
      + apply (IH (a :: l) a); [done| | | |simpl; lia].
        * by constructor.
        * constructor; [by destruct Hah|done].
        * intros x [->|Hx]%elem_of_cons; [apply rtc_refl|].
          eapply rtc_l; [exact Hah|by apply Hreach]. }
  intros u Hu. apply (Hgrow (Z.to_nat n) [u] u); [done|apply NoDup_singleton| | |simpl; lia].
  - apply Forall_singleton. by destruct (Hpred u Hu).
  - intros x ->%list_elem_of_singleton. apply rtc_refl.
Qed.

Lemma vertices_missing (n : Z) (l : list Z) :
  NoDup l → Forall (vertex n) l → length l ≠ Z.to_nat n →
  ∃ v, vertex n v ∧ v ∉ l.
Proof.
  intros Hnd Hall Hlen.
  destruct (vertices_complement n l Hnd Hall) as ([|v rest] & Hperm & Hrest).
  - exfalso. apply Hlen. rewrite app_nil_r in Hperm.
    by rewrite <- Hperm, py_range_length.
  - exists v. apply Hrest. set_solver.
Qed.

(** ** Topological sort by Kahn's algorithm *)

Lemma deg_get (n : Z) (in_degree : list Z) (u : Z) :
  length in_degree = Z.to_nat n → vertex n u →
  py_get in_degree u = Ok (deg in_degree u).
Proof.
  intros Hlen Hu. unfold vertex in Hu.
  destruct (py_get_total in_degree u) as (d & Hd & ->); [unfold py_len; lia|].
  unfold deg. by rewrite Hd.
Qed.

Lemma deg_set (n : Z) (in_degree : list Z) (u x : Z) :
  length in_degree = Z.to_nat n → vertex n u →
  py_set in_degree u x = Ok (<[Z.to_nat u := x]> in_degree).
Proof. intros Hlen Hu. apply py_set_vertex. unfold vertex, py_len in *. lia. Qed.

Lemma deg_insert (n : Z) (in_degree : list Z) (u w x : Z) :
  length in_degree = Z.to_nat n → vertex n u → vertex n w →
  deg (<[Z.to_nat u := x]> in_degree) w = if decide (w = u) then x else deg in_degree w.
Proof.
  intros Hlen Hu Hw. unfold deg, vertex in *. case_decide as Heq.
  - subst w. rewrite list_lookup_insert_eq by lia. done.
  - rewrite list_lookup_insert_ne by lia. done.
Qed.

Section kahn.
Context (g : graph) (n : Z) (Hwf : wf_graph g n).

Lemma kahn_count_each_spec (us : list Z) (in_degree : list Z) :
  length in_degree = Z.to_nat n → Forall (vertex n) us →
  ∃ in_degree',
    TopologicalSort.count_each us in_degree = Ok in_degree' ∧
    length in_degree' = Z.to_nat n ∧
    ∀ u, vertex n u → deg in_degree' u = deg in_degree u + occurrences u us.
Proof.
  intros Hlen Hus. revert in_degree Hlen.
  induction Hus as [|x us Hx _ IH]; intros in_degree Hlen.
  { exists in_degree. split_and!; [done..|]. intros; simpl; lia. }
  simpl. rewrite (deg_get n) by done. simpl.
  rewrite (deg_set n) by done. simpl.
  destruct (IH (<[Z.to_nat x := deg in_degree x + 1]> in_degree))
    as (in_degree' & -> & Hlen' & Hdeg); [by rewrite length_insert|].
  exists in_degree'. split_and!; [done..|].
  intros u Hu. rewrite Hdeg by done. rewrite (deg_insert n) by done.
  case_decide; case_bool_decide; simplify_eq; lia.
Qed.

Lemma kahn_count_all_spec (vs : list Z) (in_degree : list Z) :
  length in_degree = Z.to_nat n → Forall (vertex n) vs →
  ∃ in_degree',
    TopologicalSort.count_all g vs in_degree = Ok in_degree' ∧
    length in_degree' = Z.to_nat n ∧
    ∀ u, vertex n u → deg in_degree' u = deg in_degree u + inflow g vs u.
Proof.
  intros Hlen Hvs. revert in_degree Hlen.
  induction Hvs as [|v vs Hv _ IH]; intros in_degree Hlen.
  { exists in_degree. split_and!; [done..|]. intros; simpl; lia. }
  simpl. rewrite (py_get_adj g n v Hwf Hv). simpl.
  destruct (kahn_count_each_spec (adj g v) in_degree Hlen)
    as (in_degree1 & -> & Hlen1 & Hdeg1); [by apply adj_vertex|].
  simpl. destruct (IH in_degree1 Hlen1) as (in_degree' & -> & Hlen' & Hdeg').
  exists in_degree'. split_and!; [done..|].
  intros u Hu. rewrite Hdeg', Hdeg1 by done. lia.
Qed.

Lemma kahn_sources_spec (vs : list Z) (in_degree : list Z) :
  length in_degree = Z.to_nat n → Forall (vertex n) vs →
  TopologicalSort.sources vs in_degree
    = Ok (filter (λ v, deg in_degree v = 0) vs).
Proof.
  intros Hlen Hvs. induction Hvs as [|v vs Hv _ IH]; [done|].
  simpl. rewrite (deg_get n) by done. simpl. rewrite IH. simpl.
  rewrite filter_cons. case_bool_decide; case_decide; done.
Qed.

Lemma kahn_release_each_spec (processed us : list Z) (in_degree queue : list Z) :
  kahn_scan_inv g n processed us in_degree queue → Forall (vertex n) us →
  ∃ in_degree' new,
    TopologicalSort.release_each us in_degree queue = Ok (in_degree', queue ++ new) ∧
    kahn_scan_inv g n processed [] in_degree' (queue ++ new).
Proof.
  intros Hinv Hus. revert in_degree queue Hinv.
  induction Hus as [|u us Hu _ IH]; intros in_degree queue Hinv.
  { exists in_degree, []. by rewrite app_nil_r. }
  destruct Hinv as (Hlen & Hndq & Hallq & Hndp & Hsub & Hdeg & Hzero & Hord).
  assert (Forall (vertex n) processed) as Hallp.
  { rewrite Forall_forall in Hallq |- *. auto. }
  set (d := deg in_degree u).
  set (in_degree1 := <[Z.to_nat u := d - 1]> in_degree).
  assert (length in_degree1 = Z.to_nat n) as Hlen1
    by (unfold in_degree1; by rewrite length_insert).
  assert (∀ w, vertex n w →
            deg in_degree1 w = if decide (w = u) then d - 1 else deg in_degree w)
    as Hdeg1.
  { intros w Hw. by apply (deg_insert n). }
  pose proof (Hdeg u Hu) as Hdu. simpl in Hdu.
  rewrite bool_decide_eq_true_2 in Hdu by done. fold d in Hdu.
  pose proof (inflow_le g n processed Hndp Hallp u) as Hle.
  pose proof (occurrences_nonneg u us) as Hocc.
  assert (u ∉ queue) as Hfresh.
  { intros Hin. apply Hzero in Hin; [|done]. fold d in Hin. lia. }
  assert (∀ w, vertex n w →
            deg in_degree1 w + inflow g processed w
            = inflow g (py_range n) w + occurrences w us) as Hdeg'.
  { intros w Hw. rewrite Hdeg1 by done. specialize (Hdeg w Hw). simpl in Hdeg.
    unfold d. destruct (decide (w = u)) as [->|Hne].
    - rewrite bool_decide_eq_true_2 in Hdeg by done. lia.
    - rewrite bool_decide_eq_false_2 in Hdeg by done. lia. }
  simpl. rewrite (deg_get n) by done. simpl. fold d.
  rewrite (deg_set n) by done. simpl. fold in_degree1.
  rewrite (deg_get n) by done. simpl.
  rewrite (Hdeg1 u Hu), decide_True by done.
  case_bool_decide as Hd.
  - destruct (IH in_degree1 (queue ++ [u])) as (in_degree' & new & -> & Hinv').
    { split_and!; [done| | |done| |done| |].
      - apply NoDup_app. split_and!; [done| |apply NoDup_singleton].
        intros w Hw ->%list_elem_of_singleton. done.
      - apply Forall_app. split; [done|by apply Forall_singleton].
      - set_solver.
      - intros w Hw. rewrite (Hdeg1 w Hw), elem_of_app, list_elem_of_singleton.
        rewrite Hzero by done. destruct (decide (w = u)); [subst; tauto|]. tauto.
      - intros a b [Hb|Hb%list_elem_of_singleton]%elem_of_app Hab.
        + by apply before_app_l, Hord.
        + subst b. apply before_snoc, Hsub.
          apply (inflow_full g n processed Hndp Hallp u a); [lia|done]. }
    exists in_degree', (u :: new). split; [|by rewrite <- app_assoc in Hinv'].
    by rewrite <- app_assoc.
  - apply (IH in_degree1 queue).
    split_and!; [done..| |done].
    intros w Hw. rewrite (Hdeg1 w Hw), Hzero by done.
    destruct (decide (w = u)); [subst|done]. fold d. split; [|done]. intros Hin; lia.
Qed.

Lemma kahn_step_spec (st : TopologicalSort.kahn_state) :
  kahn_inv g n st →
  TopologicalSort.kahn_idx st < py_len (TopologicalSort.kahn_queue st) →
  ∃ st', TopologicalSort.step g st = Ok st' ∧ kahn_inv g n st' ∧
         TopologicalSort.kahn_idx st' = TopologicalSort.kahn_idx st + 1.
Proof.
  destruct st as [in_degree queue result idx]. unfold kahn_inv. simpl.
  intros ([Hidx0 _] & Hres & Hinv) Hidx.
  destruct Hinv as (Hlen & Hndq & Hallq & Hndp & Hsub & Hdeg & Hzero & Hord).
  destruct (py_get_total queue idx) as (v & Hv & Hget); [lia|].
  assert (vertex n v) as Hvert.
  { rewrite Forall_forall in Hallq. by eapply Hallq, list_elem_of_lookup_2. }
  assert (result ++ [v] = take (S (Z.to_nat idx)) queue) as Hres'.
  { rewrite Hres. symmetry. by apply take_S_r. }
  unfold TopologicalSort.step. simpl. rewrite Hget. simpl.
  rewrite (py_get_adj g n v Hwf Hvert). simpl.
  destruct (kahn_release_each_spec (result ++ [v]) (adj g v) in_degree queue)
    as (in_degree' & new & -> & Hinv').
  { split_and!; [done..| | | |done|done].
    - rewrite Hres'. eapply sublist_NoDup; [exact Hndq|apply sublist_take].
    - rewrite Hres'. apply subseteq_take.
    - intros u Hu. rewrite inflow_app. simpl.
      specialize (Hdeg u Hu). simpl in Hdeg. lia. }
  { by apply adj_vertex. }
  simpl. eexists. split; [done|]. simpl. split; [|done].
  unfold py_len in *. rewrite length_app. split_and!; [lia..| |done].
  replace (Z.to_nat (idx + 1)) with (S (Z.to_nat idx)) by lia.
  rewrite take_app_le by lia. done.
Qed.

Lemma kahn_while_spec (fuel : nat) (st : TopologicalSort.kahn_state) :
  kahn_inv g n st →
  (Z.to_nat n - Z.to_nat (TopologicalSort.kahn_idx st) ≤ fuel)%nat →
  ∃ st', TopologicalSort.while fuel g st = Ok st' ∧ kahn_inv g n st' ∧
         TopologicalSort.kahn_idx st' = py_len (TopologicalSort.kahn_queue st').
Proof.
  revert st. induction fuel as [|fuel IH]; intros st Hinv Hfuel.
  - assert (¬ TopologicalSort.kahn_idx st < py_len (TopologicalSort.kahn_queue st))
      as Hdone.
    { destruct Hinv as (Hidx & _ & _ & Hnd & Hall & _).
      pose proof (vertices_length n _ Hnd Hall). unfold py_len in *. lia. }
    exists st. simpl. rewrite bool_decide_eq_false_2 by done.
    split_and!; [done..|]. destruct Hinv as (Hidx & _). lia.
  - simpl. case_bool_decide as Hidx.
    + destruct (kahn_step_spec st Hinv Hidx) as (st' & -> & Hinv' & Hidx').
      simpl. apply IH; [done|]. rewrite Hidx'.
      destruct Hinv as (? & _). lia.
    + exists st. split_and!; [done..|]. destruct Hinv as (? & _). lia.
Qed.

Lemma topological_sort_kahn_spec (fuel : nat) :
  (Z.to_nat n ≤ fuel)%nat →
  ∃ r, TopologicalSort.topological_sort_kahn fuel g n = Ok r ∧
       match r with
       | Some l => topological_order g n l
       | None => has_cycle g n
       end.
Proof.
  intros Hfuel. unfold TopologicalSort.topological_sort_kahn.
  assert (Forall (vertex n) (py_range n)) as Hrange.
  { apply Forall_forall. intros v. apply py_range_elem. }
  destruct (kahn_count_all_spec (py_range n) (py_repeat 0 n))
    as (in_degree & -> & Hlen & Hdeg); [apply py_repeat_length|done|].
  simpl. rewrite (kahn_sources_spec _ _ Hlen Hrange). simpl.
  assert (∀ u, vertex n u → deg in_degree u = inflow g (py_range n) u) as Hdeg0.
  { intros u Hu. rewrite Hdeg by done. unfold deg.
    rewrite py_repeat_lookup by done. simpl. lia. }
  set (queue := filter (λ v, deg in_degree v = 0) (py_range n)).
  destruct (kahn_while_spec fuel (TopologicalSort.KahnState in_degree queue [] 0))
    as ([in_degree' queue' result idx] & -> & Hinv & Hidx).
  { unfold kahn_inv. simpl. split_and!; [lia|unfold py_len; lia|done|].
    split_and!.
    - done.
    - apply NoDup_filter, py_range_NoDup.
    - apply Forall_forall. intros v [_ Hv%py_range_elem]%list_elem_of_filter. done.
    - constructor.
    - set_solver.
    - intros u Hu. rewrite Hdeg0 by done. simpl. lia.
    - intros u Hu. unfold queue. rewrite list_elem_of_filter, py_range_elem. tauto.
    - intros a b Hb Hab. exfalso.
      apply list_elem_of_filter in Hb as [Hb Hbv%py_range_elem].
      rewrite Hdeg0 in Hb by done.
      assert (a ∈ @nil Z) as Ha; [|by apply elem_of_nil in Ha].
      apply (inflow_full g n [] (NoDup_nil_2) (Forall_nil_2 _) b a); [simpl; lia|done]. }
  { simpl. lia. }
  simpl in *. destruct Hinv as (_ & Hres & Hinv). simpl in *.
  destruct Hinv as (_ & Hndq & Hallq & _ & _ & Hdeg' & Hzero & Hord).
  assert (result = queue') as ->.
  { rewrite Hres. apply take_ge. unfold py_len in Hidx. lia. }
  case_bool_decide as Hn.
  - exists (Some queue'). split; [done|].
    assert (queue' ≡ₚ py_range n) as Hperm.
    { apply submseteq_length_Permutation; [by apply vertices_submseteq|].
      rewrite py_range_length. unfold py_len in Hn. lia. }
    split; [done|]. intros a b Hab. apply Hord; [|done].
    rewrite Hperm. apply py_range_elem. by destruct (edge_vertex g n a b Hwf Hab).
  - exists None. split; [done|].
    destruct (vertices_missing n queue' Hndq Hallq) as (u0 & Hu0 & Hnin0).
    { destruct Hwf as (? & _). unfold py_len in Hn. lia. }
    apply (predecessor_cycle g n (λ u, vertex n u ∧ u ∉ queue')) with (u := u0);
      [|done].
    intros u [Hu Hnin]. split; [done|].
    specialize (Hdeg' u Hu). simpl in Hdeg'.
    pose proof (inflow_le g n queue' Hndq Hallq u) as Hle.
    assert (deg in_degree' u ≠ 0) as Hnz by (intros ?%Hzero; done).
    destruct (inflow_missing g n queue' Hndq Hallq u) as (a & Hau & Ha); [lia|].
    exists a. split; [|done]. split; [by destruct Hau|done].
Qed.

End kahn.

(** ** Monotonicity of the visited flags *)

Lemma flags_le_refl (visited : list bool) : flags_le visited visited.
Proof. by split. Qed.

Lemma flags_le_trans (v1 v2 v3 : list bool) :
  flags_le v1 v2 → flags_le v2 v3 → flags_le v1 v3.
Proof. intros [Hl1 H1] [Hl2 H2]. split; [congruence|auto]. Qed.

(** [visited[u] = True] keeps every flag that is set, for any index [u]. *)
Lemma py_set_flags_le (visited visited' : list bool) (u : Z) :
  py_set visited u true = Ok visited' → flags_le visited visited'.
Proof.
  intros (k & Hk & ->)%py_set_Ok. split; [by rewrite length_insert|].
  intros i Hi. destruct (decide (k = i)) as [->|Hne].
  - by rewrite list_lookup_insert_eq.
  - by rewrite list_lookup_insert_ne.
Qed.

Lemma bfs_scan_flags_le (us : list Z) (visited : list bool) (queue : list Z)
    (visited' : list bool) (queue' : list Z) :
  BfsUndirected.scan us visited queue = Ok (visited', queue') →
  flags_le visited visited'.
Proof.
  revert visited queue. induction us as [|u us IH]; intros visited queue.
  { intros [= <- _]. apply flags_le_refl. }
  simpl. intros (b & _ & Hrest)%bind_Ok. destruct b; simpl in Hrest; [by eapply IH|].
  apply bind_Ok in Hrest as (visited1 & Hset%py_set_flags_le & Hrest%IH).
  by eapply flags_le_trans.
Qed.

Lemma bfs_step_flags_le (g : graph) (st st' : bfs_state) :
  BfsUndirected.step g st = Ok st' →
  flags_le (bfs_visited st) (bfs_visited st').
Proof.
  unfold BfsUndirected.step. destruct st as [order visited [|v queue]]; simpl.
  { intros [= <-]. apply flags_le_refl. }
  intros (us & _ & ([visited' queue'] & Hscan & [= <-])%bind_Ok)%bind_Ok.
  simpl. by eapply bfs_scan_flags_le.
Qed.

Lemma bfs_while_flags_le (fuel : nat) (g : graph) (st st' : bfs_state) :
  BfsUndirected.while fuel g st = Ok st' →
  flags_le (bfs_visited st) (bfs_visited st').
Proof.
  intros [Hrtc _]%bfs_while_rtc.
  induction Hrtc as [|st st1 st' [_ Hstep] _ IH]; [apply flags_le_refl|].
  eapply flags_le_trans; [by eapply bfs_step_flags_le|done].
Qed.

Lemma bfs_component_flags_le (fuel : nat) (g : graph) (start : Z)
    (order : list Z) (visited : list bool) (order' : list Z) (visited' : list bool) :
  BfsUndirected.component fuel g start order visited = Ok (order', visited') →
  flags_le visited visited'.
Proof.
  unfold BfsUndirected.component. intros (b & _ & Hrest)%bind_Ok.
  destruct b; [injection Hrest as _ <-; apply flags_le_refl|].
  apply bind_Ok in Hrest as (visited1 & Hset%py_set_flags_le & Hrest).
  apply bind_Ok in Hrest as (st & Hwhile%bfs_while_flags_le & [= _ <-]).
  by eapply flags_le_trans.
Qed.

Lemma bfs_components_flags_le (fuel : nat) (g : graph) (starts : list Z)
    (order : list Z) (visited : list bool) (order' : list Z) (visited' : list bool) :
  BfsUndirected.components fuel g starts order visited = Ok (order', visited') →
  flags_le visited visited'.
Proof.
  revert order visited. induction starts as [|start starts IH]; intros order visited.
  { intros [= _ <-]. apply flags_le_refl. }
  simpl. intros ([order1 visited1] & H1%bfs_component_flags_le & Hrest%IH)%bind_Ok.
  by eapply flags_le_trans.
Qed.

Lemma dfs_step_flags_le (g : graph) (st st' : dfs_state) :
  DfsUndirected.step g st = Ok st' →
  flags_le (dfs_visited st) (dfs_visited st').
Proof.
  unfold DfsUndirected.step. destruct st as [order visited [|v stack]]; simpl.
  { intros [= <-]. apply flags_le_refl. }
  intros (b & _ & Hrest)%bind_Ok.
  destruct b; [injection Hrest as <-; apply flags_le_refl|].
  apply bind_Ok in Hrest as (visited1 & Hset%py_set_flags_le & Hrest).
  apply bind_Ok in Hrest as (us & _ & (stack' & _ & [= <-])%bind_Ok). done.
Qed.

Lemma dfs_while_flags_le (fuel : nat) (g : graph) (st st' : dfs_state) :
  DfsUndirected.while fuel g st = Ok st' →
  flags_le (dfs_visited st) (dfs_visited st').
Proof.
  revert st. induction fuel as [|fuel IH]; intros [order visited stack];
    (destruct stack as [|v stack]; simpl;
     [intros [= <-]; apply flags_le_refl|]); [done|].
  intros (st1 & Hstep%dfs_step_flags_le & Hrest%IH)%bind_Ok.
  by eapply flags_le_trans.
Qed.

Lemma dfs_visit_each_flags_le
    (rec : Z → list bool → list Z → res (list bool * list Z)) :
  (∀ u visited order visited' order',
     rec u visited order = Ok (visited', order') → flags_le visited visited') →
  ∀ us visited order visited' order',
    DfsUndirected.visit_each rec us visited order = Ok (visited', order') →
    flags_le visited visited'.
Proof.
  intros Hrec us. induction us as [|u us IH]; intros visited order visited' order'.
  { intros [= <- _]. apply flags_le_refl. }
  simpl. intros (b & _ & Hrest)%bind_Ok. destruct b; simpl in Hrest; [by eapply IH|].
  apply bind_Ok in Hrest as ([visited1 order1] & Hcall%Hrec & Hrest%IH).
  by eapply flags_le_trans.
Qed.

Lemma dfs_recursive_flags_le (fuel : nat) (g : graph) (start : Z)
    (visited : list bool) (order : list Z) (visited' : list bool) (order' : list Z) :
  DfsUndirected.dfs_undirected_recursive fuel g start visited order
    = Ok (visited', order') →
  flags_le visited visited'.
Proof.
  revert start visited order visited' order'.
  induction fuel as [|fuel IH]; intros start visited order visited' order'; [done|].
  simpl. intros (visited1 & Hset%py_set_flags_le & (us & _ & Hloop)%bind_Ok)%bind_Ok.
  eapply flags_le_trans; [done|].
  eapply dfs_visit_each_flags_le; [|exact Hloop]. intros u vis o vis' o'. apply IH.
Qed.

(** ** The directed modules repeat the undirected ones *)

Lemma bfs_directed_undirected (fuel : nat) (g : graph) (start n : Z) :
  BfsDirected.bfs_directed fuel g start n
  = BfsUndirected.bfs_undirected fuel g start n.
Proof. reflexivity. Qed.

Lemma bfs_directed_all_undirected (fuel : nat) (g : graph) (n : Z) :
  BfsDirected.bfs_directed_all_reachable fuel g n
  = BfsUndirected.bfs_undirected_all_components fuel g n.
Proof. reflexivity. Qed.

Lemma dfs_directed_undirected_iterative (fuel : nat) (g : graph) (start n : Z) :
  DfsDirected.dfs_directed_iterative fuel g start n
  = DfsUndirected.dfs_undirected_iterative fuel g start n.
Proof. reflexivity. Qed.

Lemma dfs_directed_undirected_recursive (fuel : nat) (g : graph) (start : Z)
    (visited : list bool) (order : list Z) :
  DfsDirected.dfs_directed_recursive fuel g start visited order
  = DfsUndirected.dfs_undirected_recursive fuel g start visited order.
Proof. reflexivity. Qed.

Lemma dfs_directed_all_undirected (fuel : nat) (g : graph) (n : Z) :
  DfsDirected.dfs_directed_all_components fuel g n
  = DfsUndirected.dfs_undirected_all_components fuel g n.
Proof. reflexivity. Qed.

(** ** The scenarios of the modules' [__main__] blocks *)

Lemma example_undirected_wf : wf_graph example_undirected 5.
Proof. apply (bool_decide_unpack _). by vm_compute. Qed.

Lemma example_directed_wf : wf_graph example_directed 5.
Proof. apply (bool_decide_unpack _). by vm_compute. Qed.

Lemma example_dag_wf : wf_graph example_dag 6.
Proof. apply (bool_decide_unpack _). by vm_compute. Qed.

Lemma example_cycle_wf : wf_graph example_cycle 3.
Proof. apply (bool_decide_unpack _). by vm_compute. Qed.

Example example_bfs :
  BfsUndirected.bfs_undirected 5 example_undirected 0 5 = Ok [0; 1; 2; 3; 4].
Proof. reflexivity. Qed.

Example example_dfs_iterative :
  DfsUndirected.dfs_undirected_iterative 9 example_undirected 0 5
  = Ok [0; 1; 3; 2; 4].
Proof. reflexivity. Qed.

Example example_topological_sort :
  TopologicalSort.topological_sort_dfs 6 example_dag 6 = Ok (Some [5; 4; 2; 3; 1; 0]) ∧
  TopologicalSort.topological_sort_kahn 6 example_dag 6 = Ok (Some [4; 5; 2; 0; 3; 1]).
Proof. split; reflexivity. Qed.

Example example_topological_sort_cycle :
  TopologicalSort.topological_sort_dfs 3 example_cycle 3 = Ok None ∧
  TopologicalSort.topological_sort_kahn 3 example_cycle 3 = Ok None.
Proof. split; reflexivity. Qed.

Lemma example_dag_acyclic : ¬ has_cycle example_dag 6.
Proof.
  destruct (topological_sort_dfs_spec example_dag 6 example_dag_wf 6)
    as (r & Hr & Hspec); [lia|].
  destruct example_topological_sort as [Hrun _].
  rewrite Hrun in Hr. injection Hr as <-.
  by eapply topological_order_acyclic.
Qed.

Lemma example_cycle_cyclic : has_cycle example_cycle 3.
Proof.
  destruct (topological_sort_dfs_spec example_cycle 3 example_cycle_wf 3)
    as (r & Hr & Hspec); [lia|].
  destruct example_topological_sort_cycle as [Hrun _].
  rewrite Hrun in Hr. by injection Hr as <-.
Qed.

(** ** Distances *)

Lemma distance_unique (g : graph) (n : Z) (s v : Z) (k k' : nat) :
  distance g n s v k → distance g n s v k' → k = k'.
Proof.
  intros [Hk Hmin] [Hk' Hmin']. specialize (Hmin k' Hk'). specialize (Hmin' k Hk). lia.
Qed.

Lemma visits_reachable_length (g : graph) (n start : Z) (order l : list Z) :
  visits_reachable g n start order → visits_reachable g n start l →
  length order = length l.
Proof.
  intros [Hnd Hin] [Hnd' Hin']. apply Permutation_length.
  apply NoDup_Permutation; [done..|]. intros v. by rewrite Hin, Hin'.
Qed.

(** * The claims *)

(** C1: on a directed acyclic graph whose adjacency entries are all in
    [[0, n)], both [topological_sort_dfs] and [topological_sort_kahn] return
    a sequence that lists every vertex of [0..n-1] once and in which [a]
    appears before [b] for every edge [(a, b)]. *)
Theorem topological_sort_orders_dag (g : graph) (n : Z) (fuel : nat) :
  wf_graph g n → ¬ has_cycle g n → (Z.to_nat n ≤ fuel)%nat →
  ∃ l1 l2,
    TopologicalSort.topological_sort_dfs fuel g n = Ok (Some l1) ∧
    TopologicalSort.topological_sort_kahn fuel g n = Ok (Some l2) ∧
    topological_order g n l1 ∧ topological_order g n l2.
Proof.
  intros Hwf Hdag Hfuel.
  destruct (topological_sort_dfs_spec g n Hwf fuel Hfuel) as ([l1|] & Hr1 & H1); [|done].
  destruct (topological_sort_kahn_spec g n Hwf fuel Hfuel) as ([l2|] & Hr2 & H2); [|done].
  by exists l1, l2.
Qed.

Lemma topological_sort_orders_dag_witness :
  wf_graph example_dag 6 ∧ ¬ has_cycle example_dag 6 ∧ (Z.to_nat 6 ≤ 6)%nat ∧
  ∃ l1 l2,
    TopologicalSort.topological_sort_dfs 6 example_dag 6 = Ok (Some l1) ∧
    TopologicalSort.topological_sort_kahn 6 example_dag 6 = Ok (Some l2) ∧
    topological_order example_dag 6 l1 ∧ topological_order example_dag 6 l2.
Proof.
  assert (wf_graph example_dag 6) as Hwf
    by (apply (bool_decide_unpack _); by vm_compute).
  assert (Z.to_nat 6 ≤ 6)%nat as Hfuel by (vm_compute; lia).
  split_and!; [exact Hwf|exact example_dag_acyclic|exact Hfuel|].
  exact (topological_sort_orders_dag example_dag 6 6 Hwf example_dag_acyclic Hfuel).
Defined.

(** C2: on every directed graph whose adjacency entries are all in
    [[0, n)], [topological_sort_dfs] returns [None] if and only if
    [topological_sort_kahn] returns [None], and that happens if and only if
    the graph has a directed cycle. *)
Theorem topological_sort_failure_iff_cycle (g : graph) (n : Z) (fuel : nat) :
  wf_graph g n → (Z.to_nat n ≤ fuel)%nat →
  ∃ r1 r2,
    TopologicalSort.topological_sort_dfs fuel g n = Ok r1 ∧
    TopologicalSort.topological_sort_kahn fuel g n = Ok r2 ∧
    (r1 = None ↔ r2 = None) ∧
    (r1 = None ↔ has_cycle g n) ∧
    (r2 = None ↔ has_cycle g n).
Proof.
  intros Hwf Hfuel.
  destruct (topological_sort_dfs_spec g n Hwf fuel Hfuel) as (r1 & Hr1 & H1).
  destruct (topological_sort_kahn_spec g n Hwf fuel Hfuel) as (r2 & Hr2 & H2).
  exists r1, r2. split_and!; [done..| | |].
  - destruct r1 as [l1|], r2 as [l2|]; try done.
    + by apply topological_order_acyclic in H1.
    + by apply topological_order_acyclic in H2.
  - destruct r1 as [l1|]; [|done]. split; [done|].
    intros Hc. by apply topological_order_acyclic in H1.
  - destruct r2 as [l2|]; [|done]. split; [done|].
    intros Hc. by apply topological_order_acyclic in H2.
Qed.

Lemma topological_sort_failure_iff_cycle_witness :
  wf_graph example_cycle 3 ∧ (Z.to_nat 3 ≤ 3)%nat ∧
  ∃ r1 r2,
    TopologicalSort.topological_sort_dfs 3 example_cycle 3 = Ok r1 ∧
    TopologicalSort.topological_sort_kahn 3 example_cycle 3 = Ok r2 ∧
    (r1 = None ↔ r2 = None) ∧
    (r1 = None ↔ has_cycle example_cycle 3) ∧
    (r2 = None ↔ has_cycle example_cycle 3).
Proof.
  assert (wf_graph example_cycle 3) as Hwf
    by (apply (bool_decide_unpack _); by vm_compute).
  assert (Z.to_nat 3 ≤ 3)%nat as Hfuel by (vm_compute; lia).
  split_and!; [exact Hwf|exact Hfuel|].
  exact (topological_sort_failure_iff_cycle example_cycle 3 3 Hwf Hfuel).
Defined.

(** C3: for every graph whose adjacency entries are all in [[0, n)] and
    every start vertex in [[0, n)], each of [bfs_undirected],
    [dfs_undirected_iterative] and [dfs_undirected_recursive] (called with
    all-false [visited] and empty [order]) outputs exactly the vertices
    reachable from [start], each once; so the length of the output is the
    number of reachable vertices, that is the length of any duplicate-free
    enumeration of them. *)
Theorem traversals_visit_reachable_once (g : graph) (n start : Z) (fuel : nat) :
  wf_graph g n → vertex n start → (traversal_fuel g n ≤ fuel)%nat →
  ∃ o1 o2 visited o3,
    BfsUndirected.bfs_undirected fuel g start n = Ok o1 ∧
    DfsUndirected.dfs_undirected_iterative fuel g start n = Ok o2 ∧
    DfsUndirected.dfs_undirected_recursive fuel g start (py_repeat false n) []
      = Ok (visited, o3) ∧
    visits_reachable g n start o1 ∧
    visits_reachable g n start o2 ∧
    visits_reachable g n start o3 ∧
    ∀ l, visits_reachable g n start l →
         length o1 = length l ∧ length o2 = length l ∧ length o3 = length l.
Proof.
  intros Hwf Hstart Hfuel. unfold traversal_fuel in Hfuel.
  destruct (bfs_reaches g n Hwf fuel start Hstart) as (o1 & Hr1 & H1); [lia|].
  destruct (dfs_iterative_reaches g n Hwf fuel start Hstart) as (o2 & Hr2 & H2); [lia|].
  destruct (dfs_recursive_reaches g n Hwf fuel start Hstart)
    as (visited & o3 & Hr3 & H3); [lia|].
  exists o1, o2, visited, o3. split_and!; [done..|].
  intros l Hl. split_and!; by eapply visits_reachable_length.
Qed.

Lemma traversals_visit_reachable_once_witness :
  wf_graph example_undirected 5 ∧ vertex 5 0 ∧
  (traversal_fuel example_undirected 5 ≤ 14)%nat ∧
  ∃ o1 o2 visited o3,
    BfsUndirected.bfs_undirected 14 example_undirected 0 5 = Ok o1 ∧
    DfsUndirected.dfs_undirected_iterative 14 example_undirected 0 5 = Ok o2 ∧
    DfsUndirected.dfs_undirected_recursive 14 example_undirected 0 (py_repeat false 5) []
      = Ok (visited, o3) ∧
    visits_reachable example_undirected 5 0 o1 ∧
    visits_reachable example_undirected 5 0 o2 ∧
    visits_reachable example_undirected 5 0 o3 ∧
    ∀ l, visits_reachable example_undirected 5 0 l →
         length o1 = length l ∧ length o2 = length l ∧ length o3 = length l.
Proof.
  assert (wf_graph example_undirected 5) as Hwf
    by (apply (bool_decide_unpack _); by vm_compute).
  assert (vertex 5 0) as Hstart by (unfold vertex; lia).
  assert (traversal_fuel example_undirected 5 ≤ 14)%nat as Hfuel
    by (vm_compute; lia).
  split_and!; [exact Hwf|exact Hstart|exact Hfuel|].
  exact (traversals_visit_reachable_once example_undirected 5 0 14 Hwf Hstart Hfuel).
Defined.

(** C4: for every graph whose adjacency entries are all in [[0, n)],
    [bfs_undirected_all_components] and [dfs_undirected_all_components]
    (and their directed twins) each return a sequence of length exactly [n]
    that is a permutation of [0..n-1]. *)
Theorem all_components_permutation (g : graph) (n : Z) (fuel : nat) :
  wf_graph g n → (Z.to_nat n ≤ fuel)%nat →
  ∃ o1 o2,
    BfsUndirected.bfs_undirected_all_components fuel g n = Ok o1 ∧
    BfsDirected.bfs_directed_all_reachable fuel g n = Ok o1 ∧
    DfsUndirected.dfs_undirected_all_components fuel g n = Ok o2 ∧
    DfsDirected.dfs_directed_all_components fuel g n = Ok o2 ∧
    o1 ≡ₚ py_range n ∧ o2 ≡ₚ py_range n ∧
    py_len o1 = n ∧ py_len o2 = n.
Proof.
  intros Hwf Hfuel.
  destruct (bfs_all_components_permutation g n Hwf fuel Hfuel) as (o1 & Hr1 & H1).
  destruct (dfs_all_components_permutation g n Hwf fuel Hfuel) as (o2 & Hr2 & H2).
  exists o1, o2.
  split_and!; [exact Hr1| |exact Hr2| |done|done| |].
  - by rewrite bfs_directed_all_undirected.
  - by rewrite dfs_directed_all_undirected.
  - unfold py_len. rewrite H1, py_range_length. destruct Hwf as (? & _). lia.
  - unfold py_len. rewrite H2, py_range_length. destruct Hwf as (? & _). lia.
Qed.

Lemma all_components_permutation_witness :
  wf_graph example_undirected 5 ∧ (Z.to_nat 5 ≤ 5)%nat ∧
  ∃ o1 o2,
    BfsUndirected.bfs_undirected_all_components 5 example_undirected 5 = Ok o1 ∧
    BfsDirected.bfs_directed_all_reachable 5 example_undirected 5 = Ok o1 ∧
    DfsUndirected.dfs_undirected_all_components 5 example_undirected 5 = Ok o2 ∧
    DfsDirected.dfs_directed_all_components 5 example_undirected 5 = Ok o2 ∧
    o1 ≡ₚ py_range 5 ∧ o2 ≡ₚ py_range 5 ∧
    py_len o1 = 5 ∧ py_len o2 = 5.
Proof.
  assert (wf_graph example_undirected 5) as Hwf
    by (apply (bool_decide_unpack _); by vm_compute).
  assert (Z.to_nat 5 ≤ 5)%nat as Hfuel by (vm_compute; lia).
  split_and!; [exact Hwf|exact Hfuel|].
  exact (all_components_permutation example_undirected 5 5 Hwf Hfuel).
Defined.

(** C5: for every graph whose adjacency entries are all in [[0, n)] and
    every start vertex in [[0, n)], the output of [bfs_undirected] (and of
    its twin [bfs_directed]) is ordered by non-decreasing distance from
    [start]: a vertex discovered from [v] appears strictly after [v], every
    output vertex has a distance, positions and distances increase together,
    and every vertex at distance [k] precedes every vertex at distance
    [k + 1]. *)
Theorem bfs_layering (g : graph) (n start : Z) (fuel : nat) :
  wf_graph g n → vertex n start → (Z.to_nat n ≤ fuel)%nat →
  ∃ order,
    BfsUndirected.bfs_undirected fuel g start n = Ok order ∧
    BfsDirected.bfs_directed fuel g start n = Ok order ∧
    (∀ u v, vertex n u → discovered_from g start n u v → before order v u) ∧
    (∀ x, x ∈ order → ∃ k, distance g n start x k) ∧
    (∀ (i j : nat) x y kx ky,
       order !! i = Some x → order !! j = Some y →
       distance g n start x kx → distance g n start y ky →
       ((i ≤ j)%nat → (kx ≤ ky)%nat) ∧ ((kx < ky)%nat → (i < j)%nat)) ∧
    (∀ x y k, x ∈ order → y ∈ order →
       distance g n start x k → distance g n start y (S k) → before order x y).
Proof.
  intros Hwf Hstart Hfuel.
  destruct (bfs_layers g n Hwf fuel start Hstart Hfuel)
    as (order & d & Hrun & Hdist & Hsorted).
  assert (∀ (i j : nat) x y kx ky,
            order !! i = Some x → order !! j = Some y →
            distance g n start x kx → distance g n start y ky →
            ((i ≤ j)%nat → (kx ≤ ky)%nat) ∧ ((kx < ky)%nat → (i < j)%nat)) as Hlayers.
  { intros i j x y kx ky Hi Hj Hx Hy.
    pose proof (distance_unique _ _ _ _ _ _ Hx
                  (Hdist x (list_elem_of_lookup_2 _ _ _ Hi))) as ->.
    pose proof (distance_unique _ _ _ _ _ _ Hy
                  (Hdist y (list_elem_of_lookup_2 _ _ _ Hj))) as ->.
    split.
    - intros Hij. by eapply Hsorted.
    - intros Hlt. destruct (decide (i < j)%nat) as [|Hge]; [done|].
      assert (d y ≤ d x)%nat; [|lia]. eapply (Hsorted j i); [done..|lia]. }
  exists order. split_and!; [done|done| | |done|].
  - intros u v Hu Huv.
    by apply (bfs_discovered g n Hwf fuel start order u v).
  - intros x Hx. exists (d x). by apply Hdist.
  - intros x y k [i Hi]%list_elem_of_lookup_1 [j Hj]%list_elem_of_lookup_1 Hx Hy.
    exists i, j. split_and!; [done..|].
    apply (Hlayers i j x y k (S k)); [done..|lia].
Qed.

Lemma bfs_layering_witness :
  wf_graph example_undirected 5 ∧ vertex 5 0 ∧ (Z.to_nat 5 ≤ 5)%nat ∧
  ∃ order,
    BfsUndirected.bfs_undirected 5 example_undirected 0 5 = Ok order ∧
    BfsDirected.bfs_directed 5 example_undirected 0 5 = Ok order ∧
    (∀ u v, vertex 5 u → discovered_from example_undirected 0 5 u v → before order v u) ∧
    (∀ x, x ∈ order → ∃ k, distance example_undirected 5 0 x k) ∧
    (∀ (i j : nat) x y kx ky,
       order !! i = Some x → order !! j = Some y →
       distance example_undirected 5 0 x kx → distance example_undirected 5 0 y ky →
       ((i ≤ j)%nat → (kx ≤ ky)%nat) ∧ ((kx < ky)%nat → (i < j)%nat)) ∧
    (∀ x y k, x ∈ order → y ∈ order →
       distance example_undirected 5 0 x k → distance example_undirected 5 0 y (S k) →
       before order x y).
Proof.
  assert (wf_graph example_undirected 5) as Hwf
    by (apply (bool_decide_unpack _); by vm_compute).
  assert (vertex 5 0) as Hstart by (unfold vertex; lia).
  assert (Z.to_nat 5 ≤ 5)%nat as Hfuel by (vm_compute; lia).
  split_and!; [exact Hwf|exact Hstart|exact Hfuel|].
  exact (bfs_layering example_undirected 5 0 5 Hwf Hstart Hfuel).
Defined.

(** In the undirected example, vertex 3 is discovered from vertex 1. *)
Example example_discovered_from : discovered_from example_undirected 0 5 3 1.
Proof.
  exists (BfsState [0] [true; true; true; false; false] [1; 2]),
         (BfsState [0; 1] [true; true; true; true; false] [2; 3]).
  split_and!; try reflexivity.
  exists [true; false; false; false; false]. split; [reflexivity|].
  eapply rtc_l; [|apply rtc_refl]. split; [done|reflexivity].
Qed.

(** C6: on a graph with a cycle both topological sorts return the explicit
    failure value [None]; whatever they return is either [None] or a
    complete valid order of all [n] vertices, never a partial sequence. *)
Theorem topological_sort_no_partial_order (g : graph) (n : Z) (fuel : nat) :
  wf_graph g n → (Z.to_nat n ≤ fuel)%nat →
  ∃ r1 r2,
    TopologicalSort.topological_sort_dfs fuel g n = Ok r1 ∧
    TopologicalSort.topological_sort_kahn fuel g n = Ok r2 ∧
    (has_cycle g n → r1 = None ∧ r2 = None) ∧
    (∀ l, r1 = Some l ∨ r2 = Some l → py_len l = n ∧ topological_order g n l).
Proof.
  intros Hwf Hfuel.
  destruct (topological_sort_dfs_spec g n Hwf fuel Hfuel) as (r1 & Hr1 & H1).
  destruct (topological_sort_kahn_spec g n Hwf fuel Hfuel) as (r2 & Hr2 & H2).
  exists r1, r2. split_and!; [done..| |].
  - intros Hc. split.
    + destruct r1 as [l1|]; [|done]. by apply topological_order_acyclic in H1.
    + destruct r2 as [l2|]; [|done]. by apply topological_order_acyclic in H2.
  - assert (∀ l, topological_order g n l → py_len l = n) as Hlen.
    { intros l [Hperm _]. unfold py_len. rewrite Hperm, py_range_length.
      destruct Hwf as (? & _). lia. }
    intros l [->| ->]; auto.
Qed.

Lemma topological_sort_no_partial_order_witness :
  wf_graph example_cycle 3 ∧ (Z.to_nat 3 ≤ 3)%nat ∧
  ∃ r1 r2,
    TopologicalSort.topological_sort_dfs 3 example_cycle 3 = Ok r1 ∧
    TopologicalSort.topological_sort_kahn 3 example_cycle 3 = Ok r2 ∧
    (has_cycle example_cycle 3 → r1 = None ∧ r2 = None) ∧
    (∀ l, r1 = Some l ∨ r2 = Some l →
          py_len l = 3 ∧ topological_order example_cycle 3 l).
Proof.
  assert (wf_graph example_cycle 3) as Hwf
    by (apply (bool_decide_unpack _); by vm_compute).
  assert (Z.to_nat 3 ≤ 3)%nat as Hfuel by (vm_compute; lia).
  split_and!; [exact Hwf|exact Hfuel|].
  exact (topological_sort_no_partial_order example_cycle 3 3 Hwf Hfuel).
Defined.

(** C7: the engine does not depend on the direction of the edges: on every
    adjacency structure, start vertex and vertex count, [bfs_directed]
    returns what [bfs_undirected] returns and [dfs_directed_iterative]
    returns what [dfs_undirected_iterative] returns, errors included. *)
Theorem directed_equals_undirected (fuel : nat) (g : graph) (start n : Z) :
  BfsDirected.bfs_directed fuel g start n
    = BfsUndirected.bfs_undirected fuel g start n ∧
  DfsDirected.dfs_directed_iterative fuel g start n
    = DfsUndirected.dfs_undirected_iterative fuel g start n.
Proof.
  split.
  - apply bfs_directed_undirected.
  - apply dfs_directed_undirected_iterative.
Qed.

(** C8: within a traversal the visited flags are monotone: no step of the
    loops of [bfs_undirected], [dfs_undirected_iterative] and the
    all-components variants resets a flag that is [True], on any input. *)
Theorem visited_monotone (g : graph) :
  (∀ us visited queue visited' queue',
     BfsUndirected.scan us visited queue = Ok (visited', queue') →
     flags_le visited visited') ∧
  (∀ st st',
     BfsUndirected.step g st = Ok st' →
     flags_le (bfs_visited st) (bfs_visited st')) ∧
  (∀ fuel st st',
     BfsUndirected.while fuel g st = Ok st' →
     flags_le (bfs_visited st) (bfs_visited st')) ∧
  (∀ st st',
     DfsUndirected.step g st = Ok st' →
     flags_le (dfs_visited st) (dfs_visited st')) ∧
  (∀ fuel st st',
     DfsUndirected.while fuel g st = Ok st' →
     flags_le (dfs_visited st) (dfs_visited st')) ∧
  (∀ fuel start order visited order' visited',
     BfsUndirected.component fuel g start order visited = Ok (order', visited') →
     flags_le visited visited') ∧
  (∀ fuel starts order visited order' visited',
     BfsUndirected.components fuel g starts order visited = Ok (order', visited') →
     flags_le visited visited') ∧
  (∀ fuel v visited order visited' order',
     DfsUndirected.dfs fuel g v visited order = Ok (visited', order') →
     flags_le visited visited') ∧
  (∀ fuel us visited order visited' order',
     DfsUndirected.visit_each (DfsUndirected.dfs fuel g) us visited order
       = Ok (visited', order') →
     flags_le visited visited').
Proof.
  split_and!.
  - intros *. apply bfs_scan_flags_le.
  - intros *. apply bfs_step_flags_le.
  - intros *. apply bfs_while_flags_le.
  - intros *. apply dfs_step_flags_le.
  - intros *. apply dfs_while_flags_le.
  - intros *. apply bfs_component_flags_le.
  - intros *. apply bfs_components_flags_le.
  - intros *. apply dfs_recursive_flags_le.
  - intros fuel us visited order visited' order'.
    apply dfs_visit_each_flags_le. intros *. apply dfs_recursive_flags_le.
Qed.

Lemma visited_monotone_witness :
  flags_le [true; false; false; false; false] [true; true; true; false; false].
Proof.
  apply (proj1 (proj2 (visited_monotone example_undirected))
           (BfsState [] [true; false; false; false; false] [0])
           (BfsState [0] [true; true; true; false; false] [1; 2])).
  reflexivity.
Defined.

(** C9: [dfs_undirected_recursive] (and [dfs_directed_recursive]) marks
    [start] and appends it to [order] unconditionally: whatever
    [visited[start]] was, the final [order] is the old one followed by
    [start] and the vertices visited below it.  So when [start] is already
    in [order] -- as it is when [visited[start]] is already [True] and the
    flags agree with [order] -- the result has a duplicate, whereas a call
    with [visited[start]] [False] on a duplicate-free [order] that agrees
    with the flags yields a duplicate-free [order]. *)
Theorem dfs_recursive_appends_start (g : graph) (n start : Z)
    (visited : list bool) (order : list Z) (fuel : nat) :
  wf_graph g n → vertex n start → length visited = Z.to_nat n →
  (unvisited visited < fuel)%nat →
  ∃ visited' rest,
    DfsUndirected.dfs_undirected_recursive fuel g start visited order
      = Ok (visited', order ++ start :: rest) ∧
    DfsDirected.dfs_directed_recursive fuel g start visited order
      = Ok (visited', order ++ start :: rest) ∧
    marked visited' start ∧
    (start ∈ order → ¬ NoDup (order ++ start :: rest)) ∧
    ((∀ w, vertex n w → marked visited w → w ∈ order) →
     marked visited start → ¬ NoDup (order ++ start :: rest)) ∧
    ((∀ w, w ∈ order → marked visited w) → NoDup order →
     ¬ marked visited start → NoDup (order ++ start :: rest)).
Proof.
  intros Hwf Hstart Hlen Hfuel.
  destruct (dfs_recursive_total g n Hwf fuel start visited order Hlen Hstart Hfuel)
    as (visited' & rest & Hrun & Hm).
  assert (start ∈ order → ¬ NoDup (order ++ start :: rest)) as Hdup.
  { intros Hin Hnd. apply NoDup_app in Hnd as (_ & Hdisj & _).
    apply (Hdisj start Hin). set_solver. }
  exists visited', rest. split_and!; [done| |done|done| |].
  - by rewrite dfs_directed_undirected_recursive.
  - intros Hagree Hmarked. apply Hdup. by apply Hagree.
  - intros Hagree Hnd Hfresh.
    destruct (dfs_recursive_spec g n Hwf fuel start visited order Hlen Hstart Hfresh)
      as (visited'' & rest' & Hrun' & (_ & Hnd' & Hnew & _)); [lia|].
    rewrite Hrun in Hrun'. injection Hrun' as _ Heq.
    apply app_inv_head in Heq. injection Heq as <-.
    apply NoDup_app. split_and!; [done| |done].
    intros w Hw Hw'. destruct (Hnew w Hw') as (_ & Hnm & _). by apply Hnm, Hagree.
Qed.

Lemma dfs_recursive_appends_start_witness :
  wf_graph example_undirected 5 ∧ vertex 5 0 ∧
  length [true; false; false; false; false] = Z.to_nat 5 ∧
  (unvisited [true; false; false; false; false] < 5)%nat ∧
  ∃ visited' rest,
    DfsUndirected.dfs_undirected_recursive 5 example_undirected 0
        [true; false; false; false; false] [0]
      = Ok (visited', [0] ++ 0 :: rest) ∧
    DfsDirected.dfs_directed_recursive 5 example_undirected 0
        [true; false; false; false; false] [0]
      = Ok (visited', [0] ++ 0 :: rest) ∧
    marked visited' 0 ∧
    (0 ∈ [0] → ¬ NoDup ([0] ++ 0 :: rest)) ∧
    ((∀ w, vertex 5 w → marked [true; false; false; false; false] w → w ∈ [0]) →
     marked [true; false; false; false; false] 0 → ¬ NoDup ([0] ++ 0 :: rest)) ∧
    ((∀ w, w ∈ [0] → marked [true; false; false; false; false] w) → NoDup [0] →
     ¬ marked [true; false; false; false; false] 0 → NoDup ([0] ++ 0 :: rest)).
Proof.
  assert (wf_graph example_undirected 5) as Hwf
    by (apply (bool_decide_unpack _); by vm_compute).
  assert (vertex 5 0) as Hstart by (unfold vertex; lia).
  assert (length [true; false; false; false; false] = Z.to_nat 5) as Hlen
    by reflexivity.
  assert (unvisited [true; false; false; false; false] < 5)%nat as Hfuel
    by (vm_compute; lia).
  split_and!; [exact Hwf|exact Hstart|exact Hlen|exact Hfuel|].
  exact (dfs_recursive_appends_start example_undirected 5 0
           [true; false; false; false; false] [0] 5 Hwf Hstart Hlen Hfuel).
Defined.

(** On a second call with the same [start], [0] is recorded twice. *)
Example example_dfs_recursive_duplicate :
  DfsUndirected.dfs_undirected_recursive 5 example_undirected 0
    [true; false; false; false; false] [0]
  = Ok ([true; true; true; true; true], [0; 0; 1; 3; 2; 4]).
Proof. reflexivity. Qed.

(** C10: when [0 <= start < n], the adjacency structure has at least [n]
    lists and every neighbour index is in [[0, n)], no operation of the
    engine raises [IndexError]: every one of them returns a result. *)
Theorem engine_in_bounds (g : graph) (n start : Z) (fuel : nat) :
  wf_graph g n → vertex n start → (traversal_fuel g n ≤ fuel)%nat →
  (∃ o, BfsUndirected.bfs_undirected fuel g start n = Ok o) ∧
  (∃ o, BfsDirected.bfs_directed fuel g start n = Ok o) ∧
  (∃ o, DfsUndirected.dfs_undirected_iterative fuel g start n = Ok o) ∧
  (∃ o, DfsDirected.dfs_directed_iterative fuel g start n = Ok o) ∧
  (∃ r, DfsUndirected.dfs_undirected_recursive fuel g start (py_repeat false n) []
        = Ok r) ∧
  (∃ r, DfsDirected.dfs_directed_recursive fuel g start (py_repeat false n) []
        = Ok r) ∧
  (∃ o, BfsUndirected.bfs_undirected_all_components fuel g n = Ok o) ∧
  (∃ o, BfsDirected.bfs_directed_all_reachable fuel g n = Ok o) ∧
  (∃ o, DfsUndirected.dfs_undirected_all_components fuel g n = Ok o) ∧
  (∃ o, DfsDirected.dfs_directed_all_components fuel g n = Ok o) ∧
  (∃ r, TopologicalSort.topological_sort_dfs fuel g n = Ok r) ∧
  (∃ r, TopologicalSort.topological_sort_kahn fuel g n = Ok r).
Proof.
  intros Hwf Hstart Hfuel. unfold traversal_fuel in Hfuel.
  destruct (bfs_reaches g n Hwf fuel start Hstart) as (o1 & Hr1 & _); [lia|].
  destruct (dfs_iterative_reaches g n Hwf fuel start Hstart) as (o2 & Hr2 & _); [lia|].
  destruct (dfs_recursive_reaches g n Hwf fuel start Hstart)
    as (visited & o3 & Hr3 & _); [lia|].
  destruct (bfs_all_components_permutation g n Hwf fuel) as (o4 & Hr4 & _); [lia|].
  destruct (dfs_all_components_permutation g n Hwf fuel) as (o5 & Hr5 & _); [lia|].
  destruct (topological_sort_dfs_spec g n Hwf fuel) as (r6 & Hr6 & _); [lia|].
  destruct (topological_sort_kahn_spec g n Hwf fuel) as (r7 & Hr7 & _); [lia|].
  split_and!; eauto.
Qed.

Lemma engine_in_bounds_witness :
  wf_graph example_directed 5 ∧ vertex 5 0 ∧
  (traversal_fuel example_directed 5 ≤ 11)%nat ∧
  (∃ o, BfsUndirected.bfs_undirected 11 example_directed 0 5 = Ok o) ∧
  (∃ o, BfsDirected.bfs_directed 11 example_directed 0 5 = Ok o) ∧
  (∃ o, DfsUndirected.dfs_undirected_iterative 11 example_directed 0 5 = Ok o) ∧
  (∃ o, DfsDirected.dfs_directed_iterative 11 example_directed 0 5 = Ok o) ∧
  (∃ r, DfsUndirected.dfs_undirected_recursive 11 example_directed 0 (py_repeat false 5) []
        = Ok r) ∧
  (∃ r, DfsDirected.dfs_directed_recursive 11 example_directed 0 (py_repeat false 5) []
        = Ok r) ∧
  (∃ o, BfsUndirected.bfs_undirected_all_components 11 example_directed 5 = Ok o) ∧
  (∃ o, BfsDirected.bfs_directed_all_reachable 11 example_directed 5 = Ok o) ∧
  (∃ o, DfsUndirected.dfs_undirected_all_components 11 example_directed 5 = Ok o) ∧
  (∃ o, DfsDirected.dfs_directed_all_components 11 example_directed 5 = Ok o) ∧
  (∃ r, TopologicalSort.topological_sort_dfs 11 example_directed 5 = Ok r) ∧
  (∃ r, TopologicalSort.topological_sort_kahn 11 example_directed 5 = Ok r).
Proof.
  assert (wf_graph example_directed 5) as Hwf
    by (apply (bool_decide_unpack _); by vm_compute).
  assert (vertex 5 0) as Hstart by (unfold vertex; lia).
  assert (traversal_fuel example_directed 5 ≤ 11)%nat as Hfuel
    by (vm_compute; lia).
  split_and!; [exact Hwf|exact Hstart|exact Hfuel|..];
    apply (engine_in_bounds example_directed 5 0 11 Hwf Hstart Hfuel).
Defined.

(** ** The iterative depth-first search simulates the recursive one *)

(** More fuel does not change the result of a recursive call. *)
Lemma dfs_visit_each_fuel
    (rec rec' : Z → list bool → list Z → res (list bool * list Z)) :
  (∀ u visited order r, rec u visited order = Ok r → rec' u visited order = Ok r) →
  ∀ us visited order r,
    DfsUndirected.visit_each rec us visited order = Ok r →
    DfsUndirected.visit_each rec' us visited order = Ok r.
Proof.
  intros Hrec us. induction us as [|u us IH]; intros visited order r; [done|].
  simpl. intros (b & -> & Hrest)%bind_Ok. simpl.
  destruct b; simpl in *; [by apply IH|].
  apply bind_Ok in Hrest as ([visited1 order1] & Hcall%Hrec & Hrest%IH).
  rewrite Hcall. done.
Qed.

Lemma dfs_recursive_fuel (fuel fuel' : nat) (g : graph) (start : Z)
    (visited : list bool) (order : list Z) (r : list bool * list Z) :
  (fuel ≤ fuel')%nat →
  DfsUndirected.dfs_undirected_recursive fuel g start visited order = Ok r →
  DfsUndirected.dfs_undirected_recursive fuel' g start visited order = Ok r.
Proof.
  revert fuel' start visited order r.
  induction fuel as [|fuel IH]; intros fuel' start visited order r Hle; [done|].
  destruct fuel' as [|fuel']; [lia|]. simpl.
  intros (visited1 & -> & (us & -> & Hloop)%bind_Ok)%bind_Ok. simpl.
  eapply dfs_visit_each_fuel; [|exact Hloop].
  intros u vis o r'. apply IH. lia.
Qed.

(** A loop over [l1 ++ l2] is the loop over [l1] followed by the loop over
    [l2]. *)
Lemma dfs_visit_each_app
    (rec : Z → list bool → list Z → res (list bool * list Z))
    (l1 l2 : list Z) (visited : list bool) (order : list Z) :
  DfsUndirected.visit_each rec (l1 ++ l2) visited order
  = bind (DfsUndirected.visit_each rec l1 visited order)
         (λ r, DfsUndirected.visit_each rec l2 r.1 r.2).
Proof.
  revert visited order. induction l1 as [|u l1 IH]; intros visited order; [done|].
  simpl. destruct (py_get visited u) as [b| |]; simpl; [|done..].
  destruct b; simpl; [apply IH|].
  destruct (rec u visited order) as [[visited1 order1]| |]; simpl; [|done..].
  apply IH.
Qed.

(** The pushes of one iteration, in the order in which they will be
    popped. *)
Lemma dfs_push_unvisited_filter (n : Z) (us : list Z) (visited : list bool)
    (stack : list Z) :
  length visited = Z.to_nat n → Forall (vertex n) us →
  DfsUndirected.push_unvisited us visited stack
  = Ok (reverse (filter (λ u, ¬ marked visited u) us) ++ stack).
Proof.
  intros Hlen Hus. revert stack.
  induction Hus as [|u us Hu _ IH]; intros stack; [done|].
  simpl. destruct (marked_get n visited u Hlen Hu) as (b & _ & -> & Hm).
  simpl. rewrite filter_cons. destruct b; simpl.
  - rewrite decide_False by (intros Hn; apply Hn, Hm; done). apply IH.
  - rewrite decide_True by (intros ?%Hm; done).
    rewrite IH, reverse_cons, <- app_assoc. done.
Qed.

(** Skipping the neighbours that are already visited beforehand does not
    change the loop, which skips them anyway. *)
Lemma dfs_visit_each_filter (n : Z)
    (rec : Z → list bool → list Z → res (list bool * list Z))
    (visited0 : list bool) :
  (∀ u visited order visited' order',
     rec u visited order = Ok (visited', order') → flags_le visited visited') →
  ∀ us visited order,
    length visited = Z.to_nat n → Forall (vertex n) us →
    flags_le visited0 visited →
    DfsUndirected.visit_each rec (filter (λ u, ¬ marked visited0 u) us) visited order
    = DfsUndirected.visit_each rec us visited order.
Proof.
  intros Hrec us visited order Hlen Hus. revert visited order Hlen.
  induction Hus as [|u us Hu _ IH]; intros visited order Hlen Hle; [done|].
  rewrite filter_cons.
  destruct (marked_get n visited u Hlen Hu) as (b & Hb & Hget & Hm).
  destruct (decide (¬ marked visited0 u)) as [Hnm|Hm0].
  - simpl. rewrite Hget. simpl. destruct b; simpl; [by apply IH|].
    destruct (rec u visited order) as [[visited1 order1]| |] eqn:Hcall; simpl; [|done..].
    pose proof (Hrec _ _ _ _ _ Hcall) as Hle1.
    apply IH; [destruct Hle1; congruence|by eapply flags_le_trans].
  - simpl. rewrite Hget. simpl.
    assert (marked visited u) as Hmu.
    { destruct Hle as [_ Hle]. apply Hle. by destruct (decide (marked visited0 u)). }
    apply Hm in Hmu as ->. simpl. by apply IH.
Qed.

Section dfs_simulation.
Context (g : graph) (n : Z) (Hwf : wf_graph g n).

(** Running the loop on a stack does what the recursive search does when
    called on the stack entries from the top down. *)
Lemma dfs_while_simulates (fuel : nat) (st st' : dfs_state) :
  length (dfs_visited st) = Z.to_nat n →
  Forall (vertex n) (dfs_stack st) →
  DfsUndirected.while fuel g st = Ok st' →
  ∀ fr, (unvisited (dfs_visited st) ≤ fr)%nat →
    DfsUndirected.visit_each (DfsUndirected.dfs_undirected_recursive fr g)
      (dfs_stack st) (dfs_visited st) (dfs_order st)
    = Ok (dfs_visited st', dfs_order st').
Proof.
  revert st. induction fuel as [|fuel IH]; intros [order visited stack] Hlen Hstk;
    (destruct stack as [|v stack]; simpl; [by intros [= <-]|]); [done|].
  apply Forall_cons in Hstk as [Hv Hstk]. simpl in *.
  unfold DfsUndirected.step. simpl.
  destruct (marked_get n visited v Hlen Hv) as (b & Hb & Hget & Hm).
  rewrite Hget. simpl. destruct b; simpl.
  { intros Hwhile fr Hfr. by apply (IH (DfsState order visited stack)). }
  rewrite (marked_set n) by done. simpl.
  rewrite (py_get_adj g n v Hwf Hv). simpl.
  set (visited1 := <[Z.to_nat v := true]> visited).
  assert (length visited1 = Z.to_nat n) as Hlen1
    by (unfold visited1; by rewrite length_insert).
  pose proof (adj_vertex g n v Hwf) as Hadj.
  rewrite (dfs_push_unvisited_filter n) by (done || by apply Forall_reverse).
  rewrite filter_reverse, reverse_involutive. simpl.
  intros Hwhile fr Hfr.
  pose proof (unvisited_mark visited _ Hb) as Hun. fold visited1 in Hun.
  destruct fr as [|fr]; [lia|].
  apply (IH (DfsState _ _ _)) with (fr := fr) in Hwhile; simpl; [| | |lia].
  - simpl in Hwhile. rewrite dfs_visit_each_app in Hwhile.
    apply bind_Ok in Hwhile as ([visited2 order2] & Hadjloop & Hrest). simpl in Hrest.
    rewrite (dfs_visit_each_filter n) in Hadjloop; [| |done..|apply flags_le_refl].
    2:{ intros u vis o vis' o'. apply dfs_recursive_flags_le. }
    rewrite (marked_set n) by done. simpl.
    rewrite (py_get_adj g n v Hwf Hv). simpl.
    fold visited1. rewrite Hadjloop. simpl.
    apply (dfs_visit_each_fuel (DfsUndirected.dfs_undirected_recursive fr g)
             (DfsUndirected.dfs_undirected_recursive (S fr) g)); [|exact Hrest].
    intros u vis o r. apply dfs_recursive_fuel. lia.
  - done.
  - apply Forall_app. split; [|done]. apply Forall_forall.
    intros u [_ Hu]%list_elem_of_filter. rewrite Forall_forall in Hadj. auto.
Qed.

(** The two forms of the depth-first search return the same order. *)
Lemma dfs_iterative_recursive (fuel : nat) (start : Z) :
  vertex n start → (S (Z.to_nat n + sum_list (length <$> g)) ≤ fuel)%nat →
  ∃ visited order,
    DfsUndirected.dfs_undirected_iterative fuel g start n = Ok order ∧
    DfsUndirected.dfs_undirected_recursive fuel g start (py_repeat false n) []
      = Ok (visited, order).
Proof.
  intros Hstart Hfuel.
  destruct (dfs_iterative_reaches g n Hwf fuel start Hstart) as (order & Hrun & _); [lia|].
  pose proof Hrun as Hrun'.
  unfold DfsUndirected.dfs_undirected_iterative in Hrun'.
  apply bind_Ok in Hrun' as (st' & Hwhile & [= <-]).
  apply dfs_while_simulates with (fr := fuel) in Hwhile; simpl.
  - simpl in Hwhile.
    destruct (marked_get n (py_repeat false n) start (py_repeat_length _ _) Hstart)
      as (b & _ & Hget & Hm).
    rewrite Hget in Hwhile. simpl in Hwhile.
    destruct b; [exfalso; eapply marked_repeat, Hm; done|]. simpl in Hwhile.
    apply bind_Ok in Hwhile as ([visited1 order1] & Hcall & [= Hvis Hord]).
    exists visited1, order1. split; [by rewrite Hord|exact Hcall].
  - apply py_repeat_length.
  - by apply Forall_singleton.
  - pose proof (unvisited_length (py_repeat false n)) as Hle.
    rewrite py_repeat_length in Hle. lia.
Qed.

End dfs_simulation.

(** * Further properties *)

(** X1: on a well-formed graph the iterative depth-first search returns
    exactly the order that the recursive one appends to an empty [order]
    (started with all-false [visited]); the same holds for the directed
    twins. *)
Theorem dfs_iterative_agrees_with_recursive (g : graph) (n start : Z) (fuel : nat) :
  wf_graph g n → vertex n start → (traversal_fuel g n ≤ fuel)%nat →
  ∃ visited order,
    DfsUndirected.dfs_undirected_iterative fuel g start n = Ok order ∧
    DfsUndirected.dfs_undirected_recursive fuel g start (py_repeat false n) []
      = Ok (visited, order) ∧
    DfsDirected.dfs_directed_iterative fuel g start n = Ok order ∧
    DfsDirected.dfs_directed_recursive fuel g start (py_repeat false n) []
      = Ok (visited, order).
Proof.
  intros Hwf Hstart Hfuel. unfold traversal_fuel in Hfuel.
  destruct (dfs_iterative_recursive g n Hwf fuel start Hstart Hfuel)
    as (visited & order & Hit & Hrec).
  exists visited, order. split_and!; [exact Hit|exact Hrec|exact Hit|exact Hrec].
Qed.

Lemma dfs_iterative_agrees_with_recursive_witness :
  wf_graph example_directed 5 ∧ vertex 5 0 ∧
  (traversal_fuel example_directed 5 ≤ 11)%nat ∧
  ∃ visited order,
    DfsUndirected.dfs_undirected_iterative 11 example_directed 0 5 = Ok order ∧
    DfsUndirected.dfs_undirected_recursive 11 example_directed 0 (py_repeat false 5) []
      = Ok (visited, order) ∧
    DfsDirected.dfs_directed_iterative 11 example_directed 0 5 = Ok order ∧
    DfsDirected.dfs_directed_recursive 11 example_directed 0 (py_repeat false 5) []
      = Ok (visited, order).
Proof.
  assert (wf_graph example_directed 5) as Hwf
    by (apply (bool_decide_unpack _); by vm_compute).
  assert (vertex 5 0) as Hstart by (unfold vertex; lia).
  assert (traversal_fuel example_directed 5 ≤ 11)%nat as Hfuel
    by (vm_compute; lia).
  split_and!; [exact Hwf|exact Hstart|exact Hfuel|].
  exact (dfs_iterative_agrees_with_recursive example_directed 5 0 11 Hwf Hstart Hfuel).
Defined.

(** ** Groups of a whole-graph traversal *)

Lemma grouped_snoc (g : graph) (n : Z) (seen : list Z) (blocks : list (list Z))
    (b : list Z) :
  grouped g n seen blocks → is_block g n (seen ++ concat blocks) b →
  grouped g n seen (blocks ++ [b]).
Proof.
  revert seen. induction blocks as [|b0 blocks IH]; intros seen; simpl.
  - rewrite app_nil_r. done.
  - intros [Hb0 Hrest] Hb. split; [done|]. apply IH; [done|].
    by rewrite <- app_assoc.
Qed.

Lemma blocks_inv_skip (g : graph) (n k : Z) (order : list Z) :
  blocks_inv g n k order → k ∈ order → blocks_inv g n (k + 1) order.
Proof.
  intros (Hcl & Hlow & Hblocks) Hk. split_and!; [done| |done].
  intros v Hv Hlt. destruct (decide (v = k)) as [->|Hne]; [done|].
  apply Hlow; [done|lia].
Qed.

Lemma blocks_inv_block (g : graph) (n k : Z) (order rest : list Z) :
  blocks_inv g n k order → vertex n k → k ∉ order →
  NoDup (k :: rest) →
  (∀ v, v ∈ k :: rest ↔ reachable g n k v ∧ v ∉ order) →
  edge_closed g n (order ++ k :: rest) →
  blocks_inv g n (k + 1) (order ++ k :: rest).
Proof.
  intros (Hcl & Hlow & blocks & -> & Hgr) Hk Hfresh Hnd Hin Hcl'.
  split_and!; [done| |].
  - intros v Hv Hlt. destruct (decide (v = k)) as [->|Hne]; [set_solver|].
    apply elem_of_app. left. apply Hlow; [done|lia].
  - exists (blocks ++ [k :: rest]). split.
    + rewrite concat_app. simpl. by rewrite app_nil_r.
    + apply grouped_snoc; [done|]. simpl.
      exists k, rest. split_and!; [done..| |done|done].
      intros v Hv Hnin. destruct (decide (k ≤ v)) as [|Hlt]; [done|].
      exfalso. apply Hnin, Hlow; [done|lia].
Qed.

Section bfs_blocks.
Context (g : graph) (n : Z) (Hwf : wf_graph g n).

Lemma bfs_block_inv_iter (order0 : list Z) (k : Z) (st st' : bfs_state) :
  edge_closed g n order0 →
  bfs_inv n st → bfs_block_inv g n order0 k st → bfs_iter g st st' →
  bfs_block_inv g n order0 k st'.
Proof.
  intros Hcl0 Hinv (Hpre & Hreach & Hclosed) Hiter.
  destruct (bfs_iter_rtc_inv g n Hwf st st' Hinv) as [_ Hpre'];
    [by apply rtc_once|].
  destruct (bfs_iter_spec g n Hwf st st' Hinv Hiter)
    as (order & visited & v & queue & visited' & new & -> & -> & Hv & _ & Hnew & _ & _).
  destruct Hinv as (Hlen & Hall & _ & Hvis). simpl in *.
  rewrite Forall_forall in Hall.
  split_and!; simpl.
  - by etrans.
  - intros w Hw.
    assert (w ∈ order ++ v :: queue ∨ w ∈ new) as [?|Hw'] by set_solver; [auto|].
    apply Hnew in Hw' as [Hw' _].
    destruct (Hreach v) as [Hv0|Hkv]; [set_solver| |].
    + left. apply (Hcl0 v w); [done|by split].
    + right. eapply rtc_r; [exact Hkv|by split].
  - intros a b Ha Hab.
    apply elem_of_app in Ha as [Ha|Ha%list_elem_of_singleton].
    + specialize (Hclosed a b Ha Hab). set_solver.
    + subst a. destruct (edge_vertex g n v b Hwf Hab) as [_ Hb].
      destruct Hab as [_ Hab].
      destruct (marked_get n visited b) as (m & _ & _ & Hm); [exact Hlen|done|].
      destruct m.
      * assert (b ∈ order ++ v :: queue) by (apply Hvis; naive_solver).
        set_solver.
      * assert (b ∈ new) by (apply Hnew; naive_solver). set_solver.
Qed.

(** One iteration of [for start in range(n)] that finds [k] unvisited
    appends the group of [k]. *)
Lemma bfs_component_block (fuel : nat) (k : Z) (order : list Z) (visited : list bool) :
  (Z.to_nat n ≤ fuel)%nat → vertex n k →
  bfs_inv n (BfsState order visited []) → edge_closed g n order → k ∉ order →
  ∃ rest visited',
    BfsUndirected.component fuel g k order visited
      = Ok (order ++ k :: rest, visited') ∧
    bfs_inv n (BfsState (order ++ k :: rest) visited' []) ∧
    edge_closed g n (order ++ k :: rest) ∧
    NoDup (k :: rest) ∧
    ∀ v, v ∈ k :: rest ↔ reachable g n k v ∧ v ∉ order.
Proof.
  intros Hfuel Hk Hinv Hcl Hfresh. unfold BfsUndirected.component.
  pose proof Hinv as (Hlen & Hall & Hnd & Hvis). simpl in *.
  rewrite app_nil_r in *.
  destruct (marked_get n visited k Hlen Hk) as (b & _ & -> & Hm).
  simpl. destruct b.
  { exfalso. apply Hfresh, Hvis; [done|]. by apply Hm. }
  rewrite (marked_set n) by done. simpl.
  destruct (bfs_while_spec g n Hwf (bfs_block_inv g n order k))
    with (fuel := fuel)
         (st := BfsState order (<[Z.to_nat k := true]> visited) [k])
    as ([order' visited' queue'] & Hwhile & Hq & Hinv' & Hpre & Hreach & Hclosed).
  - intros st st'. by apply bfs_block_inv_iter.
  - unfold bfs_inv. simpl. split_and!.
    + by rewrite length_insert.
    + apply Forall_app. split; [done|by apply Forall_singleton].
    + apply NoDup_app. split_and!; [done| |apply NoDup_singleton].
      intros w Hw ->%list_elem_of_singleton. done.
    + intros w Hw. rewrite (marked_insert n) by done.
      rewrite Hvis by done. set_solver.
  - split_and!; simpl.
    + done.
    + intros w [?|Hw%list_elem_of_singleton]%elem_of_app; [by left|].
      subst w. right. apply rtc_refl.
    + intros a b Ha Hab. apply elem_of_app. left. by apply (Hcl a b).
  - simpl. lia.
  - simpl in *. subst queue'. rewrite app_nil_r in *.
    destruct Hpre as [rest ->]. rewrite <- app_assoc in *. simpl in *.
    rewrite Hwhile. simpl. exists rest, visited'.
    destruct Hinv' as (Hlen' & Hall' & Hnd' & Hvis'). simpl in *.
    rewrite app_nil_r in *.
    apply NoDup_app in Hnd' as (_ & Hdisj & Hndb).
    split_and!; [done| |done|done|].
    + split_and!; simpl; rewrite ?app_nil_r; try done.
      apply NoDup_app. by split_and!.
    + intros v. split.
      * intros Hv. split.
        -- destruct (Hreach v) as [Hv0|?]; [set_solver| |done].
           by apply Hdisj in Hv0.
        -- intros Hv0. by apply (Hdisj v).
      * intros [Hv Hnin].
        assert (v ∈ order ++ k :: rest) as Hin; [|set_solver].
        eapply closed_reachable; [exact Hclosed|exact Hv|set_solver].
Qed.

Lemma bfs_components_blocks (fuel : nat) (m k : nat)
    (order : list Z) (visited : list bool) :
  (Z.to_nat n ≤ fuel)%nat → (k + m = Z.to_nat n)%nat →
  bfs_inv n (BfsState order visited []) → blocks_inv g n (Z.of_nat k) order →
  ∃ order' visited',
    BfsUndirected.components fuel g (Z.of_nat <$> seq k m) order visited
      = Ok (order', visited') ∧
    blocks_inv g n n order'.
Proof.
  intros Hfuel. revert k order visited.
  induction m as [|m IH]; intros k order visited Hkm Hinv Hblocks.
  { exists order, visited. split; [done|].
    destruct Hwf as (Hn & _). destruct Hblocks as (Hcl & Hlow & Hgr).
    split_and!; [done| |done]. intros v Hv Hlt. apply Hlow; [done|lia]. }
  simpl.
  assert (vertex n (Z.of_nat k)) as Hk by (unfold vertex; lia).
  destruct (decide (Z.of_nat k ∈ order)) as [Hin|Hnin].
  - assert (BfsUndirected.component fuel g (Z.of_nat k) order visited
            = Ok (order, visited)) as ->.
    { unfold BfsUndirected.component.
      destruct Hinv as (Hlen & _ & _ & Hvis). simpl in *. rewrite app_nil_r in Hvis.
      destruct (marked_get n visited _ Hlen Hk) as (b & _ & -> & Hm).
      simpl. destruct b; [done|]. apply Hvis in Hin; [|done]. by apply Hm in Hin. }
    simpl. apply IH; [lia|done|].
    replace (Z.of_nat (S k)) with (Z.of_nat k + 1) by lia.
    by apply blocks_inv_skip.
  - pose proof Hblocks as (Hcl & _).
    destruct (bfs_component_block fuel _ order visited Hfuel Hk Hinv Hcl Hnin)
      as (rest & visited' & -> & Hinv' & Hcl' & Hnd & Hmem).
    simpl. apply IH; [lia|done|].
    replace (Z.of_nat (S k)) with (Z.of_nat k + 1) by lia.
    by apply blocks_inv_block.
Qed.

(** The output of the whole-graph breadth-first traversal is the
    concatenation of its groups. *)
Lemma bfs_all_components_grouped (fuel : nat) :
  (Z.to_nat n ≤ fuel)%nat →
  ∃ blocks,
    BfsUndirected.bfs_undirected_all_components fuel g n = Ok (concat blocks) ∧
    grouped g n [] blocks.
Proof.
  intros Hfuel. unfold BfsUndirected.bfs_undirected_all_components.
  destruct (bfs_components_blocks fuel (Z.to_nat n) 0 [] (py_repeat false n))
    as (order & visited & Hrun & _ & _ & blocks & -> & Hgr); [done|lia| | |].
  - unfold bfs_inv. simpl. split_and!.
    + apply py_repeat_length.
    + constructor.
    + constructor.
    + intros w _. pose proof (marked_repeat n w). set_solver.
  - split_and!.
    + intros a b Ha. by apply elem_of_nil in Ha.
    + intros v [Hv _] Hlt. simpl in Hlt. lia.
    + by exists [].
  - unfold py_range. rewrite Hrun. simpl. by exists blocks.
Qed.

End bfs_blocks.

Section dfs_blocks.
Context (g : graph) (n : Z) (Hwf : wf_graph g n).

Lemma dfs_components_blocks (fuel : nat) (m k : nat)
    (order : list Z) (visited : list bool) :
  (Z.to_nat n ≤ fuel)%nat → (k + m = Z.to_nat n)%nat →
  length visited = Z.to_nat n →
  (∀ w, vertex n w → (marked visited w ↔ w ∈ order)) →
  blocks_inv g n (Z.of_nat k) order →
  ∃ visited' order',
    DfsUndirected.visit_each (DfsUndirected.dfs fuel g)
      (Z.of_nat <$> seq k m) visited order = Ok (visited', order') ∧
    blocks_inv g n n order'.
Proof.
  intros Hfuel. revert k order visited.
  induction m as [|m IH]; intros k order visited Hkm Hlen Hvis Hblocks.
  { exists visited, order. split; [done|].
    destruct Hwf as (Hn & _). destruct Hblocks as (Hcl & Hlow & Hgr).
    split_and!; [done| |done]. intros v Hv Hlt. apply Hlow; [done|lia]. }
  simpl.
  assert (vertex n (Z.of_nat k)) as Hk by (unfold vertex; lia).
  destruct (marked_get n visited _ Hlen Hk) as (b & _ & -> & Hm).
  simpl. destruct b; simpl.
  - apply IH; [lia|done..|].
    replace (Z.of_nat (S k)) with (Z.of_nat k + 1) by lia.
    apply blocks_inv_skip; [done|]. apply Hvis; [done|]. by apply Hm.
  - assert (¬ marked visited (Z.of_nat k)) as Hnm by (intros ?%Hm; done).
    destruct (dfs_recursive_spec g n Hwf fuel _ visited order Hlen Hk Hnm)
      as (visited' & rest & Hrun & Hlen' & Hnd & Hnew & Hvis' & Hclnew & _).
    { pose proof (unvisited_length visited). lia. }
    change (DfsUndirected.dfs fuel g) with (DfsUndirected.dfs_undirected_recursive fuel g).
    rewrite Hrun. simpl.
    pose proof Hblocks as (Hcl & _).
    assert (edge_closed g n (order ++ Z.of_nat k :: rest)) as Hcl'.
    { intros a c [Ha|Ha]%elem_of_app Hac.
      - apply elem_of_app. left. by apply (Hcl a c).
      - destruct (edge_vertex g n a c Hwf Hac) as [_ Hc].
        apply Hclnew in Hac; [|done]. apply Hvis' in Hac; [|done].
        rewrite Hvis in Hac by done. set_solver. }
    apply IH; [lia|done| |].
    + intros w Hw. rewrite Hvis', Hvis by done. set_solver.
    + replace (Z.of_nat (S k)) with (Z.of_nat k + 1) by lia.
      apply blocks_inv_block; [done..| |done| |done].
      * intros Hin. by apply Hnm, Hvis.
      * intros v. split.
        -- intros Hv. destruct (Hnew v Hv) as (Hvv & Hnmv & u & Hu & Hr).
           apply list_elem_of_singleton in Hu as ->. split; [done|].
           intros Hin. by apply Hnmv, Hvis.
        -- intros [Hv Hnin].
           assert (v ∈ order ++ Z.of_nat k :: rest) as Hin; [|set_solver].
           eapply closed_reachable; [exact Hcl'|exact Hv|set_solver].
Qed.

(** The output of the whole-graph depth-first traversal is the
    concatenation of its groups. *)
Lemma dfs_all_components_grouped (fuel : nat) :
  (Z.to_nat n ≤ fuel)%nat →
  ∃ blocks,
    DfsUndirected.dfs_undirected_all_components fuel g n = Ok (concat blocks) ∧
    grouped g n [] blocks.
Proof.
  intros Hfuel. unfold DfsUndirected.dfs_undirected_all_components.
  destruct (dfs_components_blocks fuel (Z.to_nat n) 0 [] (py_repeat false n))
    as (visited & order & Hrun & _ & _ & blocks & -> & Hgr); [done|lia| | | |].
  - apply py_repeat_length.
  - intros w _. pose proof (marked_repeat n w). set_solver.
  - split_and!.
    + intros a b Ha. by apply elem_of_nil in Ha.
    + intros v [Hv _] Hlt. simpl in Hlt. lia.
    + by exists [].
  - unfold py_range. rewrite Hrun. simpl. by exists blocks.
Qed.

End dfs_blocks.


(** On a graph with symmetric edges every group is a whole connected
    component. *)
Lemma symmetric_reachable (g : graph) (n : Z) (a b : Z) :
  symmetric g n → reachable g n a b → reachable g n b a.
Proof.
  intros Hsym Hab. induction Hab as [|a b c Hab _ IH]; [apply rtc_refl|].
  eapply rtc_r; [exact IH|by apply Hsym].
Qed.

Lemma grouped_components (g : graph) (n : Z) (blocks : list (list Z)) :
  symmetric g n →
  ∀ seen, edge_closed g n seen → grouped g n seen blocks →
          Forall (is_component g n) blocks.
Proof.
  intros Hsym. induction blocks as [|b blocks IH]; intros seen Hcl; [constructor|].
  intros [(s & rest & -> & Hs & _ & Hnd & Hmem) Hgr].
  assert (s ∈ s :: rest) as [_ Hnin]%Hmem by set_solver.
  assert (∀ v, reachable g n s v → v ∉ seen) as Hout.
  { intros v Hv Hin. apply Hnin.
    eapply closed_reachable; [exact Hcl|by apply symmetric_reachable|done]. }
  constructor.
  - exists s. split; [done|]. split; [done|].
    intros v. rewrite Hmem. split; [tauto|]. intros Hv. split; [done|by apply Hout].
  - apply (IH (seen ++ s :: rest)); [|done].
    intros a c [Ha|Ha]%elem_of_app Hac; apply elem_of_app; [left; by apply (Hcl a c)|].
    right. apply Hmem. apply Hmem in Ha as [Ha _].
    assert (reachable g n s c) as Hc by (eapply rtc_r; done).
    split; [done|by apply Hout].
Qed.



(** X3: on a graph whose edges are symmetric (an undirected graph), the
    whole-graph traversals output one connected component after the other:
    the output is a concatenation of lists, each of which lists once the
    vertices reachable from its first element. *)
Theorem undirected_traversals_by_component (g : graph) (n : Z) (fuel : nat) :
  wf_graph g n → symmetric g n → (Z.to_nat n ≤ fuel)%nat →
  ∃ blocks1 blocks2,
    BfsUndirected.bfs_undirected_all_components fuel g n = Ok (concat blocks1) ∧
    DfsUndirected.dfs_undirected_all_components fuel g n = Ok (concat blocks2) ∧
    Forall (is_component g n) blocks1 ∧ Forall (is_component g n) blocks2.
Proof.
  intros Hwf Hsym Hfuel.
  destruct (bfs_all_components_grouped g n Hwf fuel Hfuel) as (blocks1 & Hr1 & Hg1).
  destruct (dfs_all_components_grouped g n Hwf fuel Hfuel) as (blocks2 & Hr2 & Hg2).
  assert (edge_closed g n []) as Hnil.
  { intros a b Ha. by apply elem_of_nil in Ha. }
  exists blocks1, blocks2. split_and!; [done..| |].
  - by apply (grouped_components g n blocks1 Hsym []).
  - by apply (grouped_components g n blocks2 Hsym []).
Qed.

Lemma undirected_traversals_by_component_witness :
  wf_graph example_undirected 5 ∧ symmetric example_undirected 5 ∧
  (Z.to_nat 5 ≤ 5)%nat ∧
  ∃ blocks1 blocks2,
    BfsUndirected.bfs_undirected_all_components 5 example_undirected 5 = Ok (concat blocks1) ∧
    DfsUndirected.dfs_undirected_all_components 5 example_undirected 5 = Ok (concat blocks2) ∧
    Forall (is_component example_undirected 5) blocks1 ∧
    Forall (is_component example_undirected 5) blocks2.
Proof.
  assert (wf_graph example_undirected 5) as Hwf
    by (apply (bool_decide_unpack _); by vm_compute).
  assert (symmetric example_undirected 5) as Hsym
    by (apply (bool_decide_unpack _); by vm_compute).
  assert (Z.to_nat 5 ≤ 5)%nat as Hfuel by (simpl; lia).
  split_and!; [exact Hwf|exact Hsym|exact Hfuel|].
  exact (undirected_traversals_by_component example_undirected 5 5 Hwf Hsym Hfuel).
Defined.

(** ** Graph construction *)

Lemma all_neighbors_elem (edges : list (Z * Z)) (a b : Z) :
  b ∈ all_neighbors edges a ↔ (a, b) ∈ edges ∨ (b, a) ∈ edges.
Proof.
  induction edges as [|[x y] edges IH]; simpl.
  - rewrite !elem_of_nil. tauto.
  - rewrite !elem_of_app, IH, !elem_of_cons.
    repeat case_bool_decide; rewrite ?list_elem_of_singleton, ?elem_of_nil;
      naive_solver.
Qed.

Lemma out_neighbors_elem (edges : list (Z * Z)) (a b : Z) :
  b ∈ out_neighbors edges a ↔ (a, b) ∈ edges.
Proof.
  induction edges as [|[x y] edges IH]; simpl.
  - rewrite !elem_of_nil. tauto.
  - rewrite !elem_of_app, IH, !elem_of_cons.
    case_bool_decide; rewrite ?list_elem_of_singleton, ?elem_of_nil; naive_solver.
Qed.

Lemma append_neighbor_spec (n : Z) (g0 : graph) (a b : Z) :
  length g0 = Z.to_nat n → vertex n a →
  ∃ g',
    Main.append_neighbor g0 a b = Ok g' ∧
    length g' = Z.to_nat n ∧
    ∀ v, vertex n v →
         adj g' v = adj g0 v ++ (if bool_decide (a = v) then [b] else []).
Proof.
  intros Hlen Ha. unfold Main.append_neighbor.
  destruct (py_get_total g0 a) as (us & Hus & ->);
    [unfold vertex, py_len in *; lia|].
  simpl. rewrite py_set_vertex by (unfold vertex, py_len in *; lia).
  eexists. split_and!; [done|by rewrite length_insert|].
  intros v Hv. unfold adj, vertex in *. case_bool_decide as Hav.
  - subst v. rewrite list_lookup_insert_eq by lia. by rewrite Hus.
  - rewrite list_lookup_insert_ne by lia. by rewrite app_nil_r.
Qed.

Lemma add_undirected_spec (n : Z) (edges : list (Z * Z)) (g0 : graph) :
  length g0 = Z.to_nat n → edges_in_range n edges →
  ∃ g',
    Main.add_undirected edges g0 = Ok g' ∧
    length g' = Z.to_nat n ∧
    ∀ v, vertex n v → adj g' v = adj g0 v ++ all_neighbors edges v.
Proof.
  intros Hlen Hedges. revert g0 Hlen.
  induction Hedges as [|[a b] edges [Ha Hb] _ IH]; intros g0 Hlen.
  { exists g0. split_and!; [done..|]. intros v _. by rewrite app_nil_r. }
  simpl in *.
  destruct (append_neighbor_spec n g0 a b Hlen Ha) as (g1 & -> & Hlen1 & Hadj1).
  simpl.
  destruct (append_neighbor_spec n g1 b a Hlen1 Hb) as (g2 & -> & Hlen2 & Hadj2).
  simpl.
  destruct (IH g2 Hlen2) as (g' & -> & Hlen' & Hadj').
  exists g'. split_and!; [done..|].
  intros v Hv. rewrite Hadj', Hadj2, Hadj1 by done. by rewrite <- !app_assoc.
Qed.

Lemma add_directed_spec (n : Z) (edges : list (Z * Z)) (g0 : graph) :
  length g0 = Z.to_nat n → edges_in_range n edges →
  ∃ g',
    Main.add_directed edges g0 = Ok g' ∧
    length g' = Z.to_nat n ∧
    ∀ v, vertex n v → adj g' v = adj g0 v ++ out_neighbors edges v.
Proof.
  intros Hlen Hedges. revert g0 Hlen.
  induction Hedges as [|[a b] edges [Ha Hb] _ IH]; intros g0 Hlen.
  { exists g0. split_and!; [done..|]. intros v _. by rewrite app_nil_r. }
  simpl in *.
  destruct (append_neighbor_spec n g0 a b Hlen Ha) as (g1 & -> & Hlen1 & Hadj1).
  simpl.
  destruct (IH g1 Hlen1) as (g' & -> & Hlen' & Hadj').
  exists g'. split_and!; [done..|].
  intros v Hv. rewrite Hadj', Hadj1 by done. by rewrite <- !app_assoc.
Qed.

(** A graph with [n] adjacency lists whose entries are vertices is well
    formed. *)
Lemma wf_graph_adj (g : graph) (n : Z) :
  0 ≤ n → length g = Z.to_nat n →
  (∀ v, vertex n v → Forall (vertex n) (adj g v)) → wf_graph g n.
Proof.
  intros Hn Hlen Hadj. split_and!; [done|unfold py_len; lia|].
  apply Forall_lookup_2. intros i us Hi.
  pose proof (lookup_lt_Some _ _ _ Hi) as Hlt.
  specialize (Hadj (Z.of_nat i)). unfold adj in Hadj.
  rewrite Nat2Z.id, Hi in Hadj. apply Hadj. unfold vertex. lia.
Qed.

Lemma adj_py_repeat_nil (n v : Z) : adj (py_repeat [] n) v = [].
Proof.
  unfold adj, py_repeat.
  destruct (replicate (Z.to_nat n) [] !! Z.to_nat v) as [us|] eqn:Hus; [|done].
  by apply lookup_replicate_1 in Hus as [-> _].
Qed.

(** X4: the construction loop of the undirected modules, for [n >= 0] and
    edges whose ends are in [[0, n)], yields a well-formed graph with [n]
    adjacency lists; the list of [v] holds the other ends of the edges at
    [v] in the order of the edge list, so [(a, b)] is an edge exactly when
    [(a, b)] or [(b, a)] is in the list, and the graph is symmetric. *)
Theorem undirected_graph_spec (n : Z) (edges : list (Z * Z)) :
  0 ≤ n → edges_in_range n edges →
  ∃ g,
    Main.undirected_graph n edges = Ok g ∧
    py_len g = n ∧ wf_graph g n ∧
    (∀ v, vertex n v → adj g v = all_neighbors edges v) ∧
    (∀ a b, edge g n a b ↔ (a, b) ∈ edges ∨ (b, a) ∈ edges) ∧
    symmetric g n.
Proof.
  intros Hn Hedges. unfold Main.undirected_graph.
  destruct (add_undirected_spec n edges (py_repeat [] n))
    as (g & -> & Hlen & Hadj); [apply py_repeat_length|done|].
  assert (∀ v, vertex n v → adj g v = all_neighbors edges v) as Hadj'.
  { intros v Hv. by rewrite Hadj, adj_py_repeat_nil. }
  assert (∀ a b, (a, b) ∈ edges → vertex n a ∧ vertex n b) as Hends.
  { intros a b Hab. unfold edges_in_range in Hedges.
    rewrite Forall_forall in Hedges. by apply (Hedges (a, b)). }
  assert (∀ a b, edge g n a b ↔ (a, b) ∈ edges ∨ (b, a) ∈ edges) as Hedge.
  { intros a b. unfold edge. split.
    - intros [Ha Hb]. rewrite Hadj' in Hb by done. by apply all_neighbors_elem.
    - intros Hab. assert (vertex n a) as Ha.
      { destruct Hab as [Hab|Hab]; by apply Hends in Hab as [? ?]. }
      split; [done|]. rewrite Hadj' by done. by apply all_neighbors_elem. }
  exists g. split_and!; [done|unfold py_len; lia| |done|done|].
  - apply wf_graph_adj; [done..|]. intros v Hv. apply Forall_forall.
    intros u Hu. rewrite Hadj' in Hu by done.
    apply all_neighbors_elem in Hu as [Hu|Hu]; by apply Hends in Hu as [? ?].
  - intros a b. rewrite !Hedge. tauto.
Qed.

Lemma undirected_graph_spec_witness :
  0 ≤ 5 ∧ edges_in_range 5 [(0, 1); (0, 2); (1, 3); (2, 4)] ∧
  ∃ g,
    Main.undirected_graph 5 [(0, 1); (0, 2); (1, 3); (2, 4)] = Ok g ∧
    py_len g = 5 ∧ wf_graph g 5 ∧
    (∀ v, vertex 5 v → adj g v = all_neighbors [(0, 1); (0, 2); (1, 3); (2, 4)] v) ∧
    (∀ a b, edge g 5 a b ↔
            (a, b) ∈ [(0, 1); (0, 2); (1, 3); (2, 4)] ∨
            (b, a) ∈ [(0, 1); (0, 2); (1, 3); (2, 4)]) ∧
    symmetric g 5.
Proof.
  assert (0 ≤ 5) as Hn by lia.
  assert (edges_in_range 5 [(0, 1); (0, 2); (1, 3); (2, 4)]) as Hedges
    by (apply (bool_decide_unpack _); by vm_compute).
  split_and!; [exact Hn|exact Hedges|].
  exact (undirected_graph_spec 5 [(0, 1); (0, 2); (1, 3); (2, 4)] Hn Hedges).
Defined.

(** X5: the construction loop of the directed modules, for [n >= 0] and
    edges whose ends are in [[0, n)], yields a well-formed graph with [n]
    adjacency lists; the list of [v] holds the targets of the edges that
    leave [v] in the order of the edge list, so [(a, b)] is an edge exactly
    when it is in the list. *)
Theorem directed_graph_spec (n : Z) (edges : list (Z * Z)) :
  0 ≤ n → edges_in_range n edges →
  ∃ g,
    Main.directed_graph n edges = Ok g ∧
    py_len g = n ∧ wf_graph g n ∧
    (∀ v, vertex n v → adj g v = out_neighbors edges v) ∧
    (∀ a b, edge g n a b ↔ (a, b) ∈ edges).
Proof.
  intros Hn Hedges. unfold Main.directed_graph.
  destruct (add_directed_spec n edges (py_repeat [] n))
    as (g & -> & Hlen & Hadj); [apply py_repeat_length|done|].
  assert (∀ v, vertex n v → adj g v = out_neighbors edges v) as Hadj'.
  { intros v Hv. by rewrite Hadj, adj_py_repeat_nil. }
  assert (∀ a b, (a, b) ∈ edges → vertex n a ∧ vertex n b) as Hends.
  { intros a b Hab. unfold edges_in_range in Hedges.
    rewrite Forall_forall in Hedges. by apply (Hedges (a, b)). }
  exists g. split_and!; [done|unfold py_len; lia| |done|].
  - apply wf_graph_adj; [done..|]. intros v Hv. apply Forall_forall.
    intros u Hu. rewrite Hadj' in Hu by done.
    by apply out_neighbors_elem, Hends in Hu as [? ?].
  - intros a b. unfold edge. split.
    + intros [Ha Hb]. rewrite Hadj' in Hb by done. by apply out_neighbors_elem.
    + intros Hab. destruct (Hends a b Hab) as [Ha _]. split; [done|].
      rewrite Hadj' by done. by apply out_neighbors_elem.
Qed.

Lemma directed_graph_spec_witness :
  0 ≤ 6 ∧ edges_in_range 6 [(5, 2); (5, 0); (4, 0); (4, 1); (2, 3); (3, 1)] ∧
  ∃ g,
    Main.directed_graph 6 [(5, 2); (5, 0); (4, 0); (4, 1); (2, 3); (3, 1)] = Ok g ∧
    py_len g = 6 ∧ wf_graph g 6 ∧
    (∀ v, vertex 6 v →
          adj g v = out_neighbors [(5, 2); (5, 0); (4, 0); (4, 1); (2, 3); (3, 1)] v) ∧
    (∀ a b, edge g 6 a b ↔
            (a, b) ∈ [(5, 2); (5, 0); (4, 0); (4, 1); (2, 3); (3, 1)]).
Proof.
  assert (0 ≤ 6) as Hn by lia.
  assert (edges_in_range 6 [(5, 2); (5, 0); (4, 0); (4, 1); (2, 3); (3, 1)]) as Hedges
    by (apply (bool_decide_unpack _); by vm_compute).
  split_and!; [exact Hn|exact Hedges|].
  exact (directed_graph_spec 6 [(5, 2); (5, 0); (4, 0); (4, 1); (2, 3); (3, 1)] Hn Hedges).
Defined.

(** The graphs of the [__main__] blocks. *)
Example example_undirected_built :
  Main.undirected_graph 5 [(0, 1); (0, 2); (1, 3); (2, 4)] = Ok example_undirected.
Proof. reflexivity. Qed.

Example example_directed_built :
  Main.directed_graph 5 [(0, 1); (0, 2); (1, 3); (2, 4); (4, 1)] = Ok example_directed.
Proof. reflexivity. Qed.

Example example_dag_built :
  Main.directed_graph 6 [(5, 2); (5, 0); (4, 0); (4, 1); (2, 3); (3, 1)] = Ok example_dag.
Proof. reflexivity. Qed.

Lemma append_neighbor_cases (n : Z) (g0 : graph) (a b : Z) :
  length g0 = Z.to_nat n →
  (in_range n a ∧ ∃ g', Main.append_neighbor g0 a b = Ok g' ∧ length g' = Z.to_nat n) ∨
  (¬ in_range n a ∧ Main.append_neighbor g0 a b = IndexError).
Proof.
  intros Hlen. unfold Main.append_neighbor, py_get, py_set, in_range.
  destruct (py_index (length g0) a) as [k|] eqn:Hk.
  - left. pose proof (py_index_lt _ _ _ Hk) as Hlt.
    destruct (lookup_lt_is_Some_2 g0 k Hlt) as [us ->]. simpl.
    split; [|eexists; split; [done|by rewrite length_insert]].
    unfold py_index in Hk. repeat case_bool_decide; try done; lia.
  - right. split; [|done].
    unfold py_index in Hk. repeat case_bool_decide; try done; lia.
Qed.

Lemma add_undirected_error (n : Z) (edges : list (Z * Z)) (g0 : graph) :
  length g0 = Z.to_nat n →
  (Exists (λ e, ¬ (in_range n e.1 ∧ in_range n e.2)) edges ∧
   Main.add_undirected edges g0 = IndexError) ∨
  (Forall (λ e, in_range n e.1 ∧ in_range n e.2) edges ∧
   ∃ g', Main.add_undirected edges g0 = Ok g' ∧ length g' = Z.to_nat n).
Proof.
  revert g0. induction edges as [|[a b] edges IH]; intros g0 Hlen.
  { right. split; [constructor|]. by exists g0. }
  simpl.
  destruct (append_neighbor_cases n g0 a b Hlen)
    as [[Ha (g1 & -> & Hlen1)]|[Ha ->]]; simpl;
    [|left; split; [apply Exists_cons_hd; simpl; tauto|done]].
  destruct (append_neighbor_cases n g1 b a Hlen1)
    as [[Hb (g2 & -> & Hlen2)]|[Hb ->]]; simpl;
    [|left; split; [apply Exists_cons_hd; simpl; tauto|done]].
  destruct (IH g2 Hlen2) as [[Hex ->]|[Hall (g' & -> & Hlen')]].
  - left. split; [by apply Exists_cons_tl|done].
  - right. split; [by constructor|]. by exists g'.
Qed.

Lemma add_directed_error (n : Z) (edges : list (Z * Z)) (g0 : graph) :
  length g0 = Z.to_nat n →
  (Exists (λ e, ¬ in_range n e.1) edges ∧
   Main.add_directed edges g0 = IndexError) ∨
  (Forall (λ e, in_range n e.1) edges ∧
   ∃ g', Main.add_directed edges g0 = Ok g' ∧ length g' = Z.to_nat n).
Proof.
  revert g0. induction edges as [|[a b] edges IH]; intros g0 Hlen.
  { right. split; [constructor|]. by exists g0. }
  simpl.
  destruct (append_neighbor_cases n g0 a b Hlen)
    as [[Ha (g1 & -> & Hlen1)]|[Ha ->]]; simpl;
    [|left; split; [by apply Exists_cons_hd|done]].
  destruct (IH g1 Hlen1) as [[Hex ->]|[Hall (g' & -> & Hlen')]].
  - left. split; [by apply Exists_cons_tl|done].
  - right. split; [by constructor|]. by exists g'.
Qed.

(** X6: the construction loops raise [IndexError] exactly when an index they
    use is outside [[-n, n)]: either end of an edge for the undirected loop,
    only the source end for the directed loop, which stores an out-of-range
    target without complaint. *)
Theorem graph_construction_index_error (n : Z) (edges : list (Z * Z)) :
  (Main.undirected_graph n edges = IndexError ↔
   Exists (λ e, ¬ (in_range n e.1 ∧ in_range n e.2)) edges) ∧
  (Main.directed_graph n edges = IndexError ↔
   Exists (λ e, ¬ in_range n e.1) edges).
Proof.
  unfold Main.undirected_graph, Main.directed_graph. split.
  - destruct (add_undirected_error n edges (py_repeat [] n) (py_repeat_length _ _))
      as [[Hex ->]|[Hall (g' & -> & _)]]; [done|].
    split; [done|]. intros Hex. exfalso.
    rewrite Forall_forall in Hall. apply Exists_exists in Hex as (e & He & Hbad).
    by apply Hbad, Hall.
  - destruct (add_directed_error n edges (py_repeat [] n) (py_repeat_length _ _))
      as [[Hex ->]|[Hall (g' & -> & _)]]; [done|].
    split; [done|]. intros Hex. exfalso.
    rewrite Forall_forall in Hall. apply Exists_exists in Hex as (e & He & Hbad).
    by apply Hbad, Hall.
Qed.

(** The directed loop accepts an edge to a vertex that does not exist. *)
Example example_directed_dangling :
  Main.directed_graph 2 [(0, 7)] = Ok [[7]; []].
Proof. reflexivity. Qed.

(** ** Empty vertex ranges and starts outside the range *)

Lemma py_range_nonpos (n : Z) : n ≤ 0 → py_range n = [].
Proof. intros Hn. unfold py_range. by replace (Z.to_nat n) with 0%nat by lia. Qed.

Lemma py_index_out (n i : Z) : ¬ in_range n i → py_index (Z.to_nat n) i = None.
Proof.
  unfold in_range, py_index. intros Hi.
  rewrite !bool_decide_eq_false_2; [done|lia..].
Qed.

Lemma py_get_out {A} (n i : Z) (l : list A) :
  length l = Z.to_nat n → ¬ in_range n i → py_get l i = IndexError.
Proof. intros Hlen Hi. unfold py_get. by rewrite Hlen, py_index_out. Qed.

Lemma py_set_out {A} (n i : Z) (l : list A) (x : A) :
  length l = Z.to_nat n → ¬ in_range n i → py_set l i x = IndexError.
Proof. intros Hlen Hi. unfold py_set. by rewrite Hlen, py_index_out. Qed.

(** X7: with [n <= 0] no adjacency list is read: for every graph the
    whole-graph traversals return the empty order and
    [topological_sort_dfs] returns the empty order, while
    [topological_sort_kahn] returns the empty order for [n = 0] but [None]
    for [n < 0], since it compares the length of its result with [n]. *)
Theorem no_vertices (g : graph) (n : Z) (fuel : nat) :
  n ≤ 0 →
  BfsUndirected.bfs_undirected_all_components fuel g n = Ok [] ∧
  DfsUndirected.dfs_undirected_all_components fuel g n = Ok [] ∧
  BfsDirected.bfs_directed_all_reachable fuel g n = Ok [] ∧
  DfsDirected.dfs_directed_all_components fuel g n = Ok [] ∧
  TopologicalSort.topological_sort_dfs fuel g n = Ok (Some []) ∧
  TopologicalSort.topological_sort_kahn fuel g n
    = Ok (if bool_decide (n = 0) then Some [] else None).
Proof.
  intros Hn.
  unfold BfsUndirected.bfs_undirected_all_components,
    DfsUndirected.dfs_undirected_all_components,
    BfsDirected.bfs_directed_all_reachable,
    DfsDirected.dfs_directed_all_components,
    TopologicalSort.topological_sort_dfs, TopologicalSort.topological_sort_kahn.
  rewrite (py_range_nonpos n Hn). split_and!; try done.
  simpl. destruct fuel; simpl; repeat case_bool_decide; try done; lia.
Qed.

Lemma no_vertices_witness :
  -1 ≤ 0 ∧
  BfsUndirected.bfs_undirected_all_components 0 example_dag (-1) = Ok [] ∧
  DfsUndirected.dfs_undirected_all_components 0 example_dag (-1) = Ok [] ∧
  BfsDirected.bfs_directed_all_reachable 0 example_dag (-1) = Ok [] ∧
  DfsDirected.dfs_directed_all_components 0 example_dag (-1) = Ok [] ∧
  TopologicalSort.topological_sort_dfs 0 example_dag (-1) = Ok (Some []) ∧
  TopologicalSort.topological_sort_kahn 0 example_dag (-1)
    = Ok (if bool_decide (-1 = 0) then Some [] else None).
Proof.
  assert (-1 ≤ 0) as Hn by lia.
  split; [exact Hn|]. exact (no_vertices example_dag (-1) 0 Hn).
Defined.

(** X8: a start outside [[-n, n)] makes every single-source traversal raise
    [IndexError] at its first access to [visited], whatever the graph. *)
Theorem start_out_of_range (g : graph) (n start : Z) (fuel : nat) (order : list Z) :
  ¬ in_range n start → (0 < fuel)%nat →
  BfsUndirected.bfs_undirected fuel g start n = IndexError ∧
  BfsDirected.bfs_directed fuel g start n = IndexError ∧
  DfsUndirected.dfs_undirected_iterative fuel g start n = IndexError ∧
  DfsDirected.dfs_directed_iterative fuel g start n = IndexError ∧
  DfsUndirected.dfs_undirected_recursive fuel g start (py_repeat false n) order
    = IndexError ∧
  DfsDirected.dfs_directed_recursive fuel g start (py_repeat false n) order
    = IndexError.
Proof.
  intros Hstart Hfuel. destruct fuel as [|fuel]; [lia|].
  assert (py_set (py_repeat false n) start true = IndexError) as Hset
    by (by apply (py_set_out n); [apply py_repeat_length|]).
  assert (py_get (py_repeat false n) start = IndexError) as Hget
    by (by apply (py_get_out n); [apply py_repeat_length|]).
  unfold BfsUndirected.bfs_undirected, BfsDirected.bfs_directed,
    DfsUndirected.dfs_undirected_iterative, DfsDirected.dfs_directed_iterative.
  simpl. unfold DfsUndirected.step, DfsDirected.step. simpl.
  by rewrite Hset, Hget.
Qed.

Lemma start_out_of_range_witness :
  ¬ in_range 5 5 ∧ (0 < 1)%nat ∧
  BfsUndirected.bfs_undirected 1 example_undirected 5 5 = IndexError ∧
  BfsDirected.bfs_directed 1 example_undirected 5 5 = IndexError ∧
  DfsUndirected.dfs_undirected_iterative 1 example_undirected 5 5 = IndexError ∧
  DfsDirected.dfs_directed_iterative 1 example_undirected 5 5 = IndexError ∧
  DfsUndirected.dfs_undirected_recursive 1 example_undirected 5 (py_repeat false 5) []
    = IndexError ∧
  DfsDirected.dfs_directed_recursive 1 example_undirected 5 (py_repeat false 5) []
    = IndexError.
Proof.
  assert (¬ in_range 5 5) as Hstart by (unfold in_range; lia).
  assert (0 < 1)%nat as Hfuel by lia.
  split; [exact Hstart|]. split; [exact Hfuel|].
  exact (start_out_of_range example_undirected 5 5 1 [] Hstart Hfuel).
Defined.

(** ** The traversals never read [order] *)

Lemma bfs_step_order (g : graph) (o : list Z) (v : list bool) (q : list Z)
    (st' : bfs_state) :
  BfsUndirected.step g (BfsState o v q) = Ok st' →
  ∃ r, bfs_order st' = o ++ r ∧
       ∀ o', BfsUndirected.step g (BfsState o' v q)
             = Ok (BfsState (o' ++ r) (bfs_visited st') (bfs_queue st')).
Proof.
  unfold BfsUndirected.step. simpl. destruct q as [|x q].
  - intros [= <-]. exists []. simpl. split; [by rewrite app_nil_r|].
    intros o'. by rewrite app_nil_r.
  - intros (us & -> & Hrest)%bind_Ok. simpl in *.
    apply bind_Ok in Hrest as ([vis q'] & -> & [= <-]). by exists [x].
Qed.

Lemma bfs_while_order (fuel : nat) (g : graph) (o : list Z) (v : list bool)
    (q : list Z) (st' : bfs_state) :
  BfsUndirected.while fuel g (BfsState o v q) = Ok st' →
  ∃ r, bfs_order st' = o ++ r ∧
       ∀ o', BfsUndirected.while fuel g (BfsState o' v q)
             = Ok (BfsState (o' ++ r) (bfs_visited st') (bfs_queue st')).
Proof.
  revert o v q.
  assert (∀ fuel o v, BfsUndirected.while fuel g (BfsState o v []) = Ok st' →
    ∃ r, bfs_order st' = o ++ r ∧
         ∀ o', BfsUndirected.while fuel g (BfsState o' v [])
               = Ok (BfsState (o' ++ r) (bfs_visited st') (bfs_queue st'))) as Hnil.
  { intros fuel' o v Hrun. exists [].
    destruct fuel'; simpl in *; injection Hrun as <-; simpl;
      (split; [by rewrite app_nil_r|intros o'; by rewrite app_nil_r]). }
  induction fuel as [|fuel IH]; intros o v q; (destruct q as [|x q]; [apply Hnil|]);
    [done|].
  simpl. intros ([o1 v1 q1] & Hstep & Hwhile)%bind_Ok.
  destruct (bfs_step_order _ _ _ _ _ Hstep) as (r1 & Ho1 & Hstep').
  simpl in *. subst o1.
  destruct (IH _ _ _ Hwhile) as (r2 & Ho2 & Hwhile').
  exists (r1 ++ r2). split; [by rewrite Ho2, app_assoc|].
  intros o'. rewrite Hstep'. simpl. rewrite (Hwhile' (o' ++ r1)). by rewrite app_assoc.
Qed.

Lemma bfs_component_order (fuel : nat) (g : graph) (start : Z) (o : list Z)
    (v : list bool) (o' : list Z) (v' : list bool) :
  BfsUndirected.component fuel g start o v = Ok (o', v') → ∃ r, o' = o ++ r.
Proof.
  unfold BfsUndirected.component. intros (b & _ & Hrest)%bind_Ok.
  destruct b.
  - injection Hrest as <- <-. exists []. by rewrite app_nil_r.
  - apply bind_Ok in Hrest as (v1 & _ & (st & Hwhile & [= <- <-])%bind_Ok).
    apply bfs_while_order in Hwhile as (r & Hr & _). by exists r.
Qed.

Lemma bfs_components_order (fuel : nat) (g : graph) (starts : list Z) (o : list Z)
    (v : list bool) (o' : list Z) (v' : list bool) :
  BfsUndirected.components fuel g starts o v = Ok (o', v') → ∃ r, o' = o ++ r.
Proof.
  revert o v. induction starts as [|s starts IH]; intros o v; simpl.
  - intros [= <- <-]. exists []. by rewrite app_nil_r.
  - intros ([o1 v1] & [r1 ->]%bfs_component_order & [r2 ->]%IH)%bind_Ok.
    exists (r1 ++ r2). by rewrite app_assoc.
Qed.

Lemma dfs_step_order (g : graph) (o : list Z) (v : list bool) (stk : list Z)
    (st' : dfs_state) :
  DfsUndirected.step g (DfsState o v stk) = Ok st' →
  ∃ r, dfs_order st' = o ++ r ∧
       ∀ o', DfsUndirected.step g (DfsState o' v stk)
             = Ok (DfsState (o' ++ r) (dfs_visited st') (dfs_stack st')).
Proof.
  unfold DfsUndirected.step. simpl. destruct stk as [|x stk].
  - intros [= <-]. exists []. simpl. split; [by rewrite app_nil_r|].
    intros o'. by rewrite app_nil_r.
  - intros (b & -> & Hrest)%bind_Ok. simpl. destruct b.
    + injection Hrest as <-. exists []. simpl. split; [by rewrite app_nil_r|].
      intros o'. by rewrite app_nil_r.
    + apply bind_Ok in Hrest as (v1 & -> & Hrest). simpl in *.
      apply bind_Ok in Hrest as (us & -> & Hrest). simpl in *.
      apply bind_Ok in Hrest as (stk' & -> & [= <-]). by exists [x].
Qed.

Lemma dfs_while_order (fuel : nat) (g : graph) (o : list Z) (v : list bool)
    (stk : list Z) (st' : dfs_state) :
  DfsUndirected.while fuel g (DfsState o v stk) = Ok st' →
  ∃ r, dfs_order st' = o ++ r ∧
       ∀ o', DfsUndirected.while fuel g (DfsState o' v stk)
             = Ok (DfsState (o' ++ r) (dfs_visited st') (dfs_stack st')).
Proof.
  revert o v stk.
  assert (∀ fuel o v, DfsUndirected.while fuel g (DfsState o v []) = Ok st' →
    ∃ r, dfs_order st' = o ++ r ∧
         ∀ o', DfsUndirected.while fuel g (DfsState o' v [])
               = Ok (DfsState (o' ++ r) (dfs_visited st') (dfs_stack st'))) as Hnil.
  { intros fuel' o v Hrun. exists [].
    destruct fuel'; simpl in *; injection Hrun as <-; simpl;
      (split; [by rewrite app_nil_r|intros o'; by rewrite app_nil_r]). }
  induction fuel as [|fuel IH]; intros o v stk;
    (destruct stk as [|x stk]; [apply Hnil|]); [done|].
  simpl. intros ([o1 v1 stk1] & Hstep & Hwhile)%bind_Ok.
  destruct (dfs_step_order _ _ _ _ _ Hstep) as (r1 & Ho1 & Hstep').
  simpl in *. subst o1.
  destruct (IH _ _ _ Hwhile) as (r2 & Ho2 & Hwhile').
  exists (r1 ++ r2). split; [by rewrite Ho2, app_assoc|].
  intros o'. rewrite Hstep'. simpl. rewrite (Hwhile' (o' ++ r1)). by rewrite app_assoc.
Qed.

Lemma dfs_visit_each_order
    (rec : Z → list bool → list Z → res (list bool * list Z)) :
  (∀ u vis o vis' o',
     rec u vis o = Ok (vis', o') →
     ∃ r, o' = o ++ r ∧ ∀ o2, rec u vis o2 = Ok (vis', o2 ++ r)) →
  ∀ us vis o vis' o',
    DfsUndirected.visit_each rec us vis o = Ok (vis', o') →
    ∃ r, o' = o ++ r ∧
         ∀ o2, DfsUndirected.visit_each rec us vis o2 = Ok (vis', o2 ++ r).
Proof.
  intros Hrec us. induction us as [|u us IH]; intros vis o vis' o'.
  { intros [= <- <-]. exists []. split; [by rewrite app_nil_r|].
    intros o2. by rewrite app_nil_r. }
  simpl. intros (b & -> & Hrest)%bind_Ok. simpl. destruct b; simpl in *.
  - by apply IH.
  - apply bind_Ok in Hrest as ([vis1 o1] & Hcall & Hrest).
    destruct (Hrec _ _ _ _ _ Hcall) as (r1 & -> & Hcall').
    destruct (IH _ _ _ _ Hrest) as (r2 & -> & Hrest').
    exists (r1 ++ r2). split; [by rewrite app_assoc|].
    intros o2. rewrite Hcall'. simpl. rewrite Hrest'. by rewrite app_assoc.
Qed.

Lemma dfs_recursive_order (fuel : nat) (g : graph) (start : Z)
    (vis : list bool) (o : list Z) (vis' : list bool) (o' : list Z) :
  DfsUndirected.dfs_undirected_recursive fuel g start vis o = Ok (vis', o') →
  ∃ r, o' = o ++ r ∧
       ∀ o2, DfsUndirected.dfs_undirected_recursive fuel g start vis o2
             = Ok (vis', o2 ++ r).
Proof.
  revert start vis o vis' o'.
  induction fuel as [|fuel IH]; intros start vis o vis' o'; [done|].
  simpl. intros (vis1 & -> & Hloop)%bind_Ok. simpl in *.
  apply bind_Ok in Hloop as (us & -> & Hloop). simpl in *.
  apply (dfs_visit_each_order _ (IH)) in Hloop as (r & -> & Hloop').
  exists (start :: r). split; [by rewrite <- app_assoc|].
  intros o2. rewrite Hloop'. by rewrite <- app_assoc.
Qed.

(** ** Negative starts *)

Lemma py_index_wrap (n i : Z) :
  - n ≤ i < 0 → py_index (Z.to_nat n) i = py_index (Z.to_nat n) (n + i).
Proof.
  intros Hi. unfold py_index.
  rewrite (bool_decide_eq_false_2 (0 ≤ i < _)) by lia.
  rewrite (bool_decide_eq_true_2 (- _ ≤ i < 0)) by lia.
  rewrite (bool_decide_eq_true_2 (0 ≤ n + i < _)) by lia.
  f_equal. lia.
Qed.

Lemma py_get_wrap {A} (n i : Z) (l : list A) :
  length l = Z.to_nat n → - n ≤ i < 0 → py_get l i = py_get l (n + i).
Proof. intros Hlen Hi. unfold py_get. by rewrite Hlen, py_index_wrap. Qed.

Lemma py_set_wrap {A} (n i : Z) (l : list A) (x : A) :
  length l = Z.to_nat n → - n ≤ i < 0 → py_set l i x = py_set l (n + i) x.
Proof. intros Hlen Hi. unfold py_set. by rewrite Hlen, py_index_wrap. Qed.

Section negative_start.
Variables (g : graph) (n : Z).
Hypothesis Hwf : wf_graph g n.
Hypothesis Hlen : py_len g = n.
Variable start : Z.
Hypothesis Hstart : - n ≤ start < 0.

Lemma negative_start_vertex : vertex n (n + start).
Proof. unfold vertex. lia. Qed.

Lemma bfs_negative_start (fuel : nat) :
  (Z.to_nat n ≤ fuel)%nat →
  ∃ rest,
    BfsUndirected.bfs_undirected fuel g (n + start) n = Ok ((n + start) :: rest) ∧
    BfsUndirected.bfs_undirected fuel g start n = Ok (start :: rest).
Proof.
  intros Hfuel.
  destruct (bfs_reaches g n Hwf fuel (n + start) negative_start_vertex Hfuel)
    as (order & Hrun & _).
  pose proof Hrun as Hrun'. unfold BfsUndirected.bfs_undirected in Hrun'.
  apply bind_Ok in Hrun' as (vis1 & Hset & (st & Hwhile & [= <-])%bind_Ok).
  destruct fuel as [|fuel]; [done|]. simpl in Hwhile.
  apply bind_Ok in Hwhile as (st1 & Hstep & Hwhile).
  unfold BfsUndirected.step in Hstep. simpl in Hstep.
  apply bind_Ok in Hstep as (us & Hus & ([v2 q2] & Hscan & [= <-])%bind_Ok).
  apply bfs_while_order in Hwhile as (r & Hr & Hwhile').
  exists r. split; [by rewrite Hrun, Hr|].
  unfold BfsUndirected.bfs_undirected.
  rewrite (py_set_wrap n) by (by rewrite ?py_repeat_length).
  rewrite Hset. simpl. unfold BfsUndirected.step. simpl.
  rewrite (py_get_wrap n) by (unfold py_len in Hlen; lia || done).
  rewrite Hus. simpl. rewrite Hscan. simpl. by rewrite Hwhile'.
Qed.

Lemma dfs_recursive_negative_start (fuel : nat) :
  (Z.to_nat n ≤ fuel)%nat →
  ∃ visited rest,
    DfsUndirected.dfs_undirected_recursive fuel g (n + start) (py_repeat false n) []
      = Ok (visited, (n + start) :: rest) ∧
    DfsUndirected.dfs_undirected_recursive fuel g start (py_repeat false n) []
      = Ok (visited, start :: rest).
Proof.
  intros Hfuel.
  destruct (dfs_recursive_reaches g n Hwf fuel (n + start) negative_start_vertex Hfuel)
    as (visited & order & Hrun & _).
  exists visited. pose proof Hrun as Hrun'.
  destruct fuel as [|fuel]; [done|]. simpl in Hrun'.
  apply bind_Ok in Hrun' as (vis1 & Hset & (us & Hus & Hloop)%bind_Ok).
  apply (dfs_visit_each_order _ (dfs_recursive_order fuel g)) in Hloop
    as (r & -> & Hloop').
  exists r. split; [done|]. simpl.
  rewrite (py_set_wrap n) by (by rewrite ?py_repeat_length).
  rewrite Hset. simpl.
  rewrite (py_get_wrap n) by (unfold py_len in Hlen; lia || done).
  rewrite Hus. simpl. by rewrite Hloop'.
Qed.

Lemma dfs_iterative_negative_start (fuel : nat) :
  (S (sum_list (length <$> g)) ≤ fuel)%nat →
  ∃ rest,
    DfsUndirected.dfs_undirected_iterative fuel g (n + start) n = Ok ((n + start) :: rest) ∧
    DfsUndirected.dfs_undirected_iterative fuel g start n = Ok (start :: rest).
Proof.
  intros Hfuel.
  destruct (dfs_iterative_reaches g n Hwf fuel (n + start) negative_start_vertex Hfuel)
    as (order & Hrun & _).
  pose proof Hrun as Hrun'. unfold DfsUndirected.dfs_undirected_iterative in Hrun'.
  apply bind_Ok in Hrun' as (st & Hwhile & [= <-]).
  destruct fuel as [|fuel]; [done|]. simpl in Hwhile.
  apply bind_Ok in Hwhile as (st1 & Hstep & Hwhile).
  unfold DfsUndirected.step in Hstep. simpl in Hstep.
  apply bind_Ok in Hstep as (b & Hb & Hstep).
  destruct (marked_get n (py_repeat false n) (n + start))
    as (b' & _ & Hb' & Hmark); [apply py_repeat_length|apply negative_start_vertex|].
  assert (b = false) as ->.
  { rewrite Hb in Hb'. injection Hb' as ->. destruct b'; [|done].
    exfalso. by apply (marked_repeat n (n + start)), Hmark. }
  apply bind_Ok in Hstep
    as (vis1 & Hset & (us & Hus & (stk & Hpush & [= <-])%bind_Ok)%bind_Ok).
  apply dfs_while_order in Hwhile as (r & Hr & Hwhile').
  exists r. split; [by rewrite Hrun, Hr|].
  unfold DfsUndirected.dfs_undirected_iterative. simpl.
  unfold DfsUndirected.step. simpl.
  rewrite (py_get_wrap n (A := bool)) by (by rewrite ?py_repeat_length).
  rewrite Hb. simpl.
  rewrite (py_set_wrap n) by (by rewrite ?py_repeat_length).
  rewrite Hset. simpl.
  rewrite (py_get_wrap n) by (unfold py_len in Hlen; lia || done).
  rewrite Hus. simpl. rewrite Hpush. simpl. by rewrite Hwhile'.
Qed.

End negative_start.

(** X9: a start in [[-n, 0)] is accepted, since Python indexes from the end:
    on a graph with exactly [n] adjacency lists every single-source
    traversal runs as from vertex [n + start], but its output begins with
    the negative [start] itself, which is not a vertex. *)
Theorem negative_start_wraps (g : graph) (n start : Z) (fuel : nat) :
  wf_graph g n → py_len g = n → - n ≤ start < 0 →
  (traversal_fuel g n ≤ fuel)%nat →
  ∃ rest_b rest_d visited,
    BfsUndirected.bfs_undirected fuel g (n + start) n = Ok ((n + start) :: rest_b) ∧
    BfsUndirected.bfs_undirected fuel g start n = Ok (start :: rest_b) ∧
    DfsUndirected.dfs_undirected_iterative fuel g (n + start) n
      = Ok ((n + start) :: rest_d) ∧
    DfsUndirected.dfs_undirected_iterative fuel g start n = Ok (start :: rest_d) ∧
    DfsUndirected.dfs_undirected_recursive fuel g (n + start) (py_repeat false n) []
      = Ok (visited, (n + start) :: rest_d) ∧
    DfsUndirected.dfs_undirected_recursive fuel g start (py_repeat false n) []
      = Ok (visited, start :: rest_d).
Proof.
  unfold traversal_fuel. intros Hwf Hlen Hstart Hfuel.
  destruct (bfs_negative_start g n Hwf Hlen start Hstart fuel) as (rest_b & Hb1 & Hb2);
    [lia|].
  destruct (dfs_iterative_negative_start g n Hwf Hlen start Hstart fuel)
    as (rest_i & Hi1 & Hi2); [lia|].
  destruct (dfs_recursive_negative_start g n Hwf Hlen start Hstart fuel)
    as (visited & rest_r & Hr1 & Hr2); [lia|].
  destruct (dfs_iterative_recursive g n Hwf fuel (n + start))
    as (visited' & order & Hi & Hr); [unfold vertex; lia|lia|].
  rewrite Hi in Hi1. rewrite Hr in Hr1.
  injection Hi1 as ->. injection Hr1 as Hv ->. subst visited'.
  by exists rest_b, rest_r, visited.
Qed.

Lemma negative_start_wraps_witness :
  wf_graph example_undirected 5 ∧ py_len example_undirected = 5 ∧ - 5 ≤ -1 < 0 ∧
  (traversal_fuel example_undirected 5 ≤ 14)%nat ∧
  ∃ rest_b rest_d visited,
    BfsUndirected.bfs_undirected 14 example_undirected (5 + -1) 5
      = Ok ((5 + -1) :: rest_b) ∧
    BfsUndirected.bfs_undirected 14 example_undirected (-1) 5 = Ok (-1 :: rest_b) ∧
    DfsUndirected.dfs_undirected_iterative 14 example_undirected (5 + -1) 5
      = Ok ((5 + -1) :: rest_d) ∧
    DfsUndirected.dfs_undirected_iterative 14 example_undirected (-1) 5
      = Ok (-1 :: rest_d) ∧
    DfsUndirected.dfs_undirected_recursive 14 example_undirected (5 + -1)
      (py_repeat false 5) [] = Ok (visited, (5 + -1) :: rest_d) ∧
    DfsUndirected.dfs_undirected_recursive 14 example_undirected (-1)
      (py_repeat false 5) [] = Ok (visited, -1 :: rest_d).
Proof.
  assert (wf_graph example_undirected 5) as Hwf
    by (apply (bool_decide_unpack _); by vm_compute).
  assert (py_len example_undirected = 5) as Hlen by reflexivity.
  assert (- 5 ≤ -1 < 0) as Hstart by lia.
  assert (traversal_fuel example_undirected 5 ≤ 14)%nat as Hfuel by (vm_compute; lia).
  split; [exact Hwf|]. split; [exact Hlen|]. split; [exact Hstart|].
  split; [exact Hfuel|].
  exact (negative_start_wraps example_undirected 5 (-1) 14 Hwf Hlen Hstart Hfuel).
Defined.

(** The output of the example for the last vertex given as [-1]. *)
Example example_bfs_negative_start :
  BfsUndirected.bfs_undirected 5 example_undirected (-1) 5 = Ok [-1; 2; 0; 1; 3].
Proof. reflexivity. Qed.

(** ** The first group of a whole-graph traversal *)

Lemma py_range_pos (n : Z) :
  0 < n → py_range n = 0 :: (Z.of_nat <$> seq 1 (Z.to_nat n - 1)).
Proof.
  intros Hn. unfold py_range.
  replace (Z.to_nat n) with (S (Z.to_nat n - 1)) at 1 by lia. done.
Qed.

Lemma unreached_rest (g : graph) (n : Z) (order rest : list Z) :
  0 < n → order ++ rest ≡ₚ py_range n →
  (∀ v, v ∈ order ↔ reachable g n 0 v) →
  ∀ v, v ∈ rest ↔ vertex n v ∧ ¬ reachable g n 0 v.
Proof.
  intros Hn Hperm Hreach v.
  assert (NoDup (order ++ rest)) as Hnd by (rewrite Hperm; apply py_range_NoDup).
  apply NoDup_app in Hnd as (_ & Hdisj & _).
  rewrite <- py_range_elem, <- Hperm, elem_of_app, <- Hreach. split.
  - intros Hv. split; [by right|]. intros Hv'. by apply (Hdisj v).
  - intros [[Hv|Hv] Hnot]; done.
Qed.

Section first_group.
Variables (g : graph) (n : Z).
Hypothesis Hwf : wf_graph g n.
Hypothesis Hn : 0 < n.

Lemma zero_vertex : vertex n 0.
Proof. unfold vertex. lia. Qed.

Lemma zero_unvisited : py_get (py_repeat false n) 0 = Ok false.
Proof.
  apply py_get_vertex; [lia|]. apply (py_repeat_lookup false n 0 zero_vertex).
Qed.

Lemma bfs_all_components_first (fuel : nat) :
  (Z.to_nat n ≤ fuel)%nat →
  ∃ order rest,
    BfsUndirected.bfs_undirected fuel g 0 n = Ok order ∧
    BfsUndirected.bfs_undirected_all_components fuel g n = Ok (order ++ rest) ∧
    ∀ v, v ∈ rest ↔ vertex n v ∧ ¬ reachable g n 0 v.
Proof.
  intros Hfuel.
  destruct (bfs_all_components_permutation g n Hwf fuel Hfuel) as (all & Hall & Hperm).
  destruct (bfs_reaches g n Hwf fuel 0 zero_vertex Hfuel) as (order & Hrun & _ & Hreach).
  pose proof Hall as Hall'.
  unfold BfsUndirected.bfs_undirected_all_components in Hall'.
  rewrite (py_range_pos n Hn) in Hall'. simpl in Hall'.
  apply bind_Ok in Hall' as ([all' vis'] & Hall' & [= ->]).
  apply bind_Ok in Hall' as ([o1 v1] & Hcomp & Hrest).
  apply bfs_components_order in Hrest as [rest ->].
  unfold BfsUndirected.component in Hcomp. rewrite zero_unvisited in Hcomp.
  simpl in Hcomp.
  apply bind_Ok in Hcomp as (vis1 & Hset & (st & Hwhile & [= <- <-])%bind_Ok).
  assert (order = bfs_order st) as ->.
  { unfold BfsUndirected.bfs_undirected in Hrun. rewrite Hset in Hrun. simpl in Hrun.
    rewrite Hwhile in Hrun. simpl in Hrun. by injection Hrun. }
  exists (bfs_order st), rest. split_and!; [done..|].
  by apply (unreached_rest g n (bfs_order st)).
Qed.

Lemma dfs_all_components_first (fuel : nat) :
  (S (Z.to_nat n + sum_list (length <$> g)) ≤ fuel)%nat →
  ∃ order rest,
    DfsUndirected.dfs_undirected_iterative fuel g 0 n = Ok order ∧
    DfsUndirected.dfs_undirected_all_components fuel g n = Ok (order ++ rest) ∧
    ∀ v, v ∈ rest ↔ vertex n v ∧ ¬ reachable g n 0 v.
Proof.
  intros Hfuel.
  destruct (dfs_all_components_permutation g n Hwf fuel) as (all & Hall & Hperm); [lia|].
  destruct (dfs_iterative_recursive g n Hwf fuel 0 zero_vertex Hfuel)
    as (visited & order & Hiter & Hrec).
  destruct (dfs_iterative_reaches g n Hwf fuel 0 zero_vertex)
    as (order' & Hiter' & _ & Hreach); [lia|].
  rewrite Hiter in Hiter'. injection Hiter' as <-.
  pose proof Hall as Hall'.
  unfold DfsUndirected.dfs_undirected_all_components in Hall'.
  rewrite (py_range_pos n Hn) in Hall'. simpl in Hall'.
  rewrite zero_unvisited in Hall'. simpl in Hall'.
  apply bind_Ok in Hall' as ([vis' all'] & Hall' & [= ->]).
  apply bind_Ok in Hall' as ([v1 o1] & Hcall & Hrest).
  assert (o1 = order) as ->.
  { assert (DfsUndirected.dfs_undirected_recursive fuel g 0 (py_repeat false n) []
            = Ok (v1, o1)) as Hcall' by exact Hcall.
    rewrite Hrec in Hcall'. by injection Hcall'. }
  apply dfs_visit_each_extends in Hrest as [rest ->].
  - exists order, rest. split_and!; [done..|].
    by apply (unreached_rest g n order).
  - intros u vis o vis2 o2 Hu.
    assert (DfsUndirected.dfs_undirected_recursive fuel g u vis o = Ok (vis2, o2))
      as [r ->]%dfs_recursive_extends by exact Hu.
    by exists (u :: r).
Qed.

End first_group.

(** X10: for [n > 0] a whole-graph traversal begins with the output of the
    single-source traversal from vertex 0; what follows are the vertices
    that cannot be reached from vertex 0. *)
Theorem whole_graph_begins_with_vertex_zero (g : graph) (n : Z) (fuel : nat) :
  wf_graph g n → 0 < n → (traversal_fuel g n ≤ fuel)%nat →
  ∃ order_b rest_b order_d rest_d,
    BfsUndirected.bfs_undirected fuel g 0 n = Ok order_b ∧
    BfsUndirected.bfs_undirected_all_components fuel g n = Ok (order_b ++ rest_b) ∧
    DfsUndirected.dfs_undirected_iterative fuel g 0 n = Ok order_d ∧
    DfsUndirected.dfs_undirected_all_components fuel g n = Ok (order_d ++ rest_d) ∧
    ∀ v, (v ∈ rest_b ↔ vertex n v ∧ ¬ reachable g n 0 v) ∧
         (v ∈ rest_d ↔ vertex n v ∧ ¬ reachable g n 0 v).
Proof.
  unfold traversal_fuel. intros Hwf Hn Hfuel.
  destruct (bfs_all_components_first g n Hwf Hn fuel)
    as (order_b & rest_b & Hb1 & Hb2 & Hb3); [lia|].
  destruct (dfs_all_components_first g n Hwf Hn fuel Hfuel)
    as (order_d & rest_d & Hd1 & Hd2 & Hd3).
  exists order_b, rest_b, order_d, rest_d. split_and!; [done..|].
  intros v. split; [apply Hb3|apply Hd3].
Qed.

Lemma whole_graph_begins_with_vertex_zero_witness :
  wf_graph example_directed 5 ∧ 0 < 5 ∧ (traversal_fuel example_directed 5 ≤ 11)%nat ∧
  ∃ order_b rest_b order_d rest_d,
    BfsUndirected.bfs_undirected 11 example_directed 0 5 = Ok order_b ∧
    BfsUndirected.bfs_undirected_all_components 11 example_directed 5
      = Ok (order_b ++ rest_b) ∧
    DfsUndirected.dfs_undirected_iterative 11 example_directed 0 5 = Ok order_d ∧
    DfsUndirected.dfs_undirected_all_components 11 example_directed 5
      = Ok (order_d ++ rest_d) ∧
    ∀ v, (v ∈ rest_b ↔ vertex 5 v ∧ ¬ reachable example_directed 5 0 v) ∧
         (v ∈ rest_d ↔ vertex 5 v ∧ ¬ reachable example_directed 5 0 v).
Proof.
  assert (wf_graph example_directed 5) as Hwf
    by (apply (bool_decide_unpack _); by vm_compute).
  assert (0 < 5) as Hn by lia.
  assert (traversal_fuel example_directed 5 ≤ 11)%nat as Hfuel by (vm_compute; lia).
  split; [exact Hwf|]. split; [exact Hn|]. split; [exact Hfuel|].
  exact (whole_graph_begins_with_vertex_zero example_directed 5 11 Hwf Hn Hfuel).
Defined.

(** ** Kahn's algorithm: where the result starts, and missing adjacency lists *)

Lemma kahn_release_each_extends (us : list Z) (in_degree queue : list Z)
    (in_degree' queue' : list Z) :
  TopologicalSort.release_each us in_degree queue = Ok (in_degree', queue') →
  ∃ new, queue' = queue ++ new.
Proof.
  revert in_degree queue. induction us as [|u us IH]; intros in_degree queue; simpl.
  - intros [= _ <-]. exists []. by rewrite app_nil_r.
  - intros (d & _ & (d1 & _ & (d2 & _ & Hrest)%bind_Ok)%bind_Ok)%bind_Ok.
    case_bool_decide; [|by apply IH in Hrest].
    apply IH in Hrest as [new ->]. exists (u :: new). by rewrite <- app_assoc.
Qed.

Lemma kahn_while_extends (fuel : nat) (g : graph)
    (st st' : TopologicalSort.kahn_state) :
  TopologicalSort.while fuel g st = Ok st' →
  ∃ new, TopologicalSort.kahn_queue st' = TopologicalSort.kahn_queue st ++ new.
Proof.
  revert st. induction fuel as [|fuel IH]; intros st; simpl.
  - case_bool_decide; [done|]. intros [= <-]. exists []. by rewrite app_nil_r.
  - case_bool_decide; [|intros [= <-]; exists []; by rewrite app_nil_r].
    intros (st1 & Hstep & [new2 ->]%IH)%bind_Ok.
    unfold TopologicalSort.step in Hstep.
    apply bind_Ok in Hstep as (v & _ & (us & _ & ([d q] & Hrel & [= <-])%bind_Ok)%bind_Ok).
    apply kahn_release_each_extends in Hrel as [new1 ->]. simpl.
    exists (new1 ++ new2). by rewrite app_assoc.
Qed.

Lemma kahn_while_result (fuel : nat) (g : graph)
    (st st' : TopologicalSort.kahn_state) :
  TopologicalSort.while fuel g st = Ok st' →
  0 ≤ TopologicalSort.kahn_idx st ≤ py_len (TopologicalSort.kahn_queue st) →
  TopologicalSort.kahn_result st
    = take (Z.to_nat (TopologicalSort.kahn_idx st)) (TopologicalSort.kahn_queue st) →
  TopologicalSort.kahn_result st' = TopologicalSort.kahn_queue st'.
Proof.
  assert (∀ st : TopologicalSort.kahn_state,
    ¬ TopologicalSort.kahn_idx st < py_len (TopologicalSort.kahn_queue st) →
    TopologicalSort.kahn_result st
      = take (Z.to_nat (TopologicalSort.kahn_idx st)) (TopologicalSort.kahn_queue st) →
    TopologicalSort.kahn_result st = TopologicalSort.kahn_queue st) as Hexit.
  { intros st0 Hidx ->. apply take_ge. unfold py_len in Hidx. lia. }
  revert st. induction fuel as [|fuel IH]; intros [d q res idx]; simpl.
  - case_bool_decide; [done|]. intros [= <-] _ Hres. by apply Hexit.
  - case_bool_decide as Hlt; [|intros [= <-] _ Hres; by apply Hexit].
    intros (st1 & Hstep & Hwhile)%bind_Ok Hidx Hres.
    unfold TopologicalSort.step in Hstep. simpl in Hstep.
    apply bind_Ok in Hstep as (v & Hv & (us & _ & ([d1 q1] & Hrel & [= <-])%bind_Ok)%bind_Ok).
    apply kahn_release_each_extends in Hrel as [new ->].
    destruct (py_get_total q idx) as (v' & Hlook & Hv'); [lia|].
    rewrite Hv in Hv'. injection Hv' as <-.
    unfold py_len in *.
    apply (IH _ Hwhile); simpl.
    + rewrite length_app. lia.
    + replace (Z.to_nat (idx + 1)) with (S (Z.to_nat idx)) by lia.
      rewrite take_app_le by (apply lookup_lt_Some in Hlook; lia).
      rewrite (take_S_r _ _ _ Hlook). by rewrite Hres.
Qed.

Lemma py_range_sorted (n : Z) : StronglySorted Z.lt (py_range n).
Proof.
  unfold py_range. generalize 0%nat as a. generalize (Z.to_nat n) as k.
  induction k as [|k IH]; intros a; simpl; constructor; [apply IH|].
  apply Forall_forall. intros x (y & -> & Hy%elem_of_seq)%list_elem_of_fmap. lia.
Qed.

Lemma filter_sorted (P : Z → Prop) `{!∀ x, Decision (P x)} (l : list Z) :
  StronglySorted Z.lt l → StronglySorted Z.lt (filter P l).
Proof.
  induction 1 as [|x l Hl IH Hx]; [constructor|].
  rewrite filter_cons. case_decide; [|done].
  constructor; [done|]. apply Forall_forall. intros y [_ Hy]%list_elem_of_filter.
  rewrite Forall_forall in Hx. auto.
Qed.

Lemma inflow_zero_iff (g : graph) (n u : Z) :
  inflow g (py_range n) u = 0 ↔ ∀ a, ¬ edge g n a u.
Proof.
  split.
  - intros Hz a [Ha Hu]. by apply (inflow_zero g (py_range n) u a Hz), Hu;
      apply py_range_elem.
  - intros Hno. pose proof (inflow_nonneg g (py_range n) u) as Hge.
    destruct (decide (inflow g (py_range n) u = 0)) as [|Hne]; [done|].
    destruct (inflow_pos g (py_range n) u) as (w & Hw%py_range_elem & Hu); [lia|].
    by destruct (Hno w).
Qed.

Lemma filter_ext_elem (P Q : Z → Prop) `{!∀ x, Decision (P x)} `{!∀ x, Decision (Q x)}
    (l : list Z) :
  (∀ x, x ∈ l → (P x ↔ Q x)) → filter P l = filter Q l.
Proof.
  induction l as [|x l IH]; intros Hl; [done|].
  rewrite !filter_cons, IH by (intros y Hy; apply Hl; by right).
  pose proof (Hl x (list_elem_of_here x l)). repeat case_decide; tauto.
Qed.

Section kahn_first.
Variables (g : graph) (n : Z).
Hypothesis Hwf : wf_graph g n.

Lemma kahn_result_sources (fuel : nat) :
  (Z.to_nat n ≤ fuel)%nat →
  ∃ r, TopologicalSort.topological_sort_kahn fuel g n = Ok r ∧
       ∀ l, r = Some l →
            ∃ rest, l = filter (λ v, inflow g (py_range n) v = 0) (py_range n) ++ rest.
Proof.
  intros Hfuel. unfold TopologicalSort.topological_sort_kahn.
  assert (Forall (vertex n) (py_range n)) as Hrange.
  { apply Forall_forall. intros v. apply py_range_elem. }
  destruct (kahn_count_all_spec g n Hwf (py_range n) (py_repeat 0 n))
    as (in_degree & Hcount & Hlen & Hdeg); [apply py_repeat_length|done|].
  assert (∀ u, vertex n u → deg in_degree u = inflow g (py_range n) u) as Hdeg0.
  { intros u Hu. rewrite Hdeg by done. unfold deg.
    rewrite py_repeat_lookup by done. simpl. lia. }
  assert (filter (λ v, deg in_degree v = 0) (py_range n)
          = filter (λ v, inflow g (py_range n) v = 0) (py_range n)) as Hfilter.
  { apply filter_ext_elem. intros v Hv%py_range_elem. by rewrite Hdeg0. }
  destruct (topological_sort_kahn_spec g n Hwf fuel Hfuel) as (r & Hrun & _).
  exists r. split; [done|]. intros l ->.
  unfold TopologicalSort.topological_sort_kahn in Hrun.
  rewrite Hcount in Hrun. simpl in Hrun.
  rewrite (kahn_sources_spec n _ _ Hlen Hrange), Hfilter in Hrun. simpl in Hrun.
  apply bind_Ok in Hrun as (st & Hwhile & Hres).
  case_bool_decide as Hn; [|done]. injection Hres as <-.
  pose proof (kahn_while_result _ _ _ _ Hwhile) as Hres. simpl in Hres.
  rewrite Hres by (unfold py_len; lia || done).
  apply kahn_while_extends in Hwhile as [new ->]. simpl. by exists new.
Qed.

End kahn_first.

(** X11: Kahn's algorithm puts the vertices without incoming edge first, in
    increasing order: on a well-formed graph every order it returns begins
    with the sorted list of exactly those vertices. *)
Theorem kahn_sources_first (g : graph) (n : Z) (fuel : nat) :
  wf_graph g n → (Z.to_nat n ≤ fuel)%nat →
  ∃ r, TopologicalSort.topological_sort_kahn fuel g n = Ok r ∧
       ∀ l, r = Some l →
            ∃ first rest,
              l = first ++ rest ∧ StronglySorted Z.lt first ∧
              ∀ v, v ∈ first ↔ vertex n v ∧ ∀ a, ¬ edge g n a v.
Proof.
  intros Hwf Hfuel.
  destruct (kahn_result_sources g n Hwf fuel Hfuel) as (r & Hrun & Hfirst).
  exists r. split; [done|]. intros l [rest ->]%Hfirst.
  eexists _, rest. split_and!; [done| |].
  - apply filter_sorted, py_range_sorted.
  - intros v. rewrite list_elem_of_filter, py_range_elem, inflow_zero_iff. tauto.
Qed.

Lemma kahn_sources_first_witness :
  wf_graph example_dag 6 ∧ (Z.to_nat 6 ≤ 6)%nat ∧
  ∃ r, TopologicalSort.topological_sort_kahn 6 example_dag 6 = Ok r ∧
       ∀ l, r = Some l →
            ∃ first rest,
              l = first ++ rest ∧ StronglySorted Z.lt first ∧
              ∀ v, v ∈ first ↔ vertex 6 v ∧ ∀ a, ¬ edge example_dag 6 a v.
Proof.
  assert (wf_graph example_dag 6) as Hwf
    by (apply (bool_decide_unpack _); by vm_compute).
  assert (Z.to_nat 6 ≤ 6)%nat as Hfuel by (simpl; lia).
  split; [exact Hwf|]. split; [exact Hfuel|].
  exact (kahn_sources_first example_dag 6 6 Hwf Hfuel).
Defined.

Lemma count_each_no_fuel (us : list Z) (in_degree : list Z) :
  TopologicalSort.count_each us in_degree ≠ OutOfFuel.
Proof.
  revert in_degree. induction us as [|u us IH]; intros in_degree; [done|].
  simpl. unfold py_get, py_set.
  destruct (py_index _ u) as [k|]; [|done].
  destruct (in_degree !! k) as [d|]; [|done]. simpl. apply IH.
Qed.

Lemma count_all_missing (g : graph) (vs : list Z) (in_degree : list Z) :
  Exists (λ v, py_get g v = IndexError) vs →
  TopologicalSort.count_all g vs in_degree = IndexError.
Proof.
  intros Hex. revert in_degree.
  induction vs as [|v vs IH]; intros in_degree; [by apply Exists_nil in Hex|].
  simpl. destruct (py_get g v) as [us| |] eqn:Hv; simpl; [|done|].
  - pose proof (count_each_no_fuel us in_degree) as Hnf.
    destruct (TopologicalSort.count_each us in_degree) as [d| |]; simpl; [|done..].
    apply IH. apply Exists_cons in Hex as [Hex|Hex]; [congruence|done].
  - unfold py_get in Hv. destruct (py_index _ v); [destruct (g !! _)|]; done.
Qed.

(** X12: when the graph has fewer than [n] adjacency lists,
    [topological_sort_kahn] raises [IndexError] while it counts the
    in-degrees, whatever the lists contain. *)
Theorem kahn_missing_adjacency_list (g : graph) (n : Z) (fuel : nat) :
  py_len g < n →
  TopologicalSort.topological_sort_kahn fuel g n = IndexError.
Proof.
  intros Hlen. unfold TopologicalSort.topological_sort_kahn.
  rewrite count_all_missing; [done|].
  apply Exists_exists. exists (py_len g). split.
  - apply py_range_elem. unfold vertex, py_len in *. lia.
  - unfold py_get, py_index, py_len. by rewrite !bool_decide_eq_false_2 by lia.
Qed.

Lemma kahn_missing_adjacency_list_witness :
  py_len example_cycle < 4 ∧
  TopologicalSort.topological_sort_kahn 0 example_cycle 4 = IndexError.
Proof.
  assert (py_len example_cycle < 4) as Hlen by (vm_compute; reflexivity).
  split; [exact Hlen|]. exact (kahn_missing_adjacency_list example_cycle 4 0 Hlen).
Defined.

(** ** Bracket validation *)

Lemma char_in_elem (c : ascii) (s : list ascii) :
  Brackets.char_in c s = true ↔ c ∈ s.
Proof.
  unfold Brackets.char_in. rewrite existsb_exists. split.
  - intros (x & Hx%list_elem_of_In & ->%Ascii.eqb_eq). done.
  - intros Hc. exists c. split; [by apply list_elem_of_In|apply Ascii.eqb_refl].
Qed.

Lemma char_in_other (c : ascii) :
  ¬ bracket c →
  Brackets.char_in c ["["; "{"; "("]%char = false ∧
  Brackets.char_in c ["]"; "}"; ")"]%char = false.
Proof.
  intros Hc. split; apply not_true_is_false; rewrite char_in_elem;
    intros Hin; apply Hc; unfold bracket; set_solver.
Qed.

Lemma loop_cons (letter : ascii) (s stack : list ascii) :
  Brackets.loop (letter :: s) stack =
  if Brackets.char_in letter ["["; "{"; "("]%char then Brackets.loop s (letter :: stack)
  else if Brackets.char_in letter ["]"; "}"; ")"]%char then
    match stack with
    | [] => Some false
    | top :: stack' =>
        match Brackets.dict_get Brackets.pairs letter with
        | None => None
        | Some opening =>
            if Ascii.eqb top opening then Brackets.loop s stack' else Some false
        end
    end
  else Brackets.loop s stack.
Proof. done. Qed.

Lemma balanced_loop (s : list ascii) :
  balanced s →
  ∀ rest stack, Brackets.loop (s ++ rest) stack = Brackets.loop rest stack.
Proof.
  induction 1 as [|c Hc|o c l Hoc Hl IH|l1 l2 _ IH1 _ IH2]; intros rest stack.
  - done.
  - destruct (char_in_other c Hc) as [Ho Hcl].
    change ([c] ++ rest) with (c :: rest). by rewrite loop_cons, Ho, Hcl.
  - rewrite <- app_comm_cons, <- app_assoc, loop_cons.
    destruct Hoc; (replace (Brackets.char_in _ _) with true by done);
      rewrite IH; done.
  - by rewrite <- app_assoc, IH1, IH2.
Qed.

Lemma balanced_insert (m l : list ascii) :
  balanced m → balanced l →
  ∀ a b, l = a ++ b → balanced (a ++ m ++ b).
Proof.
  intros Hm. induction 1 as [|c Hc|o c l Hoc Hl IH|l1 l2 H1 IH1 H2 IH2]; intros a b Heq.
  - symmetry in Heq. apply app_eq_nil in Heq as [-> ->]. by rewrite app_nil_r.
  - destruct a as [|x a].
    + simpl in *. subst b. apply balanced_app; [done|by apply balanced_other].
    + injection Heq as <- Heq. symmetry in Heq. apply app_eq_nil in Heq as [-> ->].
      rewrite app_nil_r. apply (balanced_app [c]); [by apply balanced_other|done].
  - destruct a as [|x a].
    + simpl in *. subst b. apply balanced_app; [done|by apply balanced_wrap].
    + injection Heq as <- Heq.
      destruct (decide (b = [])) as [->|Hb].
      * rewrite !app_nil_r in *. subst a.
        apply (balanced_app (o :: l ++ [c])); [by apply balanced_wrap|done].
      * destruct (exists_last (l:=b)) as (b' & y & ->); [done|].
        rewrite app_assoc in Heq. apply app_inj_tail in Heq as [-> ->].
        rewrite <- app_comm_cons, (app_assoc m), (app_assoc a).
        apply balanced_wrap; [done|]. by apply IH.
  - apply app_eq_app in Heq as (k & [[Hl1 ->]|[-> Hl2]]).
    + rewrite !app_assoc. apply balanced_app; [|done].
      rewrite <- app_assoc. by apply IH1.
    + rewrite <- app_assoc. apply balanced_app; [done|]. by apply IH2.
Qed.

Lemma loop_balanced (s stack : list ascii) :
  Brackets.loop s stack = Some true → balanced (reverse stack ++ s).
Proof.
  revert stack. induction s as [|letter s IH]; intros stack.
  - simpl. destruct stack; [|done]. intros _. constructor.
  - rewrite loop_cons.
    destruct (Brackets.char_in letter ["["; "{"; "("]%char) eqn:Hopen.
    { intros Hrun%IH. by rewrite reverse_cons, <- app_assoc in Hrun. }
    destruct (Brackets.char_in letter ["]"; "}"; ")"]%char) eqn:Hclose.
    + destruct stack as [|top stack]; [done|].
      destruct (Brackets.dict_get Brackets.pairs letter) as [opening|] eqn:Hget; [|done].
      destruct (Ascii.eqb top opening) eqn:Htop; [|done].
      apply Ascii.eqb_eq in Htop as ->. intros Hrun%IH.
      assert (matching opening letter) as Hm.
      { apply char_in_elem in Hclose.
        apply elem_of_cons in Hclose as [->|Hclose];
          [injection Hget as <-; constructor|].
        apply elem_of_cons in Hclose as [->|Hclose];
          [injection Hget as <-; constructor|].
        apply list_elem_of_singleton in Hclose as ->.
        injection Hget as <-; constructor. }
      rewrite reverse_cons, <- app_assoc.
      apply (balanced_insert [opening; letter] (reverse stack ++ s)); [|done..].
      apply (balanced_wrap opening letter [] Hm). constructor.
    + intros Hrun%IH.
      apply (balanced_insert [letter] (reverse stack ++ s)); [|done..].
      apply balanced_other. unfold bracket. intros Hb.
      apply not_true_iff_false in Hopen, Hclose.
      rewrite char_in_elem in Hopen, Hclose. set_solver.
Qed.

Lemma loop_total (s stack : list ascii) :
  ∃ b, Brackets.loop s stack = Some b.
Proof.
  revert stack. induction s as [|letter s IH]; intros stack; [by eexists|].
  rewrite loop_cons.
  destruct (Brackets.char_in letter ["["; "{"; "("]%char); [apply IH|].
  destruct (Brackets.char_in letter ["]"; "}"; ")"]%char) eqn:Hclose; [|apply IH].
  destruct stack as [|top stack]; [by eexists|].
  assert (∃ opening, Brackets.dict_get Brackets.pairs letter = Some opening)
    as [opening ->].
  { apply char_in_elem in Hclose.
    repeat (apply elem_of_cons in Hclose as [->|Hclose]; [by eexists|]).
    by apply elem_of_nil in Hclose. }
  destruct (Ascii.eqb top opening); [apply IH|by eexists].
Qed.

(** X13: the script of [4.py] prints [True] exactly when the input line is
    correctly nested: every opening bracket is closed by the bracket of its
    kind in last-opened-first-closed order; characters that are no brackets
    are skipped.  [pairs[letter]] never raises. *)
Theorem brackets_main_balanced (string : list ascii) :
  ∃ b, Brackets.main string = Some b ∧ (b = true ↔ balanced string).
Proof.
  unfold Brackets.main. destruct (loop_total string []) as [b Hb].
  exists b. split; [done|]. split.
  - intros ->. by apply loop_balanced in Hb.
  - intros Hbal. pose proof (balanced_loop string Hbal [] []) as Hrun.
    rewrite app_nil_r in Hrun. rewrite Hrun in Hb. simpl in Hb. by injection Hb.
Qed.

(** The examples of the task text. *)
Example example_brackets :
  Brackets.main ["("; ")"; "["; "]"; "{"; "}"]%char = Some true ∧
  Brackets.main ["["; "("; ")"; "]"]%char = Some true ∧
  Brackets.main ["("; "{"; "["; "]"; "}"; ")"]%char = Some true ∧
  Brackets.main ["("; "["; ")"; "]"]%char = Some false.
Proof. by repeat split. Qed.

(** ** Minimal path sums *)

Lemma best_path_sum (c : nat → nat → Z) (i j : nat) : path_sum c i j (best c i j).
Proof.
  revert j. induction i as [|i IHi]; intros j.
  - induction j as [|j IHj]; simpl; [constructor|]. by apply path_right.
  - induction j as [|j IHj]; simpl.
    + apply (path_down c i 0%nat), IHi.
    + destruct (Z.min_spec (best c i (S j)) (best_next (best c i) (c (S i)) j))
        as [[_ ->]|[_ ->]].
      * apply (path_down c i (S j)), IHi.
      * by apply (path_right c (S i) j).
Qed.

Lemma best_least (c : nat → nat → Z) (i j : nat) (x : Z) :
  path_sum c i j x → best c i j ≤ x.
Proof.
  induction 1 as [|i j x _ IH|i j x _ IH]; [done| |].
  - destruct j as [|j]; simpl in *; lia.
  - destruct i as [|i]; simpl in *; lia.
Qed.

Lemma best_min_path_sum (c : nat → nat → Z) (i j : nat) :
  min_path_sum c i j (best c i j).
Proof. split; [apply best_path_sum|apply best_least]. Qed.

Lemma fmap_shift_seq (a a0 k : nat) :
  (λ k, Z.of_nat a + Z.of_nat k) <$> seq a0 k = Z.of_nat <$> seq (a + a0) k.
Proof.
  revert a0. induction k as [|k IH]; intros a0; simpl; [done|].
  f_equal; [lia|]. rewrite IH. by replace (a + S a0)%nat with (S (a + a0)) by lia.
Qed.

Lemma py_range_from_seq (a b : nat) :
  Path.py_range_from (Z.of_nat a) (Z.of_nat b) = Z.of_nat <$> seq a (b - a).
Proof.
  unfold Path.py_range_from.
  replace (Z.to_nat (Z.of_nat b - Z.of_nat a)) with (b - a)%nat by lia.
  rewrite fmap_shift_seq. by rewrite Nat.add_0_r.
Qed.

Section path.
Variables (net : list nat) (h w : nat).

Lemma grid_row (s : Path.store) (i : nat) :
  grid net s h w → (i < h)%nat →
  ∃ a, net !! i = Some a ∧ py_get net (Z.of_nat i) = Ok a ∧ (w ≤ length (s a))%nat.
Proof.
  intros (_ & Hlen & Hrows) Hi.
  destruct (py_get_total net (Z.of_nat i)) as (a & Ha & Hget); [unfold py_len; lia|].
  rewrite Nat2Z.id in Ha. exists a. split_and!; [done..|].
  apply Hrows. by eapply list_elem_of_lookup_2.
Qed.

Lemma get_cell_spec (s : Path.store) (i j : nat) :
  grid net s h w → (i < h)%nat → (j < w)%nat →
  Path.get_cell net s (Z.of_nat i) (Z.of_nat j) = Ok (cell net s i j).
Proof.
  intros Hgrid Hi Hj. destruct (grid_row s i Hgrid Hi) as (a & Ha & Hget & Hrow).
  unfold Path.get_cell, cell. rewrite Hget, Ha. simpl.
  destruct (py_get_total (s a) (Z.of_nat j)) as (x & Hx & ->); [unfold py_len; lia|].
  rewrite Nat2Z.id in Hx. by rewrite Hx.
Qed.

Lemma add_cell_spec (s : Path.store) (i j : nat) (e : res Z) (x : Z) :
  grid net s h w → (i < h)%nat → (j < w)%nat → e = Ok x →
  ∃ s', Path.add_cell net s (Z.of_nat i) (Z.of_nat j) e = Ok s' ∧
        grid net s' h w ∧
        ∀ i' j', (i' < h)%nat →
                 cell net s' i' j'
                 = if bool_decide (i' = i ∧ j' = j) then cell net s i j + x
                   else cell net s i' j'.
Proof.
  intros Hgrid Hi Hj ->. destruct (grid_row s i Hgrid Hi) as (a & Ha & Hget & Hrow).
  unfold Path.add_cell. rewrite Hget. simpl.
  destruct (py_get_total (s a) (Z.of_nat j)) as (old & Hold & ->); [unfold py_len; lia|].
  rewrite Nat2Z.id in Hold. simpl.
  rewrite py_set_vertex by (unfold py_len; lia). rewrite Nat2Z.id. simpl.
  eexists. split; [done|].
  destruct Hgrid as (Hnd & Hlen & Hrows). split.
  - split_and!; [done..|]. intros b Hb. unfold Path.store_set.
    case_bool_decide as Hba; [|by apply Hrows].
    by rewrite length_insert.
  - intros i' j' Hi'. unfold cell.
    destruct (lookup_lt_is_Some_2 net i') as [a' Ha']; [lia|].
    rewrite Ha', Ha. simpl. rewrite Hold. simpl. unfold Path.store_set.
    case_bool_decide as Haa.
    + subst a'. assert (i' = i) as -> by (by eapply NoDup_lookup).
      destruct (decide (j' = j)) as [->|Hne].
      * rewrite bool_decide_eq_true_2 by done.
        rewrite list_lookup_insert_eq by (by eapply lookup_lt_Some). done.
      * rewrite bool_decide_eq_false_2 by naive_solver.
        by rewrite list_lookup_insert_ne.
    + rewrite bool_decide_eq_false_2; [done|]. intros [-> _]. congruence.
Qed.

Variable c : nat → nat → Z.

Lemma table_inv_ext (s : Path.store) (filled filled' : nat → nat → Prop) :
  (∀ i j, (i < h)%nat → (j < w)%nat → (filled i j ↔ filled' i j)) →
  table_inv c net s h w filled → table_inv c net s h w filled'.
Proof.
  intros Hext [Hgrid Hcells]. split; [done|]. intros i j Hi Hj.
  destruct (Hcells i j Hi Hj) as [Hd Hn]. specialize (Hext i j Hi Hj). split.
  - intros ?. apply Hd. tauto.
  - intros ?. apply Hn. tauto.
Qed.

(** One cell is brought up to date. *)
Lemma table_inv_step (s : Path.store) (filled : nat → nat → Prop)
    (i j : nat) (e : res Z) (x : Z) :
  table_inv c net s h w filled → (i < h)%nat → (j < w)%nat → ¬ filled i j →
  e = Ok x → c i j + x = best c i j →
  ∃ s', Path.add_cell net s (Z.of_nat i) (Z.of_nat j) e = Ok s' ∧
        table_inv c net s' h w (λ i' j', filled i' j' ∨ (i' = i ∧ j' = j)).
Proof.
  intros [Hgrid Hcells] Hi Hj Hnd He Hx.
  destruct (add_cell_spec s i j e x Hgrid Hi Hj He) as (s' & Hrun & Hgrid' & Hcell').
  exists s'. split; [done|]. split; [done|]. intros i' j' Hi' Hj'.
  rewrite Hcell' by done. destruct (Hcells i' j' Hi' Hj') as [Hd Hn].
  case_bool_decide as Hij.
  - destruct Hij as [-> ->]. rewrite (proj2 (Hcells i j Hi Hj) Hnd).
    split; [done|]. intros []. by right.
  - split; [|intros ?; apply Hn; tauto]. intros [?|?]; [by apply Hd|done].
Qed.

Hypothesis Hw : (0 < w)%nat.

Lemma first_column_spec (k a : nat) (s : Path.store) :
  (0 < a)%nat → (a + k = h)%nat →
  table_inv c net s h w (λ i j, j = 0%nat ∧ (i < a)%nat) →
  ∃ s', Path.first_column (Z.of_nat <$> seq a k) net s = Ok s' ∧
        table_inv c net s' h w (λ i j, j = 0%nat).
Proof.
  revert a s. induction k as [|k IH]; intros a s Ha Hak Hinv.
  { exists s. split; [done|]. eapply table_inv_ext; [|done]. intros; simpl. lia. }
  simpl.
  destruct (table_inv_step s _ a 0%nat
              (Path.get_cell net s (Z.of_nat a - 1) 0) (best c (a - 1) 0) Hinv)
    as (s1 & Hrun & Hinv1); [lia|done|lia| | |].
  - replace (Z.of_nat a - 1) with (Z.of_nat (a - 1)) by lia.
    destruct Hinv as [Hgrid Hcells].
    pose proof (get_cell_spec s (a - 1) 0 Hgrid) as Hg.
    change (Z.of_nat 0) with 0 in Hg. rewrite Hg by lia. f_equal.
    apply (Hcells (a - 1)%nat 0%nat); lia.
  - destruct a as [|a]; [lia|]. simpl. rewrite Nat.sub_0_r. lia.
  - change (Z.of_nat 0) with 0 in Hrun. rewrite Hrun. simpl.
    apply (IH (S a)); [lia..|].
    eapply table_inv_ext; [|done]. intros; simpl. lia.
Qed.

Lemma first_row_spec (k b : nat) (s : Path.store) :
  (0 < h)%nat → (0 < b)%nat → (b + k = w)%nat →
  table_inv c net s h w (λ i j, j = 0%nat ∨ (i = 0%nat ∧ (j < b)%nat)) →
  ∃ s', Path.first_row (Z.of_nat <$> seq b k) net s = Ok s' ∧
        table_inv c net s' h w (λ i j, j = 0%nat ∨ i = 0%nat).
Proof.
  intros Hh. revert b s. induction k as [|k IH]; intros b s Hb Hbk Hinv.
  { exists s. split; [done|]. eapply table_inv_ext; [|done]. intros; simpl. lia. }
  simpl.
  destruct (table_inv_step s _ 0%nat b
              (Path.get_cell net s 0 (Z.of_nat b - 1)) (best c 0 (b - 1)) Hinv)
    as (s1 & Hrun & Hinv1); [lia|lia|lia| | |].
  - replace (Z.of_nat b - 1) with (Z.of_nat (b - 1)) by lia.
    destruct Hinv as [Hgrid Hcells].
    pose proof (get_cell_spec s 0 (b - 1) Hgrid) as Hg.
    change (Z.of_nat 0) with 0 in Hg. rewrite Hg by lia. f_equal.
    apply (Hcells 0%nat (b - 1)%nat); lia.
  - destruct b as [|b]; [lia|]. simpl. rewrite Nat.sub_0_r. lia.
  - change (Z.of_nat 0) with 0 in Hrun. rewrite Hrun. simpl.
    apply (IH (S b)); [lia..|].
    eapply table_inv_ext; [|done]. intros; simpl. lia.
Qed.

Lemma inner_spec (a : nat) (k b : nat) (s : Path.store) :
  (0 < a < h)%nat → (0 < b)%nat → (b + k = w)%nat →
  table_inv c net s h w
    (λ i j, j = 0%nat ∨ i = 0%nat ∨ (i < a)%nat ∨ (i = a ∧ (j < b)%nat)) →
  ∃ s', Path.inner (Z.of_nat a) (Z.of_nat <$> seq b k) net s = Ok s' ∧
        table_inv c net s' h w (λ i j, j = 0%nat ∨ i = 0%nat ∨ (i < S a)%nat).
Proof.
  intros Ha. revert b s. induction k as [|k IH]; intros b s Hb Hbk Hinv.
  { exists s. split; [done|]. eapply table_inv_ext; [|done]. intros; simpl. lia. }
  simpl.
  destruct (table_inv_step s _ a b
              (let* up := Path.get_cell net s (Z.of_nat a - 1) (Z.of_nat b) in
               let* left := Path.get_cell net s (Z.of_nat a) (Z.of_nat b - 1) in
               Ok (Z.min up left))
              (Z.min (best c (a - 1) b) (best c a (b - 1))) Hinv)
    as (s1 & Hrun & Hinv1); [lia|lia|lia| | |].
  - replace (Z.of_nat a - 1) with (Z.of_nat (a - 1)) by lia.
    replace (Z.of_nat b - 1) with (Z.of_nat (b - 1)) by lia.
    destruct Hinv as [Hgrid Hcells].
    rewrite (get_cell_spec s (a - 1) b Hgrid) by lia. simpl.
    rewrite (get_cell_spec s a (b - 1) Hgrid) by lia. simpl.
    assert (cell net s (a - 1) b = best c (a - 1) b) as -> by (apply Hcells; lia).
    assert (cell net s a (b - 1) = best c a (b - 1)) as -> by (apply Hcells; lia).
    done.
  - destruct a as [|a]; [lia|]. destruct b as [|b]; [lia|].
    simpl. rewrite !Nat.sub_0_r. lia.
  - rewrite Hrun. simpl.
    apply (IH (S b)); [lia..|].
    eapply table_inv_ext; [|done]. intros; simpl. lia.
Qed.

Lemma outer_spec (k a : nat) (s : Path.store) :
  (0 < a)%nat → (a + k = h)%nat →
  table_inv c net s h w (λ i j, j = 0%nat ∨ i = 0%nat ∨ (i < a)%nat) →
  ∃ s', Path.outer (Z.of_nat <$> seq a k) (Z.of_nat <$> seq 1 (w - 1)) net s = Ok s' ∧
        table_inv c net s' h w (λ i j, True).
Proof.
  revert a s. induction k as [|k IH]; intros a s Ha Hak Hinv.
  { exists s. split; [done|]. eapply table_inv_ext; [|done]. intros; simpl. lia. }
  simpl.
  destruct (inner_spec a (w - 1) 1 s) as (s1 & -> & Hinv1); [lia..| |].
  { eapply table_inv_ext; [|done]. intros; simpl. lia. }
  simpl. by apply (IH (S a)); [lia..|].
Qed.

End path.

Lemma path_spec (net : list nat) (s : Path.store) (h w : nat) :
  grid net s h w → (0 < h)%nat → (0 < w)%nat →
  w = length (s (default 0%nat (net !! 0%nat))) →
  ∃ s', Path.path net s = Ok (best (cell net s) (h - 1) (w - 1), s') ∧
        grid net s' h w ∧
        ∀ i j, (i < h)%nat → (j < w)%nat → cell net s' i j = best (cell net s) i j.
Proof.
  intros Hgrid Hh Hw Hw0. unfold Path.path.
  destruct (grid_row net h w s 0 Hgrid Hh) as (a0 & Ha0 & Hget & _).
  change (Z.of_nat 0) with 0 in Hget. rewrite Hget. simpl.
  rewrite Ha0 in Hw0. simpl in Hw0.
  assert (py_len net = Z.of_nat h) as -> by (destruct Hgrid as (_ & <- & _); done).
  assert (py_len (s a0) = Z.of_nat w) as -> by (unfold py_len; by rewrite Hw0).
  change 1 with (Z.of_nat 1). rewrite !py_range_from_seq.
  set (c := cell net s).
  destruct (first_column_spec net h w c Hw (h - 1) 1 s) as (s1 & -> & Hinv1); [lia..| |].
  { split; [done|]. intros i j Hi Hj. split; [|done].
    intros [-> Hi0]. by replace i with 0%nat by lia. }
  simpl.
  destruct (first_row_spec net h w c Hw (w - 1) 1 s1) as (s2 & -> & Hinv2); [lia..| |].
  { eapply table_inv_ext; [|done]. intros; simpl. lia. }
  simpl.
  destruct (outer_spec net h w c Hw (h - 1) 1 s2) as (s3 & -> & [Hgrid3 Hinv3]); [lia..| |].
  { eapply table_inv_ext; [|done]. intros; simpl. lia. }
  simpl.
  replace (Z.of_nat h - Z.of_nat 1) with (Z.of_nat (h - 1)) by lia.
  replace (Z.of_nat w - Z.of_nat 1) with (Z.of_nat (w - 1)) by lia.
  rewrite (get_cell_spec net h w s3 (h - 1) (w - 1)) by (done || lia). simpl.
  exists s3. split_and!; [|done|].
  - do 2 f_equal. apply Hinv3; [lia..|done].
  - intros i j Hi Hj. by apply Hinv3.
Qed.

(** X14: for a grid of [h >= 1] distinct row objects, the first with
    [w >= 1] entries and the others with at least [w], [path] returns the
    least sum of the numbers on a path from the top left to the bottom right
    corner that only steps down or right; it leaves the grid overwritten:
    every cell [(i, j)] then holds the least sum of such a path to
    [(i, j)]. *)
Theorem path_min_sum (net : list nat) (s : Path.store) (h w : nat) :
  grid net s h w → (0 < h)%nat → (0 < w)%nat →
  w = length (s (default 0%nat (net !! 0%nat))) →
  ∃ m s',
    Path.path net s = Ok (m, s') ∧
    min_path_sum (cell net s) (h - 1) (w - 1) m ∧
    ∀ i j, (i < h)%nat → (j < w)%nat →
           min_path_sum (cell net s) i j (cell net s' i j).
Proof.
  intros Hgrid Hh Hw Hw0.
  destruct (path_spec net s h w Hgrid Hh Hw Hw0) as (s' & Hrun & _ & Hcells).
  eexists _, s'. split_and!; [done|apply best_min_path_sum|].
  intros i j Hi Hj. rewrite Hcells by done. apply best_min_path_sum.
Qed.

Lemma path_min_sum_witness :
  grid example_net example_rows 2 3 ∧ (0 < 2)%nat ∧ (0 < 3)%nat ∧
  3%nat = length (example_rows (default 0%nat (example_net !! 0%nat))) ∧
  ∃ m s',
    Path.path example_net example_rows = Ok (m, s') ∧
    min_path_sum (cell example_net example_rows) (2 - 1) (3 - 1) m ∧
    ∀ i j, (i < 2)%nat → (j < 3)%nat →
           min_path_sum (cell example_net example_rows) i j (cell example_net s' i j).
Proof.
  assert (grid example_net example_rows 2 3) as Hgrid.
  { split_and!; [apply (bool_decide_unpack _); by vm_compute|reflexivity|].
    intros a Ha. destruct a as [|[|a]]; simpl; lia. }
  assert (0 < 2)%nat as Hh by lia.
  assert (0 < 3)%nat as Hw by lia.
  assert (3%nat = length (example_rows (default 0%nat (example_net !! 0%nat)))) as Hw0
    by reflexivity.
  split; [exact Hgrid|]. split; [exact Hh|]. split; [exact Hw|]. split; [exact Hw0|].
  exact (path_min_sum example_net example_rows 2 3 Hgrid Hh Hw Hw0).
Defined.

(** The result for [example_rows]: the path along the first row. *)
Example example_path :
  ∃ s', Path.path example_net example_rows = Ok (6, s').
Proof. eexists. reflexivity. Qed.

(** The same numbers with one row object used twice give another result:
    the second row is updated through the first. *)
Example example_path_alias :
  (∃ s', Path.path [0%nat; 1%nat] (λ _, [1; 2]) = Ok (4, s')) ∧
  (∃ s', Path.path [0%nat; 0%nat] (λ _, [1; 2]) = Ok (6, s')).
Proof. split; eexists; reflexivity. Qed.

Lemma py_get_nil_error {A} (i : Z) : py_get (@nil A) i = IndexError.
Proof.
  unfold py_get, py_index. simpl. by repeat case_bool_decide; try lia.
Qed.

Lemma py_get_no_fuel {A} (l : list A) (i : Z) : py_get l i ≠ OutOfFuel.
Proof. unfold py_get. destruct (py_index _ i); [destruct (l !! _)|]; done. Qed.

(** X15: [path] raises [IndexError] when [net] is empty or its first row is
    empty. *)
Theorem path_empty (net : list nat) (s : Path.store) :
  net = [] ∨ s (default 0%nat (net !! 0%nat)) = [] →
  Path.path net s = IndexError.
Proof.
  intros Hempty. unfold Path.path.
  destruct net as [|a0 net]; [done|].
  destruct Hempty as [|Hrow]; [done|]. simpl in Hrow.
  change (py_get (a0 :: net) 0) with (Ok (A := nat) a0). simpl. rewrite Hrow.
  destruct net as [|a1 net].
  - simpl. unfold Path.get_cell. simpl.
    change (py_get [a0] 0) with (Ok (A := nat) a0). simpl.
    by rewrite Hrow, py_get_nil_error.
  - replace (Path.py_range_from 1 (py_len (a0 :: a1 :: net)))
      with (1 :: (Z.of_nat <$> seq 2 (length net))).
    2:{ change 1 with (Z.of_nat 1). unfold py_len.
        by rewrite py_range_from_seq. }
    simpl. unfold Path.add_cell, Path.get_cell.
    rewrite (py_get_vertex (a0 :: a1 :: net) 1 a1) by done.
    change (1 - 1) with 0.
    rewrite (py_get_vertex (a0 :: a1 :: net) 0 a0) by done. simpl.
    rewrite Hrow, py_get_nil_error.
    pose proof (py_get_no_fuel (s a1) 0) as Hnf.
    by destruct (py_get (s a1) 0).
Qed.

Lemma path_empty_witness :
  (example_net = [] ∨
   example_rows_empty (default 0%nat (example_net !! 0%nat)) = []) ∧
  Path.path example_net example_rows_empty = IndexError.
Proof.
  assert (example_net = [] ∨
          example_rows_empty (default 0%nat (example_net !! 0%nat)) = []) as Hempty
    by (right; reflexivity).
  split; [exact Hempty|]. exact (path_empty example_net example_rows_empty Hempty).
Defined.

(** ** Merging linked lists *)

Lemma merge_nodes_nil_r (v : nat → Z) (l1 : list nat) : merge_nodes v l1 [] = l1.
Proof. by destruct l1. Qed.

Lemma merge_nodes_cons (v : nat → Z) (x : nat) (l1 : list nat) (y : nat) (l2 : list nat) :
  merge_nodes v (x :: l1) (y :: l2)
  = if bool_decide (v x ≤ v y) then x :: merge_nodes v l1 (y :: l2)
    else y :: merge_nodes v (x :: l1) l2.
Proof. done. Qed.

Lemma merge_nodes_Permutation (v : nat → Z) (l1 l2 : list nat) :
  merge_nodes v l1 l2 ≡ₚ l1 ++ l2.
Proof.
  revert l2. induction l1 as [|x l1 IH1]; intros l2; [by destruct l2|].
  induction l2 as [|y l2 IH2]; [by rewrite app_nil_r|].
  rewrite merge_nodes_cons. case_bool_decide.
  - by rewrite IH1.
  - rewrite IH2. by rewrite (Permutation_middle (x :: l1) l2 y).
Qed.

Lemma merge_nodes_sorted (v : nat → Z) (l1 l2 : list nat) :
  StronglySorted Z.le (v <$> l1) → StronglySorted Z.le (v <$> l2) →
  StronglySorted Z.le (v <$> merge_nodes v l1 l2).
Proof.
  revert l2. induction l1 as [|x l1 IH1]; intros l2; [by destruct l2|].
  induction l2 as [|y l2 IH2]; intros H1 H2; [done|].
  pose proof H1 as H1'. pose proof H2 as H2'.
  rewrite fmap_cons in H1', H2'.
  apply StronglySorted_inv in H1' as [Hs1 Hx]. apply StronglySorted_inv in H2' as [Hs2 Hy].
  rewrite Forall_forall in Hx, Hy.
  rewrite merge_nodes_cons. case_bool_decide as Hxy.
  - rewrite fmap_cons. constructor; [by apply IH1|].
    apply Forall_forall. intros z Hz.
    apply list_elem_of_fmap in Hz as (u & -> & Hu).
    rewrite merge_nodes_Permutation in Hu. apply elem_of_app in Hu as [Hu|Hu].
    + apply Hx. by apply list_elem_of_fmap_2.
    + apply elem_of_cons in Hu as [->|Hu]; [done|].
      etrans; [exact Hxy|]. etrans; [|apply Hy; by apply list_elem_of_fmap_2]. done.
  - rewrite fmap_cons. constructor; [by apply IH2|].
    apply Forall_forall. intros z Hz.
    apply list_elem_of_fmap in Hz as (u & -> & Hu).
    assert (u ∈ x :: l1 ++ l2) as Hu'.
    { by rewrite (merge_nodes_Permutation v (x :: l1) l2) in Hu. }
    apply elem_of_cons in Hu' as [->|Hu']; [lia|].
    apply elem_of_app in Hu' as [Hu'|Hu'].
    + assert (v x ≤ v u) by (apply Hx; by apply list_elem_of_fmap_2). lia.
    + apply Hy. by apply list_elem_of_fmap_2.
Qed.

Lemma merge_nodes_ext (v v' : nat → Z) (l1 l2 : list nat) :
  (∀ x, v x = v' x) → merge_nodes v l1 l2 = merge_nodes v' l1 l2.
Proof.
  intros Hv. revert l2. induction l1 as [|x l1 IH1]; intros l2; [by destruct l2|].
  induction l2 as [|y l2 IH2]; [done|].
  rewrite !merge_nodes_cons, !Hv. case_bool_decide; f_equal; [apply IH1|apply IH2].
Qed.

(** A list does not depend on the nodes outside it. *)
Lemma is_list_frame (h h' : Merge.heap) (p : option nat) (l : list nat) :
  (∀ x, x ∈ l → Merge.cells h' x = Merge.cells h x) →
  is_list h p l → is_list h' p l.
Proof.
  revert p. induction l as [|x l IH]; intros p Hsame; [done|].
  simpl. intros [-> Hl]. split; [done|].
  rewrite Hsame by left. apply IH; [|done]. intros y Hy. apply Hsame. by right.
Qed.

Lemma set_next_val (h : Merge.heap) (p : nat) (q : option nat) (x : nat) :
  Merge.val (Merge.cells (Merge.set_next h p q) x) = Merge.val (Merge.cells h x).
Proof. simpl. case_bool_decide; [by subst|done]. Qed.

Lemma set_next_other (h : Merge.heap) (p : nat) (q : option nat) (x : nat) :
  x ≠ p → Merge.cells (Merge.set_next h p q) x = Merge.cells h x.
Proof. intros Hx. simpl. by rewrite bool_decide_eq_false_2. Qed.

Lemma set_next_same (h : Merge.heap) (p : nat) (q : option nat) :
  Merge.next (Merge.cells (Merge.set_next h p q) p) = q.
Proof. simpl. by rewrite bool_decide_eq_true_2. Qed.

(** The loop and the assignment [tail.next = a if a else b] after it link
    the merged nodes behind [tail]. *)
Lemma while_exit (v : nat → Z) (fuel : nat) (h : Merge.heap) (tail : nat)
    (a b : option nat) (l : list nat) :
  a = None ∨ b = None → (∀ x, Merge.val (Merge.cells h x) = v x) →
  is_list h (match a with Some _ => a | None => b end) l → tail ∉ l →
  ∃ st,
    Merge.while fuel (Merge.State h tail a b) = Ok st ∧
    is_list (Merge.link_rest st) (Merge.next (Merge.cells (Merge.link_rest st) tail)) l ∧
    Merge.fresh (Merge.link_rest st) = Merge.fresh h ∧
    (∀ x, Merge.val (Merge.cells (Merge.link_rest st) x) = v x) ∧
    (∀ x, x ≠ tail → Merge.cells (Merge.link_rest st) x = Merge.cells h x).
Proof.
  intros Hnone Hv Hl Htail.
  exists (Merge.State h tail a b). split.
  { destruct fuel, a, b; simpl; try done; by destruct Hnone. }
  unfold Merge.link_rest.
  cbn [Merge.st_a Merge.st_b Merge.st_heap Merge.st_tail].
  split_and!.
  - rewrite set_next_same. eapply is_list_frame; [|done].
    intros x Hx. apply set_next_other. by intros ->.
  - done.
  - intros x. by rewrite set_next_val.
  - intros x Hx. by apply set_next_other.
Qed.

Lemma while_spec (v : nat → Z) (fuel : nat) (h : Merge.heap) (tail : nat)
    (a b : option nat) (l1 l2 : list nat) :
  (∀ x, Merge.val (Merge.cells h x) = v x) →
  is_list h a l1 → is_list h b l2 → NoDup (tail :: l1 ++ l2) →
  (length l1 + length l2 ≤ fuel)%nat →
  ∃ st,
    Merge.while fuel (Merge.State h tail a b) = Ok st ∧
    is_list (Merge.link_rest st) (Merge.next (Merge.cells (Merge.link_rest st) tail))
      (merge_nodes v l1 l2) ∧
    Merge.fresh (Merge.link_rest st) = Merge.fresh h ∧
    (∀ x, Merge.val (Merge.cells (Merge.link_rest st) x) = v x) ∧
    (∀ x, x ∉ tail :: l1 ++ l2 → Merge.cells (Merge.link_rest st) x = Merge.cells h x).
Proof.
  revert h tail a b l1 l2.
  induction fuel as [|fuel IH]; intros h tail a b l1 l2 Hv H1 H2 Hnd Hfuel.
  { destruct l1, l2; simpl in Hfuel; try lia. simpl in H1, H2. subst a b.
    destruct (while_exit v 0%nat h tail None None [])
      as (st & Hrun & Hlist & Hfresh & Hv' & Hsame);
      [by left|done|done|by apply not_elem_of_nil|].
    exists st. split_and!; [done..|].
    intros x Hx. apply Hsame. intros ->. apply Hx. by left. }
  destruct l1 as [|x l1].
  { simpl in H1. subst a. pose proof Hnd as [Htail _]%NoDup_cons. simpl in Htail.
    destruct (while_exit v (S fuel) h tail None b l2)
      as (st & Hrun & Hlist & Hfresh & Hv' & Hsame); [by left|done|done|done|].
    exists st. split_and!; [done|by destruct l2|done..|].
    intros y Hy. apply Hsame. intros ->. apply Hy. by left. }
  destruct l2 as [|y l2].
  { simpl in H2. subst b. pose proof Hnd as [Htail _]%NoDup_cons.
    rewrite app_nil_r in Htail. pose proof H1 as [-> _].
    destruct (while_exit v (S fuel) h tail (Some x) None (x :: l1))
      as (st & Hrun & Hlist & Hfresh & Hv' & Hsame); [by right|done|done|done|].
    exists st. split_and!; [done..|].
    intros z Hz. apply Hsame. intros ->. apply Hz. by left. }
  destruct H1 as [-> H1]. destruct H2 as [-> H2].
  apply NoDup_cons in Hnd as [Htail Hnd].
  cbn [Merge.while Merge.st_a Merge.st_b Merge.st_heap Merge.st_tail].
  rewrite !Hv.
  assert (x ≠ tail) as Hxt by (intros ->; apply Htail; by left).
  assert (y ≠ tail) as Hyt by (intros ->; apply Htail; set_solver).
  rewrite merge_nodes_cons.
  case_bool_decide as Hxy.
  - set (h1 := Merge.set_next h tail (Some x)).
    destruct (IH h1 x (Merge.next (Merge.cells h1 x)) (Some y) l1 (y :: l2))
      as (st & Hrun & Hlist & Hfresh & Hv' & Hsame).
    + intros z. unfold h1. by rewrite set_next_val.
    + unfold h1. rewrite set_next_other by done.
      eapply is_list_frame; [|done]. intros z Hz. apply set_next_other.
      intros ->. apply Htail. set_solver.
    + apply (is_list_frame h); [|by split].
      intros z Hz. apply set_next_other. intros ->. apply Htail. set_solver.
    + done.
    + simpl in *. lia.
    + exists st. split_and!; [done| |done..|].
      * cbn [is_list]. rewrite Hsame by (intros Hin; apply Htail; set_solver).
        unfold h1 at 1. rewrite set_next_same. done.
      * intros z Hz. rewrite Hsame by set_solver.
        apply set_next_other. intros ->. apply Hz. by left.
  - set (h1 := Merge.set_next h tail (Some y)).
    assert (NoDup (y :: (x :: l1) ++ l2)) as Hnd'.
    { rewrite (Permutation_middle (x :: l1) l2 y). done. }
    destruct (IH h1 y (Some x) (Merge.next (Merge.cells h1 y)) (x :: l1) l2)
      as (st & Hrun & Hlist & Hfresh & Hv' & Hsame).
    + intros z. unfold h1. by rewrite set_next_val.
    + apply (is_list_frame h); [|by split].
      intros z Hz. apply set_next_other. intros ->. apply Htail. set_solver.
    + unfold h1. rewrite set_next_other by done.
      eapply is_list_frame; [|done]. intros z Hz. apply set_next_other.
      intros ->. apply Htail. set_solver.
    + done.
    + simpl in *. lia.
    + exists st. split_and!; [done| |done..|].
      * cbn [is_list]. rewrite Hsame by (intros Hin; apply Htail; set_solver).
        unfold h1 at 1. rewrite set_next_same. done.
      * intros z Hz. rewrite Hsame by set_solver.
        apply set_next_other. intros ->. apply Hz. by left.
Qed.

Lemma is_list_None (h : Merge.heap) (l : list nat) : is_list h None l → l = [].
Proof. destruct l; [done|]. by intros [? _]. Qed.

Lemma vals_ext (h h' : Merge.heap) (l : list nat) :
  (∀ x, x ∈ l → Merge.val (Merge.cells h' x) = Merge.val (Merge.cells h x)) →
  vals h' l = vals h l.
Proof.
  intros Hsame. unfold vals. apply list_fmap_ext. intros i x Hx.
  apply Hsame. by eapply list_elem_of_lookup_2.
Qed.

Lemma unite_lists_spec (h : Merge.heap) (head1 head2 : option nat)
    (l1 l2 : list nat) (fuel : nat) :
  is_list h head1 l1 → is_list h head2 l2 → NoDup (l1 ++ l2) →
  Forall (λ x, (x < Merge.fresh h)%nat) (l1 ++ l2) →
  (length l1 + length l2 ≤ fuel)%nat →
  ∃ r h',
    Merge.unite_lists fuel h head1 head2 = Ok (r, h') ∧
    is_list h' r (merge_nodes (λ x, Merge.val (Merge.cells h' x)) l1 l2) ∧
    ∀ x, (x < Merge.fresh h)%nat →
         Merge.val (Merge.cells h' x) = Merge.val (Merge.cells h x).
Proof.
  intros H1 H2 Hnd Hall Hfuel. unfold Merge.unite_lists.
  destruct head1 as [p1|].
  2:{ apply is_list_None in H1 as ->. exists head2, h. split_and!; [done| |done].
      by destruct l2. }
  destruct head2 as [p2|].
  2:{ apply is_list_None in H2 as ->. exists (Some p1), h. split_and!; [done| |done].
      by rewrite merge_nodes_nil_r. }
  cbn [Merge.alloc].
  set (h0 := Merge.Heap _ _).
  assert (∀ x, x ≠ Merge.fresh h → Merge.cells h0 x = Merge.cells h x) as Hh0.
  { intros x Hx. unfold h0. simpl. by rewrite bool_decide_eq_false_2. }
  rewrite Forall_forall in Hall.
  assert (∀ l p, l ⊆ l1 ++ l2 → is_list h p l → is_list h0 p l) as Hframe.
  { intros l p Hl. apply is_list_frame. intros x Hx. apply Hh0.
    apply Hl, Hall in Hx. lia. }
  destruct (while_spec (λ x, Merge.val (Merge.cells h0 x)) fuel h0 (Merge.fresh h)
              (Some p1) (Some p2) l1 l2)
    as (st & -> & Hlist & _ & Hv & _).
  - done.
  - apply Hframe; [set_solver|done].
  - apply Hframe; [set_solver|done].
  - apply NoDup_cons. split; [|done]. intros Hin%Hall. lia.
  - done.
  - cbn [bind]. eexists _, _. split_and!; [done| |].
    + erewrite merge_nodes_ext; [exact Hlist|]. intros x. apply Hv.
    + intros x Hx. rewrite Hv. cbn beta. f_equal. apply Hh0. lia.
Qed.

(** X16: given two disjoint, [None]-terminated lists, [unite_lists] returns
    the head of a list made of exactly the given nodes, relinked, with their
    numbers unchanged; its order is that of a stable merge, so it is sorted
    when both lists are. *)
Theorem unite_lists_merges (h : Merge.heap) (head1 head2 : option nat)
    (l1 l2 : list nat) (fuel : nat) :
  is_list h head1 l1 → is_list h head2 l2 → NoDup (l1 ++ l2) →
  Forall (λ x, (x < Merge.fresh h)%nat) (l1 ++ l2) →
  (length l1 + length l2 ≤ fuel)%nat →
  ∃ r h' l,
    Merge.unite_lists fuel h head1 head2 = Ok (r, h') ∧
    is_list h' r l ∧
    l = merge_nodes (λ x, Merge.val (Merge.cells h x)) l1 l2 ∧
    l ≡ₚ l1 ++ l2 ∧
    vals h' l = vals h l ∧
    (StronglySorted Z.le (vals h l1) → StronglySorted Z.le (vals h l2) →
     StronglySorted Z.le (vals h' l)).
Proof.
  intros H1 H2 Hnd Hall Hfuel.
  destruct (unite_lists_spec h head1 head2 l1 l2 fuel H1 H2 Hnd Hall Hfuel)
    as (r & h' & Hrun & Hlist & Hvals).
  rewrite Forall_forall in Hall.
  set (l := merge_nodes (λ x, Merge.val (Merge.cells h' x)) l1 l2) in *.
  assert (l ≡ₚ l1 ++ l2) as Hperm by apply merge_nodes_Permutation.
  assert (∀ k, k ⊆ l1 ++ l2 → vals h' k = vals h k) as Hsame.
  { intros k Hk. apply vals_ext. intros x Hx. apply Hvals, Hall, Hk, Hx. }
  exists r, h', l. split_and!; [done..| |done| |].
  - unfold l. clear l Hlist Hperm.
    assert (∀ x, x ∈ l1 ++ l2 →
              Merge.val (Merge.cells h' x) = Merge.val (Merge.cells h x)) as Heq
      by (intros x Hx; by apply Hvals, Hall).
    clear -Heq. revert l2 Heq. induction l1 as [|x l1 IH1]; intros l2 Heq;
      [by destruct l2|].
    induction l2 as [|y l2 IH2]; [done|].
    rewrite !merge_nodes_cons, !Heq by set_solver.
    case_bool_decide; f_equal.
    + apply IH1. intros z Hz. apply Heq. set_solver.
    + apply IH2. intros z Hz. apply Heq. set_solver.
  - apply Hsame. by rewrite Hperm.
  - intros Hs1 Hs2. rewrite <- (Hsame l1), <- (Hsame l2) in * by set_solver.
    by apply merge_nodes_sorted.
Qed.

Lemma unite_lists_merges_witness :
  is_list example_heap (Some 0%nat) [0%nat; 1%nat] ∧
  is_list example_heap (Some 2%nat) [2%nat] ∧
  NoDup ([0%nat; 1%nat] ++ [2%nat]) ∧
  Forall (λ x, (x < Merge.fresh example_heap)%nat) ([0%nat; 1%nat] ++ [2%nat]) ∧
  (length [0%nat; 1%nat] + length [2%nat] ≤ 3)%nat ∧
  ∃ r h' l,
    Merge.unite_lists 3 example_heap (Some 0%nat) (Some 2%nat) = Ok (r, h') ∧
    is_list h' r l ∧
    l = merge_nodes (λ x, Merge.val (Merge.cells example_heap x)) [0%nat; 1%nat] [2%nat] ∧
    l ≡ₚ [0%nat; 1%nat] ++ [2%nat] ∧
    vals h' l = vals example_heap l ∧
    (StronglySorted Z.le (vals example_heap [0%nat; 1%nat]) →
     StronglySorted Z.le (vals example_heap [2%nat]) →
     StronglySorted Z.le (vals h' l)).
Proof.
  assert (is_list example_heap (Some 0%nat) [0%nat; 1%nat]) as H1 by (simpl; auto).
  assert (is_list example_heap (Some 2%nat) [2%nat]) as H2 by (simpl; auto).
  assert (NoDup ([0%nat; 1%nat] ++ [2%nat])) as Hnd
    by (apply (bool_decide_unpack _); by vm_compute).
  assert (Forall (λ x, (x < Merge.fresh example_heap)%nat) ([0%nat; 1%nat] ++ [2%nat]))
    as Hall by (apply (bool_decide_unpack _); by vm_compute).
  assert (length [0%nat; 1%nat] + length [2%nat] ≤ 3)%nat as Hfuel by (simpl; lia).
  split; [exact H1|]. split; [exact H2|]. split; [exact Hnd|]. split; [exact Hall|].
  split; [exact Hfuel|].
  exact (unite_lists_merges example_heap (Some 0%nat) (Some 2%nat)
           [0%nat; 1%nat] [2%nat] 3 H1 H2 Hnd Hall Hfuel).
Defined.

(** The merged example list is 1 → 2 → 3. *)
Example example_unite_lists :
  ∃ h', Merge.unite_lists 3 example_heap (Some 0%nat) (Some 2%nat) = Ok (Some 0%nat, h') ∧
        is_list h' (Some 0%nat) [0%nat; 2%nat; 1%nat] ∧
        vals h' [0%nat; 2%nat; 1%nat] = [1; 2; 3].
Proof. eexists. split; [reflexivity|]. simpl. auto. Qed.

Lemma while_same_list (fuel : nat) (h : Merge.heap) (p q : nat) :
  Merge.val (Merge.cells h p) < Merge.val (Merge.cells h q) →
  Merge.while fuel (Merge.State h p (Some q) (Some p)) = OutOfFuel.
Proof.
  revert h. induction fuel as [|fuel IH]; intros h Hlt; [done|].
  cbn [Merge.while Merge.st_a Merge.st_b Merge.st_heap Merge.st_tail].
  rewrite bool_decide_eq_false_2 by lia.
  rewrite set_next_same. apply IH. by rewrite !set_next_val.
Qed.

(** X17: [unite_lists] does not return when both arguments are the same
    list and the first two numbers of that list increase strictly: the
    first node gets linked to itself and the loop runs on. *)
Theorem unite_lists_same_list_diverges (h : Merge.heap) (p q : nat) (fuel : nat) :
  (p < Merge.fresh h)%nat → (q < Merge.fresh h)%nat →
  Merge.next (Merge.cells h p) = Some q →
  Merge.val (Merge.cells h p) < Merge.val (Merge.cells h q) →
  Merge.unite_lists fuel h (Some p) (Some p) = OutOfFuel.
Proof.
  intros Hp Hq Hnext Hlt. unfold Merge.unite_lists. cbn [Merge.alloc].
  set (h0 := Merge.Heap _ _).
  assert (∀ x, (x < Merge.fresh h)%nat → Merge.cells h0 x = Merge.cells h x) as Hh0.
  { intros x Hx. unfold h0. simpl. rewrite bool_decide_eq_false_2; [done|lia]. }
  destruct fuel as [|fuel]; [done|].
  cbn [Merge.while Merge.st_a Merge.st_b Merge.st_heap Merge.st_tail].
  rewrite bool_decide_eq_true_2 by lia.
  rewrite set_next_other by (unfold h0; simpl; lia).
  rewrite Hh0, Hnext by done.
  destruct fuel as [|fuel]; [done|].
  cbn [Merge.while Merge.st_a Merge.st_b Merge.st_heap Merge.st_tail].
  rewrite !set_next_val, !Hh0 by done.
  rewrite bool_decide_eq_false_2 by lia.
  rewrite set_next_same, while_same_list; [done|].
  by rewrite !set_next_val, !Hh0.
Qed.

Lemma unite_lists_same_list_diverges_witness :
  (0 < Merge.fresh example_heap)%nat ∧ (1 < Merge.fresh example_heap)%nat ∧
  Merge.next (Merge.cells example_heap 0%nat) = Some 1%nat ∧
  Merge.val (Merge.cells example_heap 0%nat) < Merge.val (Merge.cells example_heap 1%nat) ∧
  Merge.unite_lists 100 example_heap (Some 0%nat) (Some 0%nat) = OutOfFuel.
Proof.
  assert (0 < Merge.fresh example_heap)%nat as Hp by (simpl; lia).
  assert (1 < Merge.fresh example_heap)%nat as Hq by (simpl; lia).
  assert (Merge.next (Merge.cells example_heap 0%nat) = Some 1%nat) as Hnext
    by reflexivity.
  assert (Merge.val (Merge.cells example_heap 0%nat)
          < Merge.val (Merge.cells example_heap 1%nat)) as Hlt by (simpl; lia).
  split; [exact Hp|]. split; [exact Hq|]. split; [exact Hnext|]. split; [exact Hlt|].
  exact (unite_lists_same_list_diverges example_heap 0 1 100 Hp Hq Hnext Hlt).
Defined.

(** ** Where the depth-first topological order starts *)

Section topo_reach.
Variables (g : graph) (n : Z).
Hypothesis Hwf : wf_graph g n.

Lemma topo_dfs_each_reach
    (rec : Z → list Color → list Z → res (bool * (list Color * list Z)))
    (us : list Z) (color : list Color) (result : list Z)
    (color' : list Color) (result' : list Z) :
  (∀ u c r c' r', u ∈ us → rec u c r = Ok (true, (c', r')) →
     ∃ new, r' = r ++ new ∧ Forall (reachable g n u) new) →
  TopologicalSort.dfs_each rec us color result = Ok (true, (color', result')) →
  ∃ new, result' = result ++ new ∧
         Forall (λ w, ∃ u, u ∈ us ∧ reachable g n u w) new.
Proof.
  revert color result. induction us as [|u us IH]; intros color result Hrec.
  { intros [= <- <-]. exists []. by rewrite app_nil_r. }
  assert (∀ c r, TopologicalSort.dfs_each rec us c r = Ok (true, (color', result')) →
    ∃ new, result' = r ++ new ∧
           Forall (λ w, ∃ u0, u0 ∈ u :: us ∧ reachable g n u0 w) new) as IH'.
  { intros c r Hrun. destruct (IH c r) as (new & -> & Hnew); [|done|].
    - intros u0 c0 r0 c0' r0' Hu0. apply (Hrec u0 c0 r0 c0' r0'). by right.
    - exists new. split; [done|]. eapply Forall_impl; [done|].
      intros w (u0 & Hu0 & Hw). exists u0. split; [by right|done]. }
  simpl. intros (c & _ & Hrest)%bind_Ok.
  case_bool_decide; [done|].
  apply bind_Ok in Hrest as (c2 & _ & Hrest).
  case_bool_decide; [|by apply (IH' _ _ Hrest)].
  apply bind_Ok in Hrest as ([ok [c1 r1]] & Hcall & Hrest).
  destruct ok; simpl in Hrest; [|done].
  destruct (Hrec u _ _ _ _ (list_elem_of_here u us) Hcall) as (new1 & -> & Hnew1).
  destruct (IH' _ _ Hrest) as (new2 & -> & Hnew2).
  exists (new1 ++ new2). split; [by rewrite app_assoc|].
  apply Forall_app. split; [|done].
  eapply Forall_impl; [done|]. intros w Hw. exists u. split; [by left|done].
Qed.

Lemma topo_dfs_reach (fuel : nat) (v : Z) (color : list Color) (result : list Z)
    (color' : list Color) (result' : list Z) :
  vertex n v →
  TopologicalSort.dfs fuel g v color result = Ok (true, (color', result')) →
  ∃ new, result' = result ++ new ++ [v] ∧ Forall (reachable g n v) new.
Proof.
  revert v color result color' result'.
  induction fuel as [|fuel IH]; intros v color result color' result' Hv; [done|].
  simpl. intros (c1 & _ & Hrest)%bind_Ok.
  rewrite (py_get_adj g n v Hwf Hv) in Hrest. simpl in Hrest.
  apply bind_Ok in Hrest as ([ok [c2 r2]] & Heach & Hrest).
  destruct ok; simpl in Hrest; [|done].
  apply bind_Ok in Hrest as (c3 & _ & [= <- <-]).
  apply topo_dfs_each_reach in Heach as (new & -> & Hnew).
  - exists new. split; [by rewrite app_assoc|].
    eapply Forall_impl; [done|]. intros w (u & Hu & Hw).
    eapply rtc_l; [|done]. by split.
  - intros u c r c' r' Hu Hcall.
    pose proof (adj_vertex g n v Hwf) as Hadj. rewrite Forall_forall in Hadj.
    apply IH in Hcall as (new & -> & Hnew); [|by apply Hadj].
    exists (new ++ [u]). split; [done|].
    apply Forall_app. split; [done|]. by apply Forall_singleton.
Qed.

Lemma topo_starts_each_reach (fuel : nat) (starts : list Z)
    (color : list Color) (result : list Z) (color' : list Color) (result' : list Z) :
  Forall (vertex n) starts → StronglySorted Z.lt starts →
  TopologicalSort.starts_each fuel g starts color result
    = Ok (true, (color', result')) →
  result' = result ∨
  ∃ new s, result' = result ++ new ++ [s] ∧ s ∈ starts ∧
           Forall (λ w, ∃ s', s' ∈ starts ∧ s' ≤ s ∧ reachable g n s' w) (new ++ [s]).
Proof.
  intros Hall Hsorted. revert color result.
  induction Hsorted as [|a starts Hsorted IH Ha]; intros color result.
  { intros [= <- <-]. by left. }
  apply Forall_cons in Hall as [Hav Hall]. specialize (IH Hall).
  assert (∀ c r, TopologicalSort.starts_each fuel g starts c r
                 = Ok (true, (color', result')) →
    result' = r ∨
    ∃ new s, result' = r ++ new ++ [s] ∧ s ∈ a :: starts ∧ a < s ∧
      Forall (λ w, ∃ s', s' ∈ a :: starts ∧ s' ≤ s ∧ reachable g n s' w) (new ++ [s]))
    as IH'.
  { intros c r Hrun. destruct (IH c r Hrun) as [->|(new & s & -> & Hs & Hnew)];
      [by left|right].
    exists new, s. split_and!; [done|by right| |].
    - rewrite Forall_forall in Ha. by apply Ha.
    - eapply Forall_impl; [done|]. intros w (s' & Hs' & Hle & Hw).
      exists s'. split_and!; [by right|done..]. }
  simpl. intros (c & _ & Hrest)%bind_Ok.
  case_bool_decide.
  2:{ destruct (IH' _ _ Hrest) as [->|(new & s & -> & Hs & _ & Hnew)]; [by left|right].
      by exists new, s. }
  apply bind_Ok in Hrest as ([ok [c1 r1]] & Hcall & Hrest).
  destruct ok; simpl in Hrest; [|done].
  apply (topo_dfs_reach fuel a _ _ _ _ Hav) in Hcall as (new1 & -> & Hnew1).
  assert (Forall (λ w, reachable g n a w) (new1 ++ [a])) as Hnew1'.
  { apply Forall_app. split; [done|]. by apply Forall_singleton. }
  right. destruct (IH' _ _ Hrest) as [->|(new2 & s & -> & Hs & Hlt & Hnew2)].
  - exists new1, a. split_and!; [done|by left|].
    eapply Forall_impl; [done|]. intros w Hw. exists a. split_and!; [by left|lia|done].
  - exists ((new1 ++ [a]) ++ new2), s. split_and!; [by rewrite <- !app_assoc|done|].
    rewrite <- app_assoc. apply Forall_app. split; [|done].
    eapply Forall_impl; [done|]. intros w Hw. exists a. split_and!; [by left|lia|done].
Qed.

Lemma source_reachable (s t : Z) :
  (∀ a, ¬ edge g n a t) → reachable g n s t → s = t.
Proof.
  intros Hsrc Hreach. apply rtc_inv_r in Hreach as [->|(a & _ & Hat)]; [done|].
  by destruct (Hsrc a).
Qed.

Lemma topological_sort_dfs_first (fuel : nat) :
  (Z.to_nat n ≤ fuel)%nat →
  ∃ r, TopologicalSort.topological_sort_dfs fuel g n = Ok r ∧
       ∀ l, r = Some l → 0 < n →
            ∃ s rest, l = s :: rest ∧ vertex n s ∧ (∀ a, ¬ edge g n a s) ∧
                      ∀ t, vertex n t → (∀ a, ¬ edge g n a t) → t ≤ s.
Proof.
  intros Hfuel.
  destruct (topological_sort_dfs_spec g n Hwf fuel Hfuel) as (r & Hrun & Hord).
  exists r. split; [done|]. intros l -> Hn. destruct Hord as [Hperm Hedges].
  unfold TopologicalSort.topological_sort_dfs in Hrun.
  apply bind_Ok in Hrun as ([ok [color' result]] & Hstarts & Hres).
  destruct ok; simpl in Hres; [|done]. injection Hres as <-.
  assert (NoDup (reverse result)) as Hnd by (rewrite Hperm; apply py_range_NoDup).
  apply topo_starts_each_reach in Hstarts
    as [->|(new & s & -> & Hs%py_range_elem & Hnew)].
  - exfalso. assert (0 ∈ @nil Z) as H0; [|by apply elem_of_nil in H0].
    change (@nil Z) with (reverse (@nil Z)). rewrite Hperm. apply py_range_elem.
    unfold vertex. lia.
  - simpl in *. rewrite reverse_app in *. simpl in *.
    exists s, (reverse new). split_and!; [done..| |].
    + intros a Ha. destruct (Hedges a s Ha) as (i & j & Hi & Hj & Hij).
      destruct j as [|j]; [lia|].
      assert (0%nat = S j) as Heq; [|done].
      apply (NoDup_lookup _ _ _ s Hnd); [done|done].
    + intros t Ht Hsrc.
      assert (t ∈ new ++ [s]) as Hin.
      { rewrite <- elem_of_reverse, reverse_app. simpl.
        rewrite Hperm. by apply py_range_elem. }
      rewrite Forall_forall in Hnew.
      destruct (Hnew t Hin) as (s' & _ & Hle & Hreach).
      by rewrite <- (source_reachable s' t Hsrc Hreach).
  - apply Forall_forall. intros v. apply py_range_elem.
  - apply py_range_sorted.
Qed.

End topo_reach.

(** X18: on a well-formed graph with [n > 0], every order returned by
    [topological_sort_dfs] begins with the highest-numbered vertex that has
    no incoming edge. *)
Theorem topological_sort_dfs_largest_source_first (g : graph) (n : Z) (fuel : nat) :
  wf_graph g n → (Z.to_nat n ≤ fuel)%nat →
  ∃ r, TopologicalSort.topological_sort_dfs fuel g n = Ok r ∧
       ∀ l, r = Some l → 0 < n →
            ∃ s rest, l = s :: rest ∧ vertex n s ∧ (∀ a, ¬ edge g n a s) ∧
                      ∀ t, vertex n t → (∀ a, ¬ edge g n a t) → t ≤ s.
Proof. intros Hwf Hfuel. by apply topological_sort_dfs_first. Qed.

Lemma topological_sort_dfs_largest_source_first_witness :
  wf_graph example_dag 6 ∧ (Z.to_nat 6 ≤ 6)%nat ∧
  ∃ r, TopologicalSort.topological_sort_dfs 6 example_dag 6 = Ok r ∧
       ∀ l, r = Some l → 0 < 6 →
            ∃ s rest, l = s :: rest ∧ vertex 6 s ∧ (∀ a, ¬ edge example_dag 6 a s) ∧
                      ∀ t, vertex 6 t → (∀ a, ¬ edge example_dag 6 a t) → t ≤ s.
Proof.
  assert (wf_graph example_dag 6) as Hwf
    by (apply (bool_decide_unpack _); by vm_compute).
  assert (Z.to_nat 6 ≤ 6)%nat as Hfuel by (simpl; lia).
  split; [exact Hwf|]. split; [exact Hfuel|].
  exact (topological_sort_dfs_largest_source_first example_dag 6 6 Hwf Hfuel).
Defined.
